(** * Simple Message Queue client: the queue of Requests and the client core

    A shallow embedding of [queue.c], of [client.c], of [request.c] and of the
    keyboard thread of [shell.c].

    Memory is a finite map from addresses to Request structures; a pointer is
    an address, [NULL] is address 0.  A C function whose behaviour is undefined
    on its input (a dereference of [NULL] or of a block that is not allocated,
    an overrun of a stack buffer) evaluates to [None]; every other result is
    [Some _].  What the program gets from its environment is an argument of
    the function that asks for it: the address returned by [calloc], the
    clock and the wake-ups of [pthread_cond_timedwait], the outcome of the
    HTTP exchange, the calls made by other threads.  What a header that is
    not among the sources declares is a parameter as well: the sizes of the
    arrays of [struct SMQ].  The critical sections of the queue run under the
    queue's mutex, so each is one state transformer. *)

From Stdlib Require Import ZArith Lia.
From stdpp Require Import base option list gmap strings.

Open Scope Z_scope.

(** ** Data model *)

Definition NULL : Z := 0.

(** [size_t] and data pointers are 64 bits wide. *)
Definition SIZE_MOD : Z := 2 ^ 64.

Definition wrap (n : Z) : Z := n mod SIZE_MOD.

(** [struct Request] of [smq/request.h]: three optional strings (a [NULL]
    [char *] is [None]) and the link to the next Request of the queue. *)
Record Request := mkRequest {
  r_method : option string;
  r_url    : option string;
  r_body   : option string;
  r_next   : Z
}.

(** [struct Queue] of [smq/queue.h], without its mutex and condition
    variables. *)
Record Queue := mkQueue {
  q_running : bool;
  q_size    : Z;
  q_head    : Z;
  q_tail    : Z
}.

Abbreviation heap := (gmap Z Request).

Definition set_next (r : Request) (n : Z) : Request :=
  mkRequest (r_method r) (r_url r) (r_body r) n.

Definition set_body (r : Request) (b : option string) : Request :=
  mkRequest (r_method r) (r_url r) b (r_next r).

Definition set_running (q : Queue) (b : bool) : Queue :=
  mkQueue b (q_size q) (q_head q) (q_tail q).

Definition set_size (q : Queue) (n : Z) : Queue :=
  mkQueue (q_running q) n (q_head q) (q_tail q).

Definition set_head (q : Queue) (p : Z) : Queue :=
  mkQueue (q_running q) (q_size q) p (q_tail q).

Definition set_tail (q : Queue) (p : Z) : Queue :=
  mkQueue (q_running q) (q_size q) (q_head q) p.

(** ** Memory accesses *)

(** [*p] for a [Request *p]. *)
Definition load (h : heap) (p : Z) : option Request :=
  if p =? NULL then None else h !! p.

(** [p->next = n]. *)
Definition store_next (h : heap) (p n : Z) : option heap :=
  r ← load h p; Some (<[p := set_next r n]> h).

(** [p->body = b]. *)
Definition store_body (h : heap) (p : Z) (b : option string) : option heap :=
  r ← load h p; Some (<[p := set_body r b]> h).

(** ** queue.c *)

(** [queue_create], when [calloc] succeeds. *)
Definition queue_create : Queue :=
  mkQueue true 0 NULL NULL.

(** [queue_shutdown]. *)
Definition queue_shutdown (q : Queue) : Queue :=
  set_running q false.

(** [queue_push]. *)
Definition queue_push (h : heap) (q : Queue) (r : Z) : option (heap * Queue) :=
  if negb (q_running q) then Some (h, q)
  else
    h1 ← store_next h r NULL;
    '(h2, q1) ← (if q_size q =? 0
                 then Some (h1, set_tail (set_head q r) r)
                 else h2 ← store_next h1 (q_tail q) r;
                      Some (h2, set_tail q r));
    Some (h2, set_size q1 (wrap (q_size q1 + 1))).

(** The wait loop of [queue_pop].  The deadline is absolute, so
    [pthread_cond_timedwait] returns 0 only finitely often before it returns
    [ETIMEDOUT]: [spurious] counts the returns that precede the deadline.  No
    other thread runs inside one atomic pop, so the size is the same at every
    test.  The result is [true] when the loop is left with [size <> 0] and
    [false] when it is left through the [ETIMEDOUT] branch. *)
Fixpoint wait_produced (q : Queue) (spurious : nat) : bool :=
  if q_size q =? 0 then
    match spurious with
    | O => false
    | S k => wait_produced q k
    end
  else true.

(** The statements of [queue_pop] that follow the loop: the head is unlinked
    and returned. *)
Definition dequeue (h : heap) (q : Queue) : option (heap * Queue * Z) :=
  let r := q_head q in
  q1 ← (if q_size q =? 1
        then Some (set_tail (set_head q NULL) NULL)
        else hd ← load h (q_head q);
             Some (set_head q (r_next hd)));
  let q2 := set_size q1 (wrap (q_size q1 - 1)) in
  h1 ← store_next h r NULL;
  Some (h1, q2, r).

(** [queue_pop] as one critical section; the [Z] of the result is the
    returned pointer.  The deadline that [compute_stoptime] derives from
    [timeout] is not part of the state: it shows in [spurious] only
    ([queue_pop_among], further down, is the pop with its deadline and with
    the other threads). *)
Definition queue_pop (h : heap) (q : Queue) (timeout : Z) (spurious : nat)
  : option (heap * Queue * Z) :=
  if negb (wait_produced q spurious) then Some (h, q, NULL)
  else dequeue h q.

(** ** Sequences of queue operations *)

(** One call on the queue by some thread; [Pop] carries the arguments and the
    wake-ups of that call.  A push and a shutdown are one critical section.
    A pop that waits spans several, but it writes in the last one only, and a
    pop that gives up found the size 0 at its last test: it acts as one atomic
    pop placed at that section ([queue_pop_among], further down, is the pop
    with its waits).  The calls of concurrent threads therefore act as the list
    of these calls, in the order of those sections. *)
Inductive op :=
  | Push (r : Z)
  | Pop (timeout : Z) (spurious : nat)
  | Shutdown.

(** The third component lists the pointers returned by the pops. *)
Definition exec_op (h : heap) (q : Queue) (o : op)
  : option (heap * Queue * list Z) :=
  match o with
  | Push r => '(h1, q1) ← queue_push h q r; Some (h1, q1, [])
  | Pop t s => '(h1, q1, r) ← queue_pop h q t s; Some (h1, q1, [r])
  | Shutdown => Some (h, queue_shutdown q, [])
  end.

Fixpoint run_ops (h : heap) (q : Queue) (ops : list op)
  : option (heap * Queue * list Z) :=
  match ops with
  | [] => Some (h, q, [])
  | o :: ops' =>
      '(h1, q1, out1) ← exec_op h q o;
      '(h2, q2, out2) ← run_ops h1 q1 ops';
      Some (h2, q2, out1 ++ out2)
  end.

(** Modelled from the spec: [compute_stoptime] is a macro of [smq/utils.h],
    which is not among the sources.  It sets the absolute deadline
    [now + timeout], in milliseconds; [now] is the clock at the call. *)
Definition compute_stoptime (now timeout : Z) : Z := now + timeout.

(** What [pthread_cond_timedwait] returns: 0 or [ETIMEDOUT]. *)
Inductive wake := Woken | TimedOut.

(** [pthread_cond_timedwait] with the deadline [stop], on a wait that a signal
    or a spurious wake-up would end at the time [t]: it returns 0 when the
    wake-up comes before the deadline. *)
Definition timedwait (stop t : Z) : wake :=
  if t <? stop then Woken else TimedOut.

(** The loop of [queue_pop] and what follows it, among other threads.  Each
    element of [waits] is one call of [pthread_cond_timedwait]: the calls that
    other threads complete on the queue while the wait lasts and the mutex is
    released, and the time at which a wake-up would end the wait; when [waits]
    is used up nothing more happens before the deadline.  The last component
    of the result lists what the pops of the other threads returned. *)
Fixpoint wait_among (h : heap) (q : Queue) (stop : Z)
    (waits : list (list op * Z)) : option (heap * Queue * Z * list Z) :=
  if q_size q =? 0 then
    match waits with
    | [] => Some (h, q, NULL, [])
    | (others, t) :: waits' =>
        '(h1, q1, out1) ← run_ops h q others;
        match timedwait stop t with
        | TimedOut => Some (h1, q1, NULL, out1)
        | Woken =>
            '(h2, q2, r, out2) ← wait_among h1 q1 stop waits';
            Some (h2, q2, r, out1 ++ out2)
        end
    end
  else '(h1, q1, r) ← dequeue h q; Some (h1, q1, r, []).

(** [queue_pop] among other threads, called at the time [now]. *)
Definition queue_pop_among (h : heap) (q : Queue) (timeout now : Z)
    (waits : list (list op * Z)) : option (heap * Queue * Z * list Z) :=
  wait_among h q (compute_stoptime now timeout) waits.

(** Waits that a wake-up would end at the times [ts], one after the other,
    while no other thread calls the queue. *)
Definition idle (ts : list Z) : list (list op * Z) :=
  map (λ t, ([], t)) ts.

(** ** Representation invariant *)

(** [lseg h p l e]: following the next-links of [h] from [p] visits exactly
    the Requests at the addresses [l], in that order, and the link of the last
    one is [e]. *)
Fixpoint lseg (h : heap) (p : Z) (l : list Z) (e : Z) : Prop :=
  match l with
  | [] => p = e
  | a :: l' =>
      p = a ∧ a ≠ NULL ∧ ∃ r, h !! a = Some r ∧ lseg h (r_next r) l' e
  end.

(** The Requests met by at most [fuel] next-links from [p]. *)
Fixpoint reach (fuel : nat) (h : heap) (p : Z) : list Z :=
  match fuel with
  | O => []
  | S k =>
      match load h p with
      | None => []
      | Some r => p :: reach k h (r_next r)
      end
  end.

(** Allocated addresses are non-null 64-bit pointers. *)
Definition heap_ok (h : heap) : Prop :=
  ∀ a r, h !! a = Some r → 0 < a < SIZE_MOD.

(** The queue [q] holds the Requests at addresses [l], oldest first. *)
Record queue_inv (h : heap) (q : Queue) (l : list Z) : Prop := mk_queue_inv {
  inv_chain : lseg h (q_head q) l NULL;
  inv_nodup : NoDup l;
  inv_size  : q_size q = Z.of_nat (length l);
  inv_tail  : q_tail q = default NULL (last l)
}.

(** What a Request carries apart from its link. *)
Definition payload (r : Request) : option string * option string * option string :=
  (r_method r, r_url r, r_body r).

(** [h'] has the blocks of [h], each with the payload it has in [h]. *)
Definition same_payloads (h h' : heap) : Prop :=
  ∀ a, payload <$> (h' !! a) = payload <$> (h !! a).

(** ** The queue as a list: the behaviour the operations are compared with *)

(** State: the running flag and the queued addresses; result: next state and
    the pointers returned. *)
Definition abs_op (run : bool) (l : list Z) (o : op) : bool * list Z * list Z :=
  match o with
  | Push r => (run, if run then l ++ [r] else l, [])
  | Pop _ _ =>
      match l with
      | [] => (run, [], [NULL])
      | a :: l' => (run, l', [a])
      end
  | Shutdown => (false, l, [])
  end.

Fixpoint abs_run (run : bool) (l : list Z) (ops : list op) : bool * list Z * list Z :=
  match ops with
  | [] => (run, l, [])
  | o :: ops' =>
      let '(run1, l1, out1) := abs_op run l o in
      let '(run2, l2, out2) := abs_run run1 l1 ops' in
      (run2, l2, out1 ++ out2)
  end.

(** A push onto a running queue needs an allocated Request that is not linked
    into the queue already ("a Request is linked into at most one Queue at a
    time"). *)
Definition op_ok (h : heap) (run : bool) (l : list Z) (o : op) : Prop :=
  match o with
  | Push r => run = true → is_Some (h !! r) ∧ r ∉ l
  | _ => True
  end.

Fixpoint ops_ok (h : heap) (run : bool) (l : list Z) (ops : list op) : Prop :=
  match ops with
  | [] => True
  | o :: ops' =>
      op_ok h run l o ∧
      let '(run1, l1, _) := abs_op run l o in ops_ok h run1 l1 ops'
  end.

(** ** request.c *)

(** The C string at the start of a buffer: the bytes before the first NUL.
    The arguments of the client's functions are C strings; what the network
    delivers is a buffer of bytes, of which [strdup] copies the C string. *)
Fixpoint c_string (bytes : string) : string :=
  match bytes with
  | EmptyString => EmptyString
  | String byte rest =>
      if Ascii.eqb byte Ascii.zero then EmptyString
      else String byte (c_string rest)
  end.

(** [request_create]; [a] is what [calloc] returns: [NULL], or the address of
    a block that was not allocated before.  The strings are copied. *)
Definition request_create (h : heap) (a : Z)
    (method url body : option string) : heap * Z :=
  if a =? NULL then (h, NULL)
  else (<[a := mkRequest method url body NULL]> h, a).

(** [request_delete]: the strings that are present and the structure are
    released. *)
Definition request_delete (h : heap) (r : Z) : option heap :=
  if r =? NULL then Some h
  else match h !! r with
       | Some _ => Some (delete r h)
       | None => None
       end.

(** What [request_perform] asks libcurl to do. *)
Inductive verb := GET | PUT | DELETE.

Record exchange := mkExchange {
  x_verb    : verb;
  x_url     : option string;
  x_upload  : option string;
  x_timeout : Z
}.

(** What [curl_easy_perform] does with it: an error (a timeout, no
    connection, a status of 400 or more under [CURLOPT_FAILONERROR]), or
    success with the pieces of the response body handed to
    [request_writer]. *)
Inductive curl_result :=
  | CurlError
  | CurlOK (chunks : list string).

(** The transport as the client finds it: [curl_easy_init] returns [NULL], or
    it returns a session whose exchanges end as [reply] tells. *)
Inductive network :=
  | NoSession
  | Session (reply : exchange → curl_result).

(** [streq] of [smq/utils.h]: the two strings are equal. *)
Definition streq (a b : string) : bool := bool_decide (a = b).

(** [request_perform] on the Request [req]; the inner [option] is the
    returned [char *].  [streq] reads the method, which has to be there. *)
Definition request_perform (req : Request) (timeout : Z) (net : network)
  : option (option string) :=
  match net with
  | NoSession => Some None
  | Session reply =>
      m ← r_method req;
      let x :=
        if streq m "PUT" then
          mkExchange PUT (r_url req) (Some (default "" (r_body req))) timeout
        else if streq m "DELETE" then
          mkExchange DELETE (r_url req) None timeout
        else mkExchange GET (r_url req) None timeout in
      match reply x with
      | CurlError => Some None
      | CurlOK [] => Some None
      | CurlOK chunks => Some (Some (String.concat "" chunks))
      end
  end.

(** ** client.c *)

Inductive thread := Pusher | Puller.

(** [struct SMQ] of [smq/client.h], without its mutex; the two queues are the
    structures [outgoing] and [incoming] point to, the two thread handles are
    [Pusher] and [Puller]. *)
Record SMQ := mkSMQ {
  c_name       : string;
  c_server_url : string;
  c_timeout    : Z;
  c_running    : bool;
  c_outgoing   : Queue;
  c_incoming   : Queue
}.

(** The memory, the client, and the calls of [thread_join] made so far. *)
Record World := mkWorld {
  w_heap  : heap;
  w_smq   : SMQ;
  w_joins : list thread
}.

Definition set_c_running (c : SMQ) (b : bool) : SMQ :=
  mkSMQ (c_name c) (c_server_url c) (c_timeout c) b (c_outgoing c) (c_incoming c).

Definition set_outgoing (c : SMQ) (q : Queue) : SMQ :=
  mkSMQ (c_name c) (c_server_url c) (c_timeout c) (c_running c) q (c_incoming c).

Definition set_incoming (c : SMQ) (q : Queue) : SMQ :=
  mkSMQ (c_name c) (c_server_url c) (c_timeout c) (c_running c) (c_outgoing c) q.

(** [BUFSIZ] of [<stdio.h>] (glibc). *)
Definition BUFSIZ : Z := 8192.

(** [sprintf] into [char url[BUFSIZ]]: the text and its terminating NUL have
    to fit. *)
Definition sprintf_url (text : string) : option string :=
  if Z.of_nat (String.length text) <? BUFSIZ then Some text else None.

(** [snprintf] into [char url[1<<8]]: the text is cut to 255 characters. *)
Definition snprintf_256 (text : string) : string :=
  String.substring 0 255 text.

(** [smq_create], when every allocation succeeds; both workers are started.
    [struct SMQ] is declared in [smq/client.h], which is not among the
    sources: the sizes of its arrays [name] and [server_url] are the
    parameters [name_size] and [url_size].  Each [strcpy] writes the string
    and its NUL, and overruns the array when they do not fit. *)
Definition smq_create (name_size url_size : Z) (name host port : string)
  : option World :=
  if negb (Z.of_nat (String.length name) <? name_size) then None
  else
    let url := snprintf_256 (host +:+ ":" +:+ port) in
    if negb (Z.of_nat (String.length url) <? url_size) then None
    else Some (mkWorld ∅ (mkSMQ name url 2000 true queue_create queue_create) []).

(** [smq_running]. *)
Definition smq_running (w : World) : bool := c_running (w_smq w).

(** [smq_publish]; [a] is the result of the [calloc] of [request_create]. *)
Definition smq_publish (w : World) (a : Z) (topic : string)
    (body : option string) : option World :=
  let c := w_smq w in
  if negb (c_running c) then Some w
  else
    url ← sprintf_url (c_server_url c +:+ "/topic/" +:+ topic);
    let '(h1, r) := request_create (w_heap w) a (Some "PUT") (Some url) body in
    '(h2, q) ← queue_push h1 (c_outgoing c) r;
    Some (mkWorld h2 (set_outgoing c q) (w_joins w)).

(** A [char *] that a function hands to its caller: [NULL], a string that is
    the caller's from then on, or a pointer to a string that was released
    before the function returned. *)
Inductive handed :=
  | HandNull
  | HandOwned (text : string)
  | HandReleased.

(** [request_delete] releases the string of every field that is not [NULL]:
    whether the string of the body field of the Request at [r] is among
    them. *)
Definition deletes_body (h : heap) (r : Z) : bool :=
  match h !! r with
  | Some req => bool_decide (r_body req ≠ None)
  | None => false
  end.

(** The statements of [smq_retrieve] that follow the pop, which returned [r]
    and left the memory [h1] and the incoming queue [q].  [message] is the
    pointer read from the body field: the string it points to is the caller's
    when [request_delete] does not release it with the Request. *)
Definition smq_unwrap (w : World) (h1 : heap) (q : Queue) (r : Z)
  : option (World * handed) :=
  let c := w_smq w in
  if r =? NULL then Some (mkWorld h1 (set_incoming c q) (w_joins w), HandNull)
  else
    req ← load h1 r;
    let message := r_body req in
    h2 ← store_body h1 r None;
    h3 ← request_delete h2 r;
    Some (mkWorld h3 (set_incoming c q) (w_joins w),
          match message with
          | None => HandNull
          | Some text => if deletes_body h2 r then HandReleased else HandOwned text
          end).

(** [smq_retrieve], called at the time [now]; [waits] tells when the waits of
    its pop would be ended and what the other threads do to the incoming
    queue meanwhile, as in [queue_pop_among]. *)
Definition smq_retrieve (w : World) (now : Z) (waits : list (list op * Z))
  : option (World * handed) :=
  let c := w_smq w in
  if negb (smq_running w) then Some (w, HandNull)
  else
    '(h1, q, r, _) ← queue_pop_among (w_heap w) (c_incoming c) (c_timeout c)
                       now waits;
    smq_unwrap w h1 q r.

(** [smq_subscribe]. *)
Definition smq_subscribe (w : World) (a : Z) (topic : string) : option World :=
  let c := w_smq w in
  url ← sprintf_url
          (c_server_url c +:+ "/subscription/" +:+ c_name c +:+ "/" +:+ topic);
  let '(h1, r) := request_create (w_heap w) a (Some "PUT") (Some url) None in
  '(h2, q) ← queue_push h1 (c_outgoing c) r;
  Some (mkWorld h2 (set_outgoing c q) (w_joins w)).

(** [smq_unsubscribe]. *)
Definition smq_unsubscribe (w : World) (a : Z) (topic : string) : option World :=
  let c := w_smq w in
  url ← sprintf_url
          (c_server_url c +:+ "/subscription/" +:+ c_name c +:+ "/" +:+ topic);
  let '(h1, r) := request_create (w_heap w) a (Some "DELETE") (Some url) None in
  '(h2, q) ← queue_push h1 (c_outgoing c) r;
  Some (mkWorld h2 (set_outgoing c q) (w_joins w)).

(** [smq_shutdown] up to the joins: the queues are shut down and the running
    attribute is cleared. *)
Definition smq_shutdown_flags (w : World) : World :=
  let c := w_smq w in
  let c1 := set_outgoing c (queue_shutdown (c_outgoing c)) in
  let c2 := set_incoming c1 (queue_shutdown (c_incoming c1)) in
  mkWorld (w_heap w) (set_c_running c2 false) (w_joins w).

(** [thread_join]. *)
Definition thread_join (w : World) (t : thread) : World :=
  mkWorld (w_heap w) (w_smq w) (w_joins w ++ [t]).

(** [smq_shutdown] on a client ([smq] is not [NULL]). *)
Definition smq_shutdown (w : World) : World :=
  thread_join (thread_join (smq_shutdown_flags w) Pusher) Puller.

(** One turn of the loop of [smq_puller] that received the bytes [response]:
    the C string in them is copied into a Request, which is pushed on the
    incoming queue. *)
Definition smq_puller_deliver (w : World) (a : Z) (response : string)
  : option World :=
  let c := w_smq w in
  let '(h1, message) :=
    request_create (w_heap w) a None None (Some (c_string response)) in
  '(h2, q) ← queue_push h1 (c_incoming c) message;
  Some (mkWorld h2 (set_incoming c q) (w_joins w)).

(** One turn of the loop of [smq_puller]; [r] is the Request built on the
    stack before the loop. *)
Definition smq_puller_iter (w : World) (r : Request) (a : Z) (net : network)
  : option World :=
  response ← request_perform r (c_timeout (w_smq w)) net;
  match response with
  | None => Some w
  | Some s => smq_puller_deliver w a s
  end.

Fixpoint smq_puller_loop (w : World) (r : Request) (sched : list (Z * network))
  : option World :=
  match sched with
  | [] => Some w
  | (a, net) :: sched' =>
      if smq_running w then
        w1 ← smq_puller_iter w r a net;
        smq_puller_loop w1 r sched'
      else Some w
  end.

(** [smq_puller]; each element of [sched] gives the allocation and the
    network of one turn. *)
Definition smq_puller (w : World) (sched : list (Z * network)) : option World :=
  let c := w_smq w in
  url ← sprintf_url (c_server_url c +:+ "/queue/" +:+ c_name c);
  smq_puller_loop w (mkRequest (Some "GET") (Some url) None NULL) sched.

(** What the other threads do to the client while the pusher is inside
    [request_perform], where it holds no lock; [CallShutdown] is
    [smq_shutdown] up to its joins, [CallRetrieve now wakes] is an
    [smq_retrieve] during whose waits no other thread calls the incoming
    queue. *)
Inductive call :=
  | CallPublish (a : Z) (topic : string) (body : option string)
  | CallSubscribe (a : Z) (topic : string)
  | CallUnsubscribe (a : Z) (topic : string)
  | CallRetrieve (now : Z) (wakes : list Z)
  | CallDeliver (a : Z) (response : string)
  | CallShutdown.

Definition run_call (w : World) (k : call) : option World :=
  match k with
  | CallPublish a topic body => smq_publish w a topic body
  | CallSubscribe a topic => smq_subscribe w a topic
  | CallUnsubscribe a topic => smq_unsubscribe w a topic
  | CallRetrieve now wakes => fst <$> smq_retrieve w now (idle wakes)
  | CallDeliver a s => smq_puller_deliver w a s
  | CallShutdown => Some (smq_shutdown_flags w)
  end.

Fixpoint run_calls (w : World) (ks : list call) : option World :=
  match ks with
  | [] => Some w
  | k :: ks' => w1 ← run_call w k; run_calls w1 ks'
  end.

(** One turn of the loop of [smq_pusher], entered with the client running;
    [env] is what the other threads do during the transport call. *)
Definition smq_pusher_iter (w : World) (spurious : nat) (env : list call)
    (net : network) : option World :=
  let c := w_smq w in
  '(h1, q1, r) ← queue_pop (w_heap w) (c_outgoing c) (c_timeout c) spurious;
  let w1 := mkWorld h1 (set_outgoing c q1) (w_joins w) in
  if r =? NULL then Some w1
  else
    req ← load h1 r;
    response ← request_perform req (c_timeout c) net;
    w2 ← run_calls w1 env;
    match response with
    | None =>
        '(h3, q3) ← queue_push (w_heap w2) (c_outgoing (w_smq w2)) r;
        Some (mkWorld h3 (set_outgoing (w_smq w2) q3) (w_joins w2))
    | Some _ =>
        h3 ← request_delete (w_heap w2) r;
        Some (mkWorld h3 (w_smq w2) (w_joins w2))
    end.

(** The loop of [smq_pusher]; each element of [sched] gives the wake-ups, the
    other threads and the network of one turn. *)
Fixpoint smq_pusher (w : World)
    (sched : list (nat * list call * network))
  : option World :=
  match sched with
  | [] => Some w
  | (spurious, env, net) :: sched' =>
      if smq_running w then
        w1 ← smq_pusher_iter w spurious env net;
        smq_pusher w1 sched'
      else Some w
  end.

(** ** Vocabulary of the statements *)

(** The pushes of [ops] that find the queue running, in order. *)
Fixpoint accepted (run : bool) (ops : list op) : list Z :=
  match ops with
  | [] => []
  | Push r :: ops' =>
      if run then r :: accepted run ops' else accepted run ops'
  | Pop _ _ :: ops' => accepted run ops'
  | Shutdown :: ops' => accepted false ops'
  end.

(** The Requests among the results of the pops. *)
Definition returned (out : list Z) : list Z :=
  filter (λ r, r ≠ NULL) out.

(** The calls of [queue_pop] with the given arguments and wake-ups. *)
Definition pops (args : list (Z * nat)) : list op :=
  map (λ ts, Pop ts.1 ts.2) args.

(** [a] can be the result of a successful [calloc]. *)
Definition fresh (h : heap) (a : Z) : Prop :=
  h !! a = None ∧ 0 < a < SIZE_MOD.

(** [text] fits a buffer of [BUFSIZ] bytes. *)
Definition fits (text : string) : Prop :=
  Z.of_nat (String.length text) < BUFSIZ.

(** The URLs of the broker, as the specification writes them. *)
Definition topic_url (c : SMQ) (topic : string) : string :=
  c_server_url c +:+ "/topic/" +:+ topic.

Definition subscription_url (c : SMQ) (topic : string) : string :=
  c_server_url c +:+ "/subscription/" +:+ c_name c +:+ "/" +:+ topic.

(** The fields of the client that no function changes after [smq_create]. *)
Definition same_client (c c' : SMQ) : Prop :=
  c_name c' = c_name c ∧ c_server_url c' = c_server_url c ∧
  c_timeout c' = c_timeout c.

(** The transport fails on [req]: [request_perform] returns [NULL]. *)
Definition transport_fails (req : Request) (timeout : Z) (net : network)
  : Prop :=
  request_perform req timeout net = Some None.

Definition transport_succeeds (req : Request) (timeout : Z) (net : network)
  : Prop :=
  ∃ response, request_perform req timeout net = Some (Some response).

(** The client [w] holds the Requests [lo] in its outgoing queue and [li] in
    its incoming queue; the running flags of the queues follow the one of the
    client, as they do between any two calls of the client's functions. *)
Record world_inv (w : World) (lo li : list Z) : Prop := mk_world_inv {
  wi_heap    : heap_ok (w_heap w);
  wi_out     : queue_inv (w_heap w) (c_outgoing (w_smq w)) lo;
  wi_in      : queue_inv (w_heap w) (c_incoming (w_smq w)) li;
  wi_sep     : ∀ a, a ∈ lo → a ∉ li;
  wi_run_out : q_running (c_outgoing (w_smq w)) = c_running (w_smq w);
  wi_run_in  : q_running (c_incoming (w_smq w)) = c_running (w_smq w)
}.

(** The client seen by the other threads: the allocated addresses, the
    running flag, the contents of the outgoing and of the incoming queue. *)
Record view := mkView {
  v_dom : gset Z;
  v_run : bool;
  v_out : list Z;
  v_in  : list Z
}.

Definition view_of (w : World) (lo li : list Z) : view :=
  mkView (dom (w_heap w)) (smq_running w) lo li.

(** What a call of another thread needs: its allocation succeeds with a block
    that was free, its URL fits the buffer. *)
Definition call_ok (c : SMQ) (v : view) (k : call) : Prop :=
  match k with
  | CallPublish a topic _ =>
      v_run v = true →
      (a ∉ v_dom v) ∧ (0 < a < SIZE_MOD) ∧ fits (topic_url c topic)
  | CallSubscribe a topic | CallUnsubscribe a topic =>
      (a ∉ v_dom v) ∧ (0 < a < SIZE_MOD) ∧ fits (subscription_url c topic)
  | CallDeliver a _ => (a ∉ v_dom v) ∧ (0 < a < SIZE_MOD)
  | CallRetrieve _ _ | CallShutdown => True
  end.

(** What the call does, on the view. *)
Definition view_call (v : view) (k : call) : view :=
  match k with
  | CallPublish a _ _ =>
      if v_run v then mkView ({[a]} ∪ v_dom v) true (v_out v ++ [a]) (v_in v)
      else v
  | CallSubscribe a _ | CallUnsubscribe a _ =>
      mkView ({[a]} ∪ v_dom v) (v_run v)
        (if v_run v then v_out v ++ [a] else v_out v) (v_in v)
  | CallDeliver a _ =>
      mkView ({[a]} ∪ v_dom v) (v_run v) (v_out v)
        (if v_run v then v_in v ++ [a] else v_in v)
  | CallRetrieve _ _ =>
      if v_run v then
        match v_in v with
        | [] => v
        | b :: li => mkView (v_dom v ∖ {[b]}) true (v_out v) li
        end
      else v
  | CallShutdown => mkView (v_dom v) false (v_out v) (v_in v)
  end.

Fixpoint view_calls (v : view) (ks : list call) : view :=
  match ks with
  | [] => v
  | k :: ks' => view_calls (view_call v k) ks'
  end.

Fixpoint calls_ok (c : SMQ) (v : view) (ks : list call) : Prop :=
  match ks with
  | [] => True
  | k :: ks' => call_ok c v k ∧ calls_ok c (view_call v k) ks'
  end.

(** The string of the field [body], handed to the caller. *)
Definition hand_over (body : option string) : handed :=
  match body with
  | None => HandNull
  | Some text => HandOwned text
  end.

(** The Requests the calls [ks] append to the outgoing queue, when they start
    with the client running or not. *)
Fixpoint enqueued (run : bool) (ks : list call) : list Z :=
  match ks with
  | [] => []
  | CallShutdown :: ks' => enqueued false ks'
  | (CallPublish a _ _ | CallSubscribe a _ | CallUnsubscribe a _) :: ks' =>
      if run then a :: enqueued run ks' else enqueued run ks'
  | (CallRetrieve _ _ | CallDeliver _ _) :: ks' => enqueued run ks'
  end.

(** Whether the client is shut down during [ks]. *)
Fixpoint shuts_down (ks : list call) : bool :=
  match ks with
  | [] => false
  | CallShutdown :: _ => true
  | _ :: ks' => shuts_down ks'
  end.

(** ** Concrete states for the examples *)

Definition ex_request (body : string) : Request :=
  mkRequest None None (Some body) NULL.

(** Two Requests, at addresses 1 and 2, linked into no queue. *)
Definition ex_heap : heap :=
  <[1 := ex_request "hi"]> (<[2 := ex_request "there"]> ∅).

(** The queue that holds the Request at address 1. *)
Definition ex_queue_one : Queue := mkQueue true 1 1 1.

Definition ex_put : Request :=
  mkRequest (Some "PUT") (Some "localhost:8080/topic/t") (Some "hello") NULL.

(** A running client whose outgoing queue holds one PUT Request, at
    address 1. *)
Definition ex_sender : World :=
  mkWorld (<[1 := ex_put]> ∅)
    (mkSMQ "bob" "localhost:8080" 2000 true ex_queue_one queue_create) [].

(** A running client whose incoming queue holds the message at address 1. *)
Definition ex_mailbox : World :=
  mkWorld ex_heap
    (mkSMQ "bob" "localhost:8080" 2000 true queue_create ex_queue_one) [].

(** A running client with both queues empty; the Requests at 1 and 2 are
    held by the puller, which has not pushed them yet. *)
Definition ex_waiting : World :=
  mkWorld ex_heap
    (mkSMQ "bob" "localhost:8080" 2000 true queue_create queue_create) [].

(** The client that [smq_create] builds for [name] and the broker at
    [localhost:8080]. *)
Definition ex_client (name : string) : World :=
  mkWorld ∅ (mkSMQ name "localhost:8080" 2000 true queue_create queue_create) [].

(** A network on which every exchange fails, and one on which every exchange
    is answered. *)
Definition net_down : network := Session (λ _, CurlError).

Definition net_up : network := Session (λ _, CurlOK ["ok"]).

(** ** The rest of queue.c and client.c *)

(** The loop of [queue_delete]: the Requests are released from [p] on, each
    after its link was read.  Every turn releases a block, so the loop makes
    at most as many turns as there are blocks: [fuel] is that number. *)
Fixpoint queue_delete_loop (fuel : nat) (h : heap) (p : Z) : option heap :=
  if p =? NULL then Some h
  else
    match fuel with
    | O => None
    | S k =>
        r ← load h p;
        h1 ← request_delete h p;
        queue_delete_loop k h1 (r_next r)
    end.

(** [queue_delete] on a queue ([q] is not [NULL]); the queue structure itself
    is released at the end. *)
Definition queue_delete (h : heap) (q : Queue) : option heap :=
  queue_delete_loop (size h) h (q_head q).

(** [smq_delete] on a client ([smq] is not [NULL]): what is left of the
    memory. *)
Definition smq_delete (w : World) : option heap :=
  h1 ← queue_delete (w_heap w) (c_outgoing (w_smq w));
  queue_delete h1 (c_incoming (w_smq w)).

(** [h] without the blocks at the addresses [l]. *)
Definition released (h : heap) (l : list Z) : heap :=
  filter (λ ar, ar.1 ∉ l) h.

(** ** The callbacks of request.c *)

(** A [char *] to a block of the allocator: [NULL], a block that holds a text
    and its terminator, or a block that was released. *)
Inductive buffer :=
  | BufNull
  | Buf (text : string)
  | BufFreed.

(** [Response] and [Payload]. *)
Record Response := mkResponse {
  resp_data : buffer;
  resp_size : Z
}.

Record Payload := mkPayload {
  pay_data   : option string;
  pay_offset : Z
}.

Definition strlen (s : string) : Z := Z.of_nat (String.length s).

(** [free] of a buffer: the pointer itself is left as it is. *)
Definition free_buffer (b : buffer) : option buffer :=
  match b with
  | BufNull => Some BufNull
  | Buf _ => Some BufFreed
  | BufFreed => None
  end.

(** [request_writer]; [ptr] holds the delivered bytes, [ok] tells whether
    [realloc] succeeds.  The block of the response holds [resp_size] bytes of
    text and the terminator; [realloc] gets the size [size + realsize + 1],
    computed in [size_t], and [memcpy] then writes [realsize] bytes read from
    [ptr]. *)
Definition request_writer (ptr : string) (size nmemb : Z) (ok : bool)
    (r : Response) : option (Response * Z) :=
  let realsize := wrap (size * nmemb) in
  match resp_data r with
  | BufFreed => None
  | old =>
      if negb ok then
        b ← free_buffer old;
        Some (mkResponse b (resp_size r), 0)
      else if SIZE_MOD <=? resp_size r + realsize + 1 then None
      else if strlen ptr <? realsize then None
      else
        let text := match old with Buf t => t | _ => "" end in
        if negb (resp_size r =? strlen text) then None
        else
          Some (mkResponse
                  (Buf (text +:+ String.substring 0 (Z.to_nat realsize) ptr))
                  (wrap (resp_size r + realsize)),
                realsize)
  end.

(** [request_reader]; the first component of the result is what [memcpy]
    wrote to [ptr].  [memcpy] must not read past the body. *)
Definition request_reader (size nmemb : Z) (p : Payload)
  : option (string * Payload * Z) :=
  match pay_data p with
  | None => Some ("", p, 0)
  | Some data =>
      let realsize := wrap (size * nmemb) in
      let left := wrap (strlen data - pay_offset p) in
      let res := if left >? realsize then realsize else left in
      if (0 <? res) && (strlen data <? pay_offset p + res) then None
      else
        Some (String.substring (Z.to_nat (pay_offset p)) (Z.to_nat res) data,
              mkPayload (Some data) (wrap (pay_offset p + res)),
              res)
  end.

(** libcurl receiving: it hands each piece to [request_writer] with size 1,
    and gives up ([CURLE_WRITE_ERROR]) when the writer does not return the
    length of the piece.  A piece comes with the outcome of its [realloc];
    the [bool] of the result tells whether all pieces were taken. *)
Fixpoint receive (pieces : list (string * bool)) (r : Response)
  : option (Response * bool) :=
  match pieces with
  | [] => Some (r, true)
  | (bytes, ok) :: pieces' =>
      '(r1, n) ← request_writer bytes 1 (strlen bytes) ok r;
      if n =? strlen bytes then receive pieces' r1 else Some (r1, false)
  end.

(** libcurl sending: it asks [request_reader] to fill buffers of the sizes
    [bufs], with size 1, until the reader returns 0.  The result lists what
    was sent. *)
Fixpoint upload (bufs : list Z) (p : Payload) : option (list string * Payload) :=
  match bufs with
  | [] => Some ([], p)
  | n :: bufs' =>
      '(bytes, p1, res) ← request_reader 1 n p;
      if res =? 0 then Some ([], p1)
      else
        '(rest, p2) ← upload bufs' p1;
        Some (bytes :: rest, p2)
  end.

(** The statements of [request_perform] from [curl_easy_perform] on, for a
    transfer that delivers [pieces] and ends well or not ([finished]): the
    response starts empty, is released when the transfer failed, and is
    returned otherwise.  A released block that is returned is used by the
    caller, which is undefined. *)
Definition request_receive (pieces : list (string * bool)) (finished : bool)
  : option (option string) :=
  '(r, taken) ← receive pieces (mkResponse BufNull 0);
  if negb (taken && finished) then
    _ ← free_buffer (resp_data r); Some None
  else
    match resp_data r with
    | BufNull => Some None
    | Buf text => Some (Some text)
    | BufFreed => None
    end.

(** Pieces whose [realloc] succeeds. *)
Definition stored (chunks : list string) : list (string * bool) :=
  map (λ c, (c, true)) chunks.

(** The total of the buffer sizes offered. *)
Definition sum_sizes (bufs : list Z) : Z := foldr Z.add 0 bufs.

(** A broker that accepts the PUT of "hello" to the topic "t" and nothing
    else. *)
Definition ex_broker (x : exchange) : curl_result :=
  match x_verb x, x_url x, x_upload x with
  | PUT, Some url, Some text =>
      if String.eqb url "localhost:8080/topic/t" && String.eqb text "hello"
      then CurlOK ["ok"] else CurlError
  | _, _, _ => CurlError
  end.

(** A broker that accepts the upload [text] and nothing else. *)
Definition ex_accepts (text : string) : network :=
  Session (λ x, match x_upload x with
                | Some up => if String.eqb up text then CurlOK ["ok"] else CurlError
                | None => CurlError
                end).

(** ** shell.c: the thread that reads the keyboard *)

Definition BACKSPACE : Z := 127.

(** The value of a character read into [char input_char]. *)
Definition code (key : Ascii.ascii) : Z := Z.of_nat (Ascii.nat_of_ascii key).

(** [iscntrl] in the C locale, for the values below 128. *)
Definition iscntrl (c : Z) : bool := (c <? 32) || (c =? 127).

(** The locals of [outgoing_thread]: the C string held in
    [char input_buffer[BUFSIZ]] and [input_index]. *)
Record Line := mkLine { input_buffer : string; input_index : Z }.

(** One turn of the loop of [outgoing_thread], entered with the client
    running: [key] is the character read, [a] the result of the [calloc] of
    [request_create] when the turn publishes.  The last component of the
    result tells whether the loop goes on.  A character of 128 or more is
    negative as a [char], and [iscntrl] is not defined on it.  Writing a
    character and a NUL at [input_index] cuts the string there when the index
    lies within it, and leaves it as it is when the index lies behind its
    NUL. *)
Definition outgoing_turn (w : World) (ln : Line) (key : Ascii.ascii) (a : Z)
  : option (World * Line * bool) :=
  let buf := input_buffer ln in
  let i := input_index ln in
  if code key =? 10 then
    if streq buf "/quit" || streq buf "/exit" then Some (smq_shutdown w, ln, false)
    else if 0 <? strlen buf then
      w1 ← smq_publish w a "shell" (Some buf);
      Some (w1, mkLine "" 0, true)
    else Some (w, ln, true)
  else if (code key =? BACKSPACE) && (0 <? i) then
    Some (w, mkLine (String.substring 0 (Z.to_nat (wrap (i - 1))) buf)
                    (wrap (i - 1)), true)
  else if 128 <=? code key then None
  else if negb (iscntrl (code key)) && (i <? BUFSIZ - 1) then
    Some (w, mkLine (if i <=? strlen buf
                     then String.substring 0 (Z.to_nat i) buf +:+ String key ""
                     else buf)
                    (wrap (i + 1)), true)
  else Some (w, ln, true).

(** [outgoing_thread] on the characters [keys], each with the block its turn
    may allocate. *)
Fixpoint outgoing_thread (w : World) (ln : Line) (keys : list (Ascii.ascii * Z))
  : option (World * Line) :=
  match keys with
  | [] => Some (w, ln)
  | (key, a) :: keys' =>
      if smq_running w then
        match outgoing_turn w ln key a with
        | Some (w1, ln1, true) => outgoing_thread w1 ln1 keys'
        | Some (w1, ln1, false) => Some (w1, ln1)
        | None => None
        end
      else Some (w, ln)
  end.

(** ** Vocabulary of the further statements *)

(** The URL of the client's mailbox. *)
Definition queue_url (c : SMQ) : string :=
  c_server_url c +:+ "/queue/" +:+ c_name c.

(** Calls of [smq_retrieve], one for each element of [ss]: the messages
    returned, in order. *)
Fixpoint smq_retrieve_each (w : World) (ss : list (Z * list (list op * Z)))
  : option (World * list handed) :=
  match ss with
  | [] => Some (w, [])
  | s :: ss' =>
      '(w1, m) ← smq_retrieve w s.1 s.2;
      '(w2, ms) ← smq_retrieve_each w1 ss';
      Some (w2, m :: ms)
  end.

(** A broker that answers the GET of the mailbox of [c] with the message [m],
    in one piece, and nothing else. *)
Definition mailbox_reply (c : SMQ) (m : string) (x : exchange) : curl_result :=
  match x_verb x, x_url x, x_upload x with
  | GET, Some url, None =>
      if String.eqb url (queue_url c) && (x_timeout x =? c_timeout c)
      then CurlOK [m] else CurlError
  | _, _, _ => CurlError
  end.

(** Turns of the puller in which that broker answers with the messages
    [msgs], each stored at the address given with it. *)
Definition answers (c : SMQ) (msgs : list (Z * string)) : list (Z * network) :=
  map (λ am, (am.1, Session (mailbox_reply c am.2))) msgs.

(** Enter and Backspace, as the terminal sends them. *)
Definition key_enter : Ascii.ascii := Ascii.ascii_of_nat 10.
Definition key_backspace : Ascii.ascii := Ascii.ascii_of_nat 127.

(** The keys that type [text]; no turn of theirs allocates. *)
Fixpoint typed (text : string) : list (Ascii.ascii * Z) :=
  match text with
  | EmptyString => []
  | String key text' => (key, NULL) :: typed text'
  end.

(** [text] has printable ASCII characters only. *)
Fixpoint printable (text : string) : Prop :=
  match text with
  | EmptyString => True
  | String key text' => 32 ≤ code key < 127 ∧ printable text'
  end.

(** The characters of [text] that a line of [BUFSIZ] bytes takes. *)
Definition kept (text : string) : string :=
  String.substring 0 (Z.to_nat (BUFSIZ - 1)) text.

(** * Properties *)

Ltac split_conj := repeat match goal with |- _ ∧ _ => split end.

(** ** The wait loop *)

Lemma wait_produced_nonempty q s : q_size q ≠ 0 → wait_produced q s = true.
Proof.
  intros Hne. destruct s as [|k]; simpl;
    destruct (Z.eqb_spec (q_size q) 0); congruence.
Qed.

Lemma wait_produced_empty q s : q_size q = 0 → wait_produced q s = false.
Proof.
  intros Hz. induction s as [|k IH]; simpl; rewrite Hz; simpl; auto.
Qed.

(** ** Linked segments *)

Lemma lseg_frame h h' l : ∀ p e,
  (∀ a, a ∈ l → h' !! a = h !! a) → lseg h p l e → lseg h' p l e.
Proof.
  induction l as [|a l IH]; simpl; intros p e Hsame Hseg; [exact Hseg|].
  destruct Hseg as (-> & Hnz & r & Hr & Hrest).
  split; [reflexivity|]. split; [exact Hnz|].
  exists r. split.
  - rewrite Hsame; [exact Hr | left].
  - apply IH; [|exact Hrest]. intros b Hb. apply Hsame. by right.
Qed.

Lemma lseg_app h l1 l2 : ∀ p e,
  lseg h p (l1 ++ l2) e ↔ ∃ m, lseg h p l1 m ∧ lseg h m l2 e.
Proof.
  induction l1 as [|a l1 IH]; simpl; intros p e.
  - split.
    + intros H. exists p. by split.
    + intros (m & -> & H). exact H.
  - split.
    + intros (-> & Hnz & r & Hr & Hrest).
      apply IH in Hrest as (m & H1 & H2).
      exists m. split; [|exact H2]. repeat split; [exact Hnz|]. by exists r.
    + intros (m & (-> & Hnz & r & Hr & H1) & H2).
      repeat split; [exact Hnz|]. exists r. split; [exact Hr|].
      apply IH. by exists m.
Qed.

Lemma lseg_functional h l1 : ∀ l2 p,
  lseg h p l1 NULL → lseg h p l2 NULL → l1 = l2.
Proof.
  induction l1 as [|a l1 IH]; intros [|b l2] p; simpl.
  - reflexivity.
  - intros -> (E & Hnz & _). congruence.
  - intros (E & Hnz & _) ->. congruence.
  - intros (-> & _ & r & Hr & H1) (E & _ & r' & Hr' & H2). subst b.
    rewrite Hr in Hr'. injection Hr' as <-. f_equal. by eapply IH.
Qed.

Lemma lseg_reach h l : ∀ p fuel,
  lseg h p l NULL → (length l < fuel)%nat → reach fuel h p = l.
Proof.
  induction l as [|a l IH]; simpl; intros p fuel Hseg Hfuel.
  - subst p. destruct fuel as [|k]; [lia|]. reflexivity.
  - destruct Hseg as (-> & Hnz & r & Hr & Hrest).
    destruct fuel as [|k]; [lia|]. simpl. unfold load.
    destruct (Z.eqb_spec a NULL) as [|_]; [contradiction|].
    rewrite Hr. f_equal. apply IH; [exact Hrest | lia].
Qed.

(** ** Counting distinct addresses *)

Lemma nodup_bounded_length (bound : Z) (l : list Z) :
  0 < bound → NoDup l → (∀ a, a ∈ l → 0 < a < bound) →
  Z.of_nat (length l) < bound.
Proof.
  intros Hpos Hnd Hin.
  assert (Hsub : l ⊆+ seqZ 1 (bound - 1)).
  { apply NoDup_submseteq; [exact Hnd|]. intros a Ha.
    apply elem_of_seqZ. specialize (Hin a Ha). lia. }
  apply submseteq_length in Hsub. rewrite length_seqZ in Hsub. lia.
Qed.

Lemma size_mod_pos : 0 < SIZE_MOD.
Proof. reflexivity. Qed.

Lemma wrap_small n : 0 ≤ n < SIZE_MOD → wrap n = n.
Proof. intros H. unfold wrap. by apply Z.mod_small. Qed.

(** ** Memory *)

Lemma load_Some h p r : load h p = Some r ↔ p ≠ NULL ∧ h !! p = Some r.
Proof.
  unfold load. destruct (Z.eqb_spec p NULL) as [->|Hne].
  - split; [discriminate | intros [Hnz _]; contradiction].
  - split; [by intros H | by intros [_ H]].
Qed.

Lemma store_next_Some h p n r :
  load h p = Some r → store_next h p n = Some (<[p := set_next r n]> h).
Proof. intros H. unfold store_next. by rewrite H. Qed.

Lemma load_allocated h p r : heap_ok h → h !! p = Some r → load h p = Some r.
Proof.
  intros Hok Hp. apply load_Some. split; [|exact Hp].
  apply Hok in Hp. unfold NULL. lia.
Qed.

Lemma same_payloads_refl h : same_payloads h h.
Proof. by intros a. Qed.

Lemma same_payloads_trans h1 h2 h3 :
  same_payloads h1 h2 → same_payloads h2 h3 → same_payloads h1 h3.
Proof. intros H12 H23 a. by rewrite H23, H12. Qed.

Lemma same_payloads_set_next (h : heap) p r n :
  h !! p = Some r → same_payloads h (<[p := set_next r n]> h).
Proof.
  intros Hp a. destruct (decide (p = a)) as [<-|Hne].
  - by rewrite lookup_insert_eq, Hp.
  - by rewrite lookup_insert_ne.
Qed.

Lemma same_payloads_heap_ok h h' : same_payloads h h' → heap_ok h → heap_ok h'.
Proof.
  intros Hsame Hok a r Ha. specialize (Hsame a). rewrite Ha in Hsame.
  destruct (h !! a) as [r0|] eqn:E; [by eapply Hok | discriminate].
Qed.

Lemma queue_inv_allocated h q l a :
  queue_inv h q l → a ∈ l → is_Some (h !! a).
Proof.
  intros [Hseg _ _ _]. revert Hseg. generalize (q_head q).
  induction l as [|b l IH]; intros p Hseg Ha; [by apply elem_of_nil in Ha|].
  destruct Hseg as (-> & _ & r & Hr & Hrest).
  apply elem_of_cons in Ha as [->|Ha]; [by exists r | by eapply IH].
Qed.

Lemma queue_inv_bounded h q l :
  heap_ok h → queue_inv h q l → ∀ a, a ∈ l → 0 < a < SIZE_MOD.
Proof.
  intros Hok Hinv a Ha.
  destruct (queue_inv_allocated _ _ _ _ Hinv Ha) as [r Hr]. by eapply Hok.
Qed.

(** ** [queue_push] and [queue_pop] against the list *)

Lemma queue_push_running h q l r rr :
  heap_ok h → queue_inv h q l → q_running q = true →
  h !! r = Some rr → r ∉ l →
  ∃ h' q',
    queue_push h q r = Some (h', q') ∧
    queue_inv h' q' (l ++ [r]) ∧
    q_running q' = true ∧
    same_payloads h h' ∧
    h' !! r = Some (set_next rr NULL) ∧
    (∀ a, a ∉ l → a ≠ r → h' !! a = h !! a).
Proof.
  intros Hok Hinv Hrun Hrr Hnotin.
  pose proof (load_allocated _ _ _ Hok Hrr) as Hload.
  assert (Hrnz : r ≠ NULL) by (apply load_Some in Hload; tauto).
  assert (Hlen : Z.of_nat (length (l ++ [r])) < SIZE_MOD).
  { apply nodup_bounded_length; [apply size_mod_pos| |].
    - apply NoDup_app. split; [apply Hinv|]. split; [|apply NoDup_singleton].
      intros a Ha Hb. apply list_elem_of_singleton in Hb. by subst a.
    - intros a Ha. apply elem_of_app in Ha as [Ha|Ha].
      + by eapply queue_inv_bounded.
      + apply list_elem_of_singleton in Ha. subst a. by eapply Hok. }
  rewrite length_app in Hlen. simpl in Hlen.
  destruct Hinv as [Hseg Hnd Hsize Htail].
  unfold queue_push. rewrite Hrun. simpl.
  rewrite (store_next_Some _ _ _ _ Hload). simpl.
  set (h1 := <[r := set_next rr NULL]> h).
  destruct l as [|a0 l0] using rev_ind.
  - (* empty queue *)
    simpl in Hsize. rewrite Hsize. simpl.
    exists h1, (set_size (set_tail (set_head q r) r) (wrap (0 + 1))).
    split; [by rewrite Hsize|]. split; [|split; [exact Hrun|split; [|split]]].
    + split; simpl.
      * repeat split; [exact Hrnz|]. exists (set_next rr NULL).
        split; [apply lookup_insert_eq | reflexivity].
      * apply NoDup_singleton.
      * reflexivity.
      * reflexivity.
    + by apply same_payloads_set_next.
    + apply lookup_insert_eq.
    + intros a _ Hne. unfold h1. by rewrite lookup_insert_ne.
  - (* the queue ends with [a0] *)
    clear IHl0.
    rewrite length_app in Hsize, Hlen. simpl in Hsize, Hlen.
    rewrite last_snoc in Htail. simpl in Htail.
    apply lseg_app in Hseg as (m & Hseg0 & (-> & Hanz & ra & Hra & Hend)).
    simpl in Hend.
    apply NoDup_app in Hnd as (Hnd0 & Hdisj & _).
    assert (Ha0 : a0 ∉ l0).
    { intros Hin. apply (Hdisj a0 Hin). left. }
    assert (Hne : r ≠ a0).
    { intros ->. apply Hnotin. apply elem_of_app. right. left. }
    assert (Hr0 : r ∉ l0).
    { intros Hin. apply Hnotin. apply elem_of_app. by left. }
    destruct (Z.eqb_spec (q_size q) 0) as [Hz|_]; [lia|].
    rewrite Htail.
    assert (Hl1 : load h1 a0 = Some ra).
    { apply load_Some. split; [exact Hanz|]. unfold h1.
      by rewrite lookup_insert_ne. }
    rewrite (store_next_Some _ _ _ _ Hl1). simpl.
    set (h2 := <[a0 := set_next ra r]> h1).
    eexists h2, _. split; [reflexivity|].
    split; [|split; [exact Hrun|split; [|split]]].
    + split; simpl.
      * rewrite <- app_assoc. apply lseg_app. exists a0. split.
        -- eapply lseg_frame; [|exact Hseg0]. intros b Hb. unfold h2, h1.
           rewrite !lookup_insert_ne; [reflexivity|congruence|congruence].
        -- simpl. repeat split; [exact Hanz|]. eexists. split.
           { unfold h2. apply lookup_insert_eq. }
           simpl. repeat split; [exact Hrnz|]. eexists. split.
           { unfold h2, h1. rewrite lookup_insert_ne by congruence.
             apply lookup_insert_eq. }
           reflexivity.
      * apply NoDup_app. split; [|split; [|apply NoDup_singleton]].
        -- apply NoDup_app. split; [exact Hnd0|]. split; [exact Hdisj|].
           apply NoDup_singleton.
        -- intros b Hb Hb'. apply list_elem_of_singleton in Hb'. by subst b.
      * rewrite wrap_small by lia. rewrite !length_app. simpl. lia.
      * by rewrite last_snoc.
    + eapply same_payloads_trans; [by apply same_payloads_set_next|].
      apply same_payloads_set_next. exact (proj2 (proj1 (load_Some _ _ _) Hl1)).
    + unfold h2, h1. rewrite lookup_insert_ne by congruence.
      apply lookup_insert_eq.
    + intros b Hb Hbr. unfold h2, h1.
      rewrite !lookup_insert_ne; [reflexivity|congruence|].
      intros ->. apply Hb. apply elem_of_app. right. left.
Qed.

Lemma queue_pop_empty h q t s :
  queue_inv h q [] → queue_pop h q t s = Some (h, q, NULL).
Proof.
  intros [_ _ Hsize _]. unfold queue_pop.
  by rewrite wait_produced_empty.
Qed.

Lemma queue_pop_nonempty h q a l t s :
  heap_ok h → queue_inv h q (a :: l) →
  ∃ ra q',
    h !! a = Some ra ∧
    queue_pop h q t s = Some (<[a := set_next ra NULL]> h, q', a) ∧
    queue_inv (<[a := set_next ra NULL]> h) q' l ∧
    q_running q' = q_running q.
Proof.
  intros Hok [Hseg Hnd Hsize Htail].
  simpl in Hseg. destruct Hseg as (Hhead & Hanz & ra & Hra & Hrest).
  apply NoDup_cons in Hnd as [Hnotin Hnd].
  assert (Hlen : Z.of_nat (length (a :: l)) < SIZE_MOD).
  { apply nodup_bounded_length; [apply size_mod_pos| |].
    - by apply NoDup_cons.
    - eapply queue_inv_bounded; [exact Hok|].
      split; [|by apply NoDup_cons|exact Hsize|exact Htail].
      simpl. repeat split; [exact Hhead|exact Hanz|]. by exists ra. }
  simpl length in Hsize, Hlen.
  assert (Hload : load h a = Some ra) by (by apply load_Some).
  assert (Hframe : lseg (<[a := set_next ra NULL]> h) (r_next ra) l NULL).
  { eapply lseg_frame; [|exact Hrest]. intros b Hb.
    rewrite lookup_insert_ne; [reflexivity|]. by intros ->. }
  exists ra. unfold queue_pop, dequeue.
  rewrite wait_produced_nonempty by lia. simpl.
  rewrite Hhead. rewrite (store_next_Some _ _ _ _ Hload).
  destruct l as [|b l].
  - (* the last Request *)
    assert (Hone : q_size q = 1) by (simpl in Hsize; lia).
    rewrite Hone. simpl.
    eexists. split; [exact Hra|]. split; [reflexivity|].
    split; [|reflexivity]. split; simpl; try reflexivity.
    + apply NoDup_nil_2.
    + by rewrite Hone.
  - destruct (Z.eqb_spec (q_size q) 1) as [Hone|_];
      [simpl length in Hsize; lia|].
    rewrite Hload. simpl.
    eexists. split; [exact Hra|]. split; [reflexivity|].
    split; [|reflexivity]. split; simpl.
    + exact Hframe.
    + exact Hnd.
    + rewrite wrap_small by (simpl length in Hsize, Hlen; lia).
      simpl length in Hsize. lia.
    + rewrite Htail. reflexivity.
Qed.

(** ** Sequences of operations against the list *)

Lemma exec_op_refines h q l o :
  heap_ok h → queue_inv h q l → op_ok h (q_running q) l o →
  ∃ h' q',
    exec_op h q o = Some (h', q', (abs_op (q_running q) l o).2) ∧
    queue_inv h' q' (abs_op (q_running q) l o).1.2 ∧
    q_running q' = (abs_op (q_running q) l o).1.1 ∧
    same_payloads h h'.
Proof.
  intros Hok Hinv Hop. destruct o as [r|t s|]; simpl.
  - destruct (q_running q) eqn:Hrun.
    + destruct (Hop eq_refl) as [[rr Hrr] Hnotin].
      destruct (queue_push_running h q l r rr Hok Hinv Hrun Hrr Hnotin)
        as (h' & q' & Hpush & Hinv' & Hrun' & Hsame & _).
      exists h', q'. rewrite Hpush. simpl. auto.
    + exists h, q. unfold queue_push. rewrite Hrun. simpl.
      split; [reflexivity|]. split; [exact Hinv|]. split; [reflexivity|].
      apply same_payloads_refl.
  - destruct l as [|a l].
    + exists h, q. rewrite queue_pop_empty by exact Hinv. simpl.
      split; [reflexivity|]. split; [exact Hinv|]. split; [reflexivity|].
      apply same_payloads_refl.
    + destruct (queue_pop_nonempty h q a l t s Hok Hinv)
        as (ra & q' & Hra & Hpop & Hinv' & Hrun').
      eexists _, q'. rewrite Hpop. simpl.
      split; [reflexivity|]. split; [exact Hinv'|]. split; [exact Hrun'|].
      by apply same_payloads_set_next.
  - exists h, (queue_shutdown q). split; [reflexivity|].
    split; [|split; [reflexivity|apply same_payloads_refl]].
    destruct Hinv as [H1 H2 H3 H4]. by split.
Qed.

Lemma same_payloads_allocated h h' a :
  same_payloads h h' → is_Some (h !! a) → is_Some (h' !! a).
Proof.
  intros Hsame [r Hr]. specialize (Hsame a). rewrite Hr in Hsame.
  destruct (h' !! a); [by eexists | discriminate].
Qed.

Lemma ops_ok_same_payloads h h' ops : ∀ run l,
  same_payloads h h' → ops_ok h run l ops → ops_ok h' run l ops.
Proof.
  induction ops as [|o ops IH]; simpl; intros run l Hsame Hok; [exact I|].
  destruct Hok as [Hop Hrest]. split.
  - destruct o as [r| |]; simpl in *; try exact I.
    intros Hrun. destruct (Hop Hrun) as [Ha Hn]. split; [|exact Hn].
    by eapply same_payloads_allocated.
  - destruct (abs_op run l o) as [[run1 l1] out1]. by apply IH.
Qed.

Lemma run_ops_refines ops : ∀ h q l,
  heap_ok h → queue_inv h q l → ops_ok h (q_running q) l ops →
  ∃ h' q',
    run_ops h q ops = Some (h', q', (abs_run (q_running q) l ops).2) ∧
    queue_inv h' q' (abs_run (q_running q) l ops).1.2 ∧
    q_running q' = (abs_run (q_running q) l ops).1.1 ∧
    heap_ok h' ∧
    same_payloads h h'.
Proof.
  induction ops as [|o ops IH]; intros h q l Hok Hinv Hops.
  - exists h, q. simpl. split; [reflexivity|]. split; [exact Hinv|].
    split; [reflexivity|]. split; [exact Hok | apply same_payloads_refl].
  - simpl in Hops. destruct Hops as [Hop Hrest].
    destruct (exec_op_refines h q l o Hok Hinv Hop)
      as (h1 & q1 & Hexec & Hinv1 & Hrun1 & Hsame1).
    simpl. rewrite Hexec. simpl.
    destruct (abs_op (q_running q) l o) as [[run1 l1] out1] eqn:Habs.
    simpl in *. subst run1.
    pose proof (same_payloads_heap_ok _ _ Hsame1 Hok) as Hok1.
    destruct (IH h1 q1 l1 Hok1 Hinv1) as (h2 & q2 & Hrun & Hinv2 & Hrun2 & Hok2 & Hsame2).
    { by eapply ops_ok_same_payloads. }
    rewrite Hrun. simpl.
    destruct (abs_run (q_running q1) l1 ops) as [[run2 l2] out2]. simpl in *.
    exists h2, q2. split; [reflexivity|]. split; [exact Hinv2|].
    split; [exact Hrun2|]. split; [exact Hok2|].
    by eapply same_payloads_trans.
Qed.

(** ** The running flag *)

Lemma queue_push_keeps_running h q r h' q' :
  queue_push h q r = Some (h', q') → q_running q' = q_running q.
Proof.
  unfold queue_push. destruct (q_running q) eqn:Hrun; simpl.
  - destruct (store_next h r NULL) as [h1|]; simpl; [|discriminate].
    destruct (q_size q =? 0); simpl.
    + intros [= <- <-]. exact Hrun.
    + destruct (store_next h1 (q_tail q) r) as [h2|]; simpl; [|discriminate].
      intros [= <- <-]. exact Hrun.
  - intros [= <- <-]. exact Hrun.
Qed.

Lemma queue_pop_keeps_running h q t s h' q' r :
  queue_pop h q t s = Some (h', q', r) → q_running q' = q_running q.
Proof.
  unfold queue_pop, dequeue. destruct (wait_produced q s); simpl.
  - destruct (q_size q =? 1); simpl.
    + destruct (store_next h (q_head q) NULL); simpl; [|discriminate].
      by intros [= <- <- <-].
    + destruct (load h (q_head q)); simpl; [|discriminate].
      destruct (store_next h (q_head q) NULL); simpl; [|discriminate].
      by intros [= <- <- <-].
  - by intros [= <- <- <-].
Qed.

Lemma exec_op_stays_down h q o h' q' out :
  q_running q = false → exec_op h q o = Some (h', q', out) →
  q_running q' = false.
Proof.
  intros Hdown. destruct o as [r|t s|]; simpl.
  - destruct (queue_push h q r) as [[h1 q1]|] eqn:Hpush; simpl; [|discriminate].
    intros [= <- <- <-]. apply queue_push_keeps_running in Hpush. congruence.
  - destruct (queue_pop h q t s) as [[[h1 q1] r1]|] eqn:Hpop; simpl;
      [|discriminate].
    intros [= <- <- <-]. apply queue_pop_keeps_running in Hpop. congruence.
  - by intros [= <- <- <-].
Qed.

Lemma run_ops_cons_inv h q o ops h' q' out :
  run_ops h q (o :: ops) = Some (h', q', out) →
  ∃ h1 q1 out1 out2,
    exec_op h q o = Some (h1, q1, out1) ∧
    run_ops h1 q1 ops = Some (h', q', out2) ∧ out = out1 ++ out2.
Proof.
  simpl. destruct (exec_op h q o) as [[[h1 q1] out1]|]; simpl; [|discriminate].
  destruct (run_ops h1 q1 ops) as [[[h2 q2] out2]|] eqn:Hrest; simpl;
    [|discriminate].
  intros [= <- <- <-]. exists h1, q1, out1, out2. auto.
Qed.

Lemma run_ops_stays_down ops : ∀ h q h' q' out,
  q_running q = false → run_ops h q ops = Some (h', q', out) →
  q_running q' = false.
Proof.
  induction ops as [|o ops IH]; intros h q h' q' out Hdown Hrun.
  - simpl in Hrun. injection Hrun as <- <- <-. exact Hdown.
  - apply run_ops_cons_inv in Hrun
      as (h1 & q1 & out1 & out2 & Hexec & Hrest & _).
    eapply IH; [|exact Hrest]. by eapply exec_op_stays_down.
Qed.

Lemma run_ops_shutdown_down ops : ∀ h q h' q' out,
  Shutdown ∈ ops → run_ops h q ops = Some (h', q', out) →
  q_running q' = false.
Proof.
  induction ops as [|o ops IH]; intros h q h' q' out Hin Hrun.
  - by apply elem_of_nil in Hin.
  - apply run_ops_cons_inv in Hrun
      as (h1 & q1 & out1 & out2 & Hexec & Hrest & _).
    apply elem_of_cons in Hin as [<-|Hin].
    + simpl in Hexec. injection Hexec as <- <- <-.
      eapply run_ops_stays_down; [|exact Hrest]. reflexivity.
    + by eapply IH.
Qed.

(** ** A pop among other threads acts as an atomic pop *)

Lemma run_ops_app ops1 : ∀ h q ops2,
  run_ops h q (ops1 ++ ops2) =
  '(h1, q1, out1) ← run_ops h q ops1;
  '(h2, q2, out2) ← run_ops h1 q1 ops2;
  Some (h2, q2, out1 ++ out2).
Proof.
  induction ops1 as [|o ops1 IH]; intros h q ops2; simpl.
  - by destruct (run_ops h q ops2) as [[[h2 q2] out2]|].
  - destruct (exec_op h q o) as [[[h0 q0] out0]|]; simpl; [|reflexivity].
    rewrite IH.
    destruct (run_ops h0 q0 ops1) as [[[h1 q1] out1]|]; simpl; [|reflexivity].
    destruct (run_ops h1 q1 ops2) as [[[h2 q2] out2]|]; simpl; [|reflexivity].
    by rewrite app_assoc.
Qed.

Lemma dequeue_not_null h q h' q' r :
  dequeue h q = Some (h', q', r) → r ≠ NULL.
Proof.
  unfold dequeue. intros H Hr.
  destruct (if q_size q =? 1 then _ else _) as [q1|]; [|discriminate].
  simpl in H.
  destruct (store_next h (q_head q) NULL) as [h1|] eqn:Hs; [|discriminate].
  simpl in H. injection H as <- <- <-.
  unfold store_next in Hs.
  destruct (load h (q_head q)) as [r0|] eqn:Hl; [|discriminate].
  by apply load_Some in Hl as [? _].
Qed.

Lemma wait_among_alone ts : ∀ h q t stop,
  Forall (λ t', t' < stop) ts →
  wait_among h q stop (map (λ t', ([], t')) ts) =
  (λ hqr, (hqr, [])) <$> queue_pop h q t (length ts).
Proof.
  induction ts as [|t0 ts IH]; intros h q t stop Hts; unfold queue_pop; simpl;
    destruct (q_size q =? 0) eqn:Hz; simpl.
  - reflexivity.
  - by destruct (dequeue h q) as [[[h1 q1] r]|].
  - apply Forall_cons in Hts as [Ht0 Hts].
    unfold timedwait. destruct (Z.ltb_spec t0 stop) as [_|]; [|lia].
    rewrite (IH _ _ t) by done. unfold queue_pop.
    destruct (negb (wait_produced q (length ts))); simpl; [reflexivity|].
    by destruct (dequeue h q) as [[[h1 q1] r]|].
  - by destruct (dequeue h q) as [[[h1 q1] r]|].
Qed.

(** Without other threads, and with every wake-up before the deadline, the
    pop is the atomic pop. *)
Lemma queue_pop_among_alone ts h q timeout now :
  Forall (λ t', t' < compute_stoptime now timeout) ts →
  queue_pop_among h q timeout now (map (λ t', ([], t')) ts) =
  (λ hqr, (hqr, [])) <$> queue_pop h q timeout (length ts).
Proof. apply wait_among_alone. Qed.

Lemma pop_now h q timeout h1 q1 r1 :
  (q_size q =? 0) = false → dequeue h q = Some (h1, q1, r1) →
  run_ops h q [Pop timeout 0] = Some (h1, q1, [r1]).
Proof.
  intros Hz Hd. simpl. unfold queue_pop. simpl. by rewrite Hz, Hd.
Qed.

Lemma pop_gives_up h q timeout :
  (q_size q =? 0) = true →
  exec_op h q (Pop timeout 0) = Some (h, q, [NULL]).
Proof. intros Hz. simpl. unfold queue_pop. simpl. by rewrite Hz. Qed.

Lemma wait_among_linear waits : ∀ h q timeout stop h' q' r out,
  wait_among h q stop waits = Some (h', q', r, out) →
  ∃ pre post out1 out2,
    waits = pre ++ post ∧ out = out1 ++ out2 ∧
    Forall (λ w, w.2 < stop) pre ∧
    (r = NULL → ∀ others t, head post = Some (others, t) → stop ≤ t) ∧
    run_ops h q
      (concat (map fst pre) ++
       Pop timeout 0 ::
         (if r =? NULL then default [] (fst <$> head post) else [])) =
      Some (h', q', out1 ++ r :: out2).
Proof.
  induction waits as [|[others t] waits IH];
    intros h q timeout stop h' q' r out; simpl.
  - destruct (q_size q =? 0) eqn:Hz.
    + intros [= <- <- <- <-]. exists [], [], [], [].
      split; [reflexivity|]. split; [reflexivity|]. split; [constructor|].
      split; [intros _ o t0; discriminate|].
      cbn [map concat app head fmap option_fmap option_map default].
      change (NULL =? NULL) with true. cbn match.
      cbn [run_ops]. rewrite (pop_gives_up _ _ _ Hz). reflexivity.
    + destruct (dequeue h q) as [[[h1 q1] r1]|] eqn:Hd; simpl; [|discriminate].
      intros [= <- <- <- <-].
      pose proof (dequeue_not_null _ _ _ _ _ Hd) as Hr1.
      exists [], [], [], [].
      split; [reflexivity|]. split; [reflexivity|]. split; [constructor|].
      split; [done|].
      destruct (Z.eqb_spec r1 NULL) as [|_]; [done|].
      exact (pop_now _ _ _ _ _ _ Hz Hd).
  - destruct (q_size q =? 0) eqn:Hz.
    + destruct (run_ops h q others) as [[[h1 q1] out1]|] eqn:Hothers; simpl;
        [|discriminate].
      unfold timedwait. destruct (Z.ltb_spec t stop) as [Hlt|Hge].
      * destruct (wait_among h1 q1 stop waits) as [[[[h2 q2] r2] out2]|]
          eqn:Hrest; simpl; [|discriminate].
        intros [= <- <- <- <-].
        destruct (IH _ _ timeout _ _ _ _ _ Hrest)
          as (pre & post & o1 & o2 & -> & -> & Hpre & Hnull & Hrun).
        exists ((others, t) :: pre), post, (out1 ++ o1), o2.
        split; [reflexivity|]. split; [by rewrite app_assoc|].
        split; [by constructor|]. split; [exact Hnull|].
        cbn [map concat fst]. rewrite <- app_assoc, run_ops_app, Hothers.
        simpl. rewrite Hrun. simpl. by rewrite app_assoc.
      * intros [= <- <- <- <-].
        exists [], ((others, t) :: waits), [], out1.
        split; [reflexivity|]. split; [reflexivity|].
        split; [constructor|]. split.
        { intros _ o t0 [= <- <-]. exact Hge. }
        cbn [map concat app head fmap option_fmap option_map default fst].
        change (NULL =? NULL) with true. cbn match.
        cbn [run_ops]. rewrite (pop_gives_up _ _ _ Hz). simpl.
        by rewrite Hothers.
    + destruct (dequeue h q) as [[[h1 q1] r1]|] eqn:Hd; simpl; [|discriminate].
      intros [= <- <- <- <-].
      pose proof (dequeue_not_null _ _ _ _ _ Hd) as Hr1.
      exists [], ((others, t) :: waits), [], [].
      split; [reflexivity|]. split; [reflexivity|]. split; [constructor|].
      split; [done|].
      destruct (Z.eqb_spec r1 NULL) as [|_]; [done|].
      exact (pop_now _ _ _ _ _ _ Hz Hd).
Qed.

Lemma wait_among_idle ts : ∀ h q stop rest,
  (q_size q =? 0) = true → Forall (λ t, t < stop) ts →
  wait_among h q stop (idle ts ++ rest) = wait_among h q stop rest.
Proof.
  induction ts as [|t0 ts IH]; intros h q stop rest Hz Hts; [reflexivity|].
  apply Forall_cons in Hts as [Ht0 Hts].
  cbn [idle map app wait_among]. rewrite Hz. cbn [run_ops mbind option_bind].
  unfold timedwait. destruct (Z.ltb_spec t0 stop) as [_|]; [|lia].
  fold (idle ts). rewrite IH by done.
  by destruct (wait_among h q stop rest) as [[[[h2 q2] r] out2]|].
Qed.

Lemma wait_among_idle_only ts : ∀ h q stop,
  (q_size q =? 0) = true →
  wait_among h q stop (idle ts) = Some (h, q, NULL, []).
Proof.
  induction ts as [|t0 ts IH]; intros h q stop Hz;
    cbn [idle map wait_among]; rewrite Hz; [reflexivity|].
  cbn [run_ops mbind option_bind].
  destruct (timedwait stop t0); [|reflexivity].
  fold (idle ts). by rewrite IH.
Qed.

Lemma wait_among_nonempty h q stop waits timeout :
  (q_size q =? 0) = false →
  wait_among h q stop waits = (λ hqr, (hqr, [])) <$> queue_pop h q timeout 0.
Proof.
  intros Hz. unfold queue_pop. destruct waits as [|[others t] waits]; simpl;
    rewrite Hz; simpl; by destruct (dequeue h q) as [[[h1 q1] r]|].
Qed.

(** X2.  A pop that waits among other threads is one atomic pop placed among
    their calls, between its call and its return.  The waits [pre] ended with
    a wake-up before the deadline; the pop then found a Request, or it found
    the queue empty and gave up, either because nothing more happened or
    because the next wait reached the deadline.  The result is that of the
    calls made during [pre], then the atomic pop, then, when the pop gave up,
    the calls made during the wait that timed out. *)
Lemma queue_pop_among_linear waits h q timeout now h' q' r out :
  queue_pop_among h q timeout now waits = Some (h', q', r, out) →
  ∃ pre post out1 out2,
    waits = pre ++ post ∧ out = out1 ++ out2 ∧
    Forall (λ w, w.2 < compute_stoptime now timeout) pre ∧
    (r = NULL →
     ∀ others t, head post = Some (others, t) →
                 compute_stoptime now timeout ≤ t) ∧
    run_ops h q
      (concat (map fst pre) ++
       Pop timeout 0 ::
         (if r =? NULL then default [] (fst <$> head post) else [])) =
      Some (h', q', out1 ++ r :: out2).
Proof. apply wait_among_linear. Qed.

(** A consumer that waits on the empty queue is woken after the producer
    pushed the Requests 2 and 1, and receives 2. *)
Example pop_woken_by_push :
  ∃ h' q',
    queue_pop_among ex_heap queue_create 2000 100 [([Push 2; Push 1], 150)] =
      Some (h', q', 2, []) ∧
    q_size q' = 1 ∧ q_head q' = 1.
Proof. eexists _, _. split; [reflexivity|]. by split. Qed.

(** The wait that ends with [ETIMEDOUT] makes [queue_pop] return [NULL] even
    though a Request arrived in the meantime. *)
Example pop_times_out_beside_push :
  ∃ h' q',
    queue_pop_among ex_heap queue_create 2000 100 [([Push 2], 2100)] =
      Some (h', q', NULL, []) ∧
    q_size q' = 1 ∧ q_head q' = 2.
Proof. eexists _, _. split; [reflexivity|]. by split. Qed.

(** ** The list model *)

Lemma abs_run_app ops1 : ∀ run l ops2,
  abs_run run l (ops1 ++ ops2) =
  let '(run1, l1, out1) := abs_run run l ops1 in
  let '(run2, l2, out2) := abs_run run1 l1 ops2 in
  (run2, l2, out1 ++ out2).
Proof.
  induction ops1 as [|o ops1 IH]; intros run l ops2; simpl.
  - by destruct (abs_run run l ops2) as [[run2 l2] out2].
  - destruct (abs_op run l o) as [[run0 l0] out0]. rewrite IH.
    destruct (abs_run run0 l0 ops1) as [[run1 l1] out1].
    destruct (abs_run run1 l1 ops2) as [[run2 l2] out2].
    by rewrite app_assoc.
Qed.

Lemma abs_run_pushes R : ∀ l,
  abs_run true l (map Push R) = (true, l ++ R, []).
Proof.
  induction R as [|r R IH]; intros l; simpl.
  - by rewrite app_nil_r.
  - rewrite IH. by rewrite <- app_assoc.
Qed.

Lemma abs_run_pops C : ∀ run args,
  length args = length C → abs_run run C (pops args) = (run, [], C).
Proof.
  induction C as [|a C IH]; intros run [|ts args] Hlen; simpl in *;
    try discriminate; [reflexivity|].
  rewrite IH by lia. reflexivity.
Qed.

Lemma ops_ok_app h ops1 : ∀ run l ops2,
  ops_ok h run l ops1 →
  ops_ok h (abs_run run l ops1).1.1 (abs_run run l ops1).1.2 ops2 →
  ops_ok h run l (ops1 ++ ops2).
Proof.
  induction ops1 as [|o ops1 IH]; intros run l ops2; simpl.
  - intros _ H. exact H.
  - intros [Hop Hrest]. destruct (abs_op run l o) as [[run0 l0] out0].
    intros H2. split; [exact Hop|]. apply IH; [exact Hrest|].
    by destruct (abs_run run0 l0 ops1) as [[run1 l1] out1].
Qed.

Lemma ops_ok_pops h args : ∀ run l, ops_ok h run l (pops args).
Proof.
  induction args as [|ts args IH]; intros run l; simpl; [exact I|].
  split; [exact I|]. destruct l; apply IH.
Qed.

Lemma ops_ok_pushes h R : ∀ l,
  NoDup R → (∀ r, r ∈ R → is_Some (h !! r) ∧ r ∉ l) →
  ops_ok h true l (map Push R).
Proof.
  induction R as [|r R IH]; intros l Hnd Hall; simpl; [exact I|].
  apply NoDup_cons in Hnd as [Hr Hnd].
  split.
  - intros _. apply Hall. left.
  - apply IH; [exact Hnd|]. intros b Hb.
    destruct (Hall b) as [Halloc Hnotin]; [by right|].
    split; [exact Halloc|]. intros Hin.
    apply elem_of_app in Hin as [Hin|Hin]; [contradiction|].
    apply list_elem_of_singleton in Hin. by subst b.
Qed.

Lemma returned_cons_request a out :
  a ≠ NULL → returned (a :: out) = a :: returned out.
Proof. intros Ha. unfold returned. by rewrite filter_cons_True. Qed.

Lemma returned_cons_null out : returned (NULL :: out) = returned out.
Proof. unfold returned. rewrite filter_cons_False; [reflexivity|]. by intros H. Qed.

(** Nothing is lost and nothing overtakes: what the pops returned, followed by
    what is still queued, is what was queued followed by the accepted
    pushes. *)
Lemma abs_run_fifo h ops : ∀ run l,
  heap_ok h → NULL ∉ l → ops_ok h run l ops →
  returned (abs_run run l ops).2 ++ (abs_run run l ops).1.2 =
  l ++ accepted run ops.
Proof.
  induction ops as [|o ops IH]; intros run l Hok Hnull Hops; simpl.
  - by rewrite app_nil_r.
  - destruct Hops as [Hop Hrest]. destruct o as [r|t s|]; simpl in *.
    + destruct run.
      * destruct (Hop eq_refl) as [[rr Hrr] _].
        specialize (IH true (l ++ [r]) Hok).
        destruct (abs_run true (l ++ [r]) ops) as [[run2 l2] out2]. simpl in *.
        rewrite IH; [by rewrite <- app_assoc| |exact Hrest].
        intros Hin. apply elem_of_app in Hin as [Hin|Hin]; [contradiction|].
        apply list_elem_of_singleton in Hin. apply Hok in Hrr.
        unfold NULL in Hin. lia.
      * specialize (IH false l Hok Hnull Hrest).
        by destruct (abs_run false l ops) as [[run2 l2] out2].
    + destruct l as [|a l].
      * specialize (IH run [] Hok Hnull Hrest).
        destruct (abs_run run [] ops) as [[run2 l2] out2]. simpl in *.
        by rewrite returned_cons_null.
      * assert (Ha : a ≠ NULL) by (intros ->; apply Hnull; left).
        assert (Hl : NULL ∉ l) by (intros Hin; apply Hnull; by right).
        specialize (IH run l Hok Hl Hrest).
        destruct (abs_run run l ops) as [[run2 l2] out2]. simpl in *.
        rewrite returned_cons_request by exact Ha. simpl. by rewrite IH.
    + specialize (IH false l Hok Hnull Hrest).
      by destruct (abs_run false l ops) as [[run2 l2] out2].
Qed.

Lemma queue_inv_create h : queue_inv h queue_create [].
Proof. split; simpl; try reflexivity. apply NoDup_nil_2. Qed.

Lemma queue_inv_shutdown h q l :
  queue_inv h q l → queue_inv h (queue_shutdown q) l.
Proof. intros [H1 H2 H3 H4]. by split. Qed.

Lemma queue_inv_emptiness h q l :
  heap_ok h → queue_inv h q l →
  (q_size q = 0 ↔ q_head q = NULL ∧ q_tail q = NULL) ∧
  (0 < q_size q → q_head q ≠ NULL ∧ q_tail q ≠ NULL).
Proof.
  intros Hok Hinv.
  pose proof (queue_inv_bounded h q l Hok Hinv) as Hbound.
  destruct Hinv as [Hseg Hnd Hsize Htail].
  destruct l as [|a l].
  - simpl in *. rewrite Hsize, Hseg, Htail. split; [tauto|lia].
  - assert (Hhead : q_head q ≠ NULL).
    { simpl in Hseg. destruct Hseg as (-> & Hnz & _). exact Hnz. }
    assert (Hlast : q_tail q ≠ NULL).
    { rewrite Htail. destruct (last (a :: l)) as [b|] eqn:Hl.
      - simpl. apply last_Some_elem_of in Hl. apply Hbound in Hl.
        unfold NULL. lia.
      - by apply last_None in Hl. }
    simpl length in Hsize. split; [|tauto].
    split; [lia | tauto].
Qed.

Lemma heap_ok_empty : heap_ok ∅.
Proof. intros a r H. by rewrite lookup_empty in H. Qed.

Lemma heap_ok_insert (h : heap) a r :
  heap_ok h → 0 < a < SIZE_MOD → heap_ok (<[a := r]> h).
Proof.
  intros Hok Ha b rb Hb. destruct (decide (a = b)) as [<-|Hne]; [exact Ha|].
  rewrite lookup_insert_ne in Hb by exact Hne. by eapply Hok.
Qed.

Lemma heap_ok_delete (h : heap) a : heap_ok h → heap_ok (delete a h).
Proof.
  intros Hok b rb Hb. destruct (decide (a = b)) as [<-|Hne].
  - by rewrite lookup_delete_eq in Hb.
  - rewrite lookup_delete_ne in Hb by exact Hne. by eapply Hok.
Qed.

Lemma ex_heap_ok : heap_ok ex_heap.
Proof.
  unfold ex_heap. repeat apply heap_ok_insert; try apply heap_ok_empty;
    unfold SIZE_MOD; lia.
Qed.

Lemma ex_queue_one_inv : queue_inv ex_heap ex_queue_one [1].
Proof.
  split; simpl; try reflexivity; [|apply NoDup_singleton].
  repeat split; [discriminate|]. by exists (ex_request "hi").
Qed.

(** * The queue *)

(** C2. Once [queue_shutdown] has been called on a queue, a [queue_push],
    at once or after any further operations, changes nothing: the memory (so
    the link of the pushed Request too) and the whole queue structure, size,
    head and tail included, are returned as they were; the Request stays with
    the caller. *)
Theorem push_after_shutdown_is_noop h q r :
  queue_push h (queue_shutdown q) r = Some (h, queue_shutdown q) ∧
  ∀ ops h' q' out,
    run_ops h (queue_shutdown q) ops = Some (h', q', out) →
    queue_push h' q' r = Some (h', q').
Proof.
  split; [reflexivity|]. intros ops h' q' out Hrun. unfold queue_push.
  by rewrite (run_ops_stays_down ops h (queue_shutdown q) h' q' out eq_refl Hrun).
Qed.

Lemma push_after_shutdown_is_noop_witness :
  queue_push ex_heap (queue_shutdown ex_queue_one) 2 =
    Some (ex_heap, queue_shutdown ex_queue_one) ∧
  ∃ h' q' out,
    run_ops ex_heap (queue_shutdown ex_queue_one) [Pop 2000 3; Push 2] =
      Some (h', q', out) ∧
    queue_push h' q' 2 = Some (h', q').
Proof.
  split.
  - exact (proj1 (push_after_shutdown_is_noop ex_heap ex_queue_one 2)).
  - eexists _, _, _. split; [reflexivity|].
    exact (proj2 (push_after_shutdown_is_noop ex_heap ex_queue_one 2)
             [Pop 2000 3; Push 2] _ _ _ eq_refl).
Defined.

(** C3. A queue shut down while it holds the Requests [C]: the next [|C|]
    pops return those Requests in order, whatever their timeouts and
    wake-ups, and the pop after them returns [NULL]. *)
Theorem pop_drains_after_shutdown h q C args t s :
  heap_ok h → queue_inv h q C → length args = length C →
  ∃ h' q',
    run_ops h (queue_shutdown q) (pops args ++ [Pop t s]) =
      Some (h', q', C ++ [NULL]) ∧
    Forall (λ a, a ≠ NULL) C ∧
    queue_inv h' q' [] ∧ q_running q' = false.
Proof.
  intros Hok Hinv Hlen.
  pose proof (queue_inv_shutdown h q C Hinv) as Hinv'.
  destruct (run_ops_refines (pops args ++ [Pop t s]) h (queue_shutdown q) C
              Hok Hinv') as (h' & q' & Hrun & Hinv2 & Hrun2 & _ & _).
  { apply ops_ok_app; [apply ops_ok_pops|]. simpl. by destruct (_.1.2). }
  simpl q_running in *. rewrite abs_run_app in *.
  rewrite (abs_run_pops C false args Hlen) in *. simpl in *.
  exists h', q'. split; [exact Hrun|]. split; [|by split].
  apply Forall_forall. intros a Ha.
  pose proof (queue_inv_bounded h q C Hok Hinv a Ha). unfold NULL. lia.
Qed.

Lemma pop_drains_after_shutdown_witness :
  ∃ h' q',
    run_ops ex_heap (queue_shutdown ex_queue_one) [Pop 2000 0; Pop 2000 1] =
      Some (h', q', [1; NULL]) ∧
    Forall (λ a, a ≠ NULL) [1] ∧
    queue_inv h' q' [] ∧ q_running q' = false.
Proof.
  exact (pop_drains_after_shutdown ex_heap ex_queue_one [1] [(2000, 0%nat)]
           2000 1 ex_heap_ok ex_queue_one_inv eq_refl).
Defined.

(** C4. First in, first out: one producer pushes the distinct Requests [R]
    in order onto an empty running queue, one consumer then pops [|R|] times;
    the pops return exactly [R], in order, each Request with the contents it
    was pushed with, and the queue is empty again. *)
Theorem queue_fifo h q R args :
  heap_ok h → queue_inv h q [] → q_running q = true →
  NoDup R → (∀ r, r ∈ R → is_Some (h !! r)) → length args = length R →
  ∃ h' q',
    run_ops h q (map Push R ++ pops args) = Some (h', q', R) ∧
    queue_inv h' q' [] ∧ same_payloads h h'.
Proof.
  intros Hok Hinv Hrun Hnd Halloc Hlen.
  assert (Hpush : ops_ok h true [] (map Push R)).
  { apply ops_ok_pushes; [exact Hnd|]. intros r Hr.
    split; [by apply Halloc | apply not_elem_of_nil]. }
  destruct (run_ops_refines (map Push R ++ pops args) h q [] Hok Hinv)
    as (h' & q' & Hexec & Hinv' & _ & _ & Hsame).
  { rewrite Hrun. apply ops_ok_app; [exact Hpush | apply ops_ok_pops]. }
  rewrite Hrun in *. rewrite abs_run_app, abs_run_pushes in *. simpl in *.
  rewrite (abs_run_pops R true args Hlen) in *. simpl in *.
  by exists h', q'.
Qed.

Lemma queue_fifo_witness :
  ∃ h' q',
    run_ops ex_heap queue_create
      (map Push [2; 1] ++ pops [(2000, 0%nat); (50, 4%nat)]) =
      Some (h', q', [2; 1]) ∧
    queue_inv h' q' [] ∧ same_payloads ex_heap h'.
Proof.
  apply (queue_fifo ex_heap queue_create [2; 1] [(2000, 0%nat); (50, 4%nat)]
           ex_heap_ok (queue_inv_create ex_heap) eq_refl).
  - apply NoDup_cons. split; [|apply NoDup_singleton].
    intros H. apply list_elem_of_singleton in H. discriminate.
  - intros r Hr. apply elem_of_cons in Hr as [->|Hr]; [by eexists|].
    apply list_elem_of_singleton in Hr as ->. by eexists.
  - reflexivity.
Defined.

(** X1.  The order is kept under any interleaving of the calls: what the pops
    returned so far, followed by what is still queued, is the list of the
    accepted pushes. *)
Lemma queue_fifo_interleaved h ops :
  heap_ok h → ops_ok h true [] ops →
  ∃ h' q' out rest,
    run_ops h queue_create ops = Some (h', q', out) ∧
    queue_inv h' q' rest ∧
    returned out ++ rest = accepted true ops.
Proof.
  intros Hok Hops.
  destruct (run_ops_refines ops h queue_create [] Hok (queue_inv_create h) Hops)
    as (h' & q' & Hexec & Hinv' & _ & _ & _).
  pose proof (abs_run_fifo h ops true [] Hok (not_elem_of_nil _) Hops) as Hfifo.
  simpl q_running in *.
  destruct (abs_run true [] ops) as [[run' l'] out]. simpl in *.
  by exists h', q', out, l'.
Qed.

(** C5. Size coherence: after any sequence of pushes, pops and shutdowns on a
    freshly created queue, the size field is the number of accepted pushes
    (those made while the queue was running) minus the number of pops that
    returned a Request, and it is the number of Requests met by following the
    next-links from the head, which end at [NULL]. *)
Theorem size_coherence h ops :
  heap_ok h → ops_ok h true [] ops →
  ∃ h' q' out,
    run_ops h queue_create ops = Some (h', q', out) ∧
    q_size q' =
      Z.of_nat (length (accepted true ops)) - Z.of_nat (length (returned out)) ∧
    ∀ fuel, q_size q' < Z.of_nat fuel →
      Z.of_nat (length (reach fuel h' (q_head q'))) = q_size q'.
Proof.
  intros Hok Hops.
  destruct (run_ops_refines ops h queue_create [] Hok (queue_inv_create h) Hops)
    as (h' & q' & Hexec & Hinv' & _ & _ & _).
  pose proof (abs_run_fifo h ops true [] Hok (not_elem_of_nil _) Hops) as Hfifo.
  simpl q_running in *.
  destruct (abs_run true [] ops) as [[run' l'] out]. simpl in *.
  exists h', q', out. split; [exact Hexec|].
  destruct Hinv' as [Hseg _ Hsize _].
  apply (f_equal length) in Hfifo. rewrite length_app in Hfifo.
  split; [lia|]. intros fuel Hfuel.
  rewrite (lseg_reach h' l' (q_head q') fuel Hseg); lia.
Qed.

Lemma size_coherence_witness :
  ∃ h' q' out,
    run_ops ex_heap queue_create
      [Push 1; Pop 0 0; Pop 10 2; Push 2; Push 1; Shutdown; Pop 5 1] =
      Some (h', q', out) ∧
    q_size q' =
      Z.of_nat (length (accepted true
        [Push 1; Pop 0 0; Pop 10 2; Push 2; Push 1; Shutdown; Pop 5 1]))
      - Z.of_nat (length (returned out)) ∧
    ∀ fuel, q_size q' < Z.of_nat fuel →
      Z.of_nat (length (reach fuel h' (q_head q'))) = q_size q'.
Proof.
  apply (size_coherence ex_heap _ ex_heap_ok). simpl.
  repeat split; try (by eexists); try apply not_elem_of_nil.
  intros Hin. apply list_elem_of_singleton in Hin. discriminate.
Defined.

(** Popping the only Request of a queue resets head and tail. *)
Lemma pop_last_resets_head_and_tail h q a t s :
  heap_ok h → queue_inv h q [a] →
  ∃ h' q',
    queue_pop h q t s = Some (h', q', a) ∧
    q_size q' = 0 ∧ q_head q' = NULL ∧ q_tail q' = NULL.
Proof.
  intros Hok Hinv.
  destruct (queue_pop_nonempty h q a [] t s Hok Hinv)
    as (ra & q' & _ & Hpop & [Hseg _ Hsize Htail] & _).
  eexists _, q'. split; [exact Hpop|]. by split_conj.
Qed.

(** C9. Emptiness: in every state that pushes, pops and shutdowns reach from a
    freshly created queue, the size is 0 exactly when head and tail are both
    [NULL], and with a size above 0 neither head nor tail is [NULL]. *)
Theorem emptiness_invariant h ops :
  heap_ok h → ops_ok h true [] ops →
  ∃ h' q' out,
    run_ops h queue_create ops = Some (h', q', out) ∧
    (q_size q' = 0 ↔ q_head q' = NULL ∧ q_tail q' = NULL) ∧
    (0 < q_size q' → q_head q' ≠ NULL ∧ q_tail q' ≠ NULL).
Proof.
  intros Hok Hops.
  destruct (run_ops_refines ops h queue_create [] Hok (queue_inv_create h) Hops)
    as (h' & q' & Hexec & Hinv' & _ & Hok' & _).
  eexists h', q', _. split; [exact Hexec|].
  by eapply queue_inv_emptiness.
Qed.

Lemma emptiness_invariant_witness :
  ∃ h' q' out,
    run_ops ex_heap queue_create [Push 1; Push 2; Pop 0 0; Pop 0 0] =
      Some (h', q', out) ∧
    (q_size q' = 0 ↔ q_head q' = NULL ∧ q_tail q' = NULL) ∧
    (0 < q_size q' → q_head q' ≠ NULL ∧ q_tail q' ≠ NULL).
Proof.
  apply (emptiness_invariant ex_heap _ ex_heap_ok). simpl.
  repeat split; try (by eexists); try apply not_elem_of_nil.
  intros Hin. apply list_elem_of_singleton in Hin. discriminate.
Defined.

(** * The client *)

(** ** Two queues in one memory *)

Lemma queue_inv_frame h h' q l :
  (∀ a, a ∈ l → h' !! a = h !! a) → queue_inv h q l → queue_inv h' q l.
Proof.
  intros Hsame [Hseg Hnd Hsize Htail]. split; try done.
  by eapply lseg_frame.
Qed.

Lemma same_payloads_dom h h' : same_payloads h h' → dom h' = dom h.
Proof.
  intros Hsame. apply set_eq. intros a. rewrite !elem_of_dom.
  specialize (Hsame a). split; intros [r Hr]; rewrite Hr in Hsame.
  - destruct (h !! a); [by eexists | discriminate].
  - destruct (h' !! a); [by eexists | discriminate].
Qed.

Lemma queue_push_frame h q l r rr :
  heap_ok h → queue_inv h q l → h !! r = Some rr → r ∉ l →
  ∃ h' q',
    queue_push h q r = Some (h', q') ∧
    queue_inv h' q' (if q_running q then l ++ [r] else l) ∧
    q_running q' = q_running q ∧
    heap_ok h' ∧ dom h' = dom h ∧
    h' !! r = Some (if q_running q then set_next rr NULL else rr) ∧
    (∀ b, b ∉ l → b ≠ r → h' !! b = h !! b).
Proof.
  intros Hok Hinv Hrr Hnotin. destruct (q_running q) eqn:Hrun.
  - destruct (queue_push_running h q l r rr Hok Hinv Hrun Hrr Hnotin)
      as (h' & q' & Hpush & Hinv' & Hrun' & Hsame & Hcell & Hframe).
    exists h', q'. split; [exact Hpush|]. split; [exact Hinv'|].
    split; [exact Hrun'|]. split; [by eapply same_payloads_heap_ok|].
    split; [by apply same_payloads_dom|]. by split.
  - exists h, q. unfold queue_push. rewrite Hrun. simpl.
    split; [reflexivity|]. split; [exact Hinv|]. split; [reflexivity|].
    split; [exact Hok|]. split; [reflexivity|]. by split.
Qed.

Lemma set_next_null req : r_next req = NULL → set_next req NULL = req.
Proof. destruct req as [m u b n]. simpl. by intros ->. Qed.

Lemma fresh_not_queued h q l a :
  queue_inv h q l → h !! a = None → a ∉ l.
Proof.
  intros Hinv Hnone Hin.
  destruct (queue_inv_allocated h q l a Hinv Hin) as [r Hr]. congruence.
Qed.

(** A new Request is created at [a] and pushed on the outgoing queue. *)
Lemma enqueue_outgoing w lo li a req :
  world_inv w lo li → fresh (w_heap w) a → r_next req = NULL →
  ∃ h2 q,
    queue_push (<[a := req]> (w_heap w)) (c_outgoing (w_smq w)) a
      = Some (h2, q) ∧
    world_inv (mkWorld h2 (set_outgoing (w_smq w) q) (w_joins w))
      (if smq_running w then lo ++ [a] else lo) li ∧
    dom h2 = {[a]} ∪ dom (w_heap w) ∧
    h2 !! a = Some req ∧
    (∀ b, b ∉ lo → b ≠ a → h2 !! b = w_heap w !! b).
Proof.
  intros [Hok Hout Hin Hsep Hro Hri] [Hnone Hrange] Hnext.
  pose proof (fresh_not_queued _ _ _ _ Hout Hnone) as Ha_lo.
  pose proof (fresh_not_queued _ _ _ _ Hin Hnone) as Ha_li.
  set (h1 := <[a := req]> (w_heap w)).
  assert (Hok1 : heap_ok h1) by (by apply heap_ok_insert).
  assert (Hout1 : queue_inv h1 (c_outgoing (w_smq w)) lo).
  { eapply queue_inv_frame; [|exact Hout]. intros b Hb. unfold h1.
    rewrite lookup_insert_ne; [reflexivity|]. by intros ->. }
  destruct (queue_push_frame h1 (c_outgoing (w_smq w)) lo a req Hok1 Hout1)
    as (h2 & q & Hpush & Hinv2 & Hrun2 & Hok2 & Hdom2 & Hcell & Hframe);
    [apply lookup_insert_eq | exact Ha_lo |].
  exists h2, q. split; [exact Hpush|].
  unfold smq_running. rewrite <- Hro.
  split; [|split; [|split]].
  - split; simpl; try done.
    + eapply queue_inv_frame; [|exact Hin]. intros b Hb.
      rewrite Hframe; [| |by intros ->].
      * unfold h1. rewrite lookup_insert_ne; [reflexivity|]. by intros ->.
      * intros Hb'. by apply (Hsep b).
    + intros b Hb. destruct (q_running (c_outgoing (w_smq w))); [|by apply Hsep].
      apply elem_of_app in Hb as [Hb|Hb]; [by apply Hsep|].
      apply list_elem_of_singleton in Hb. by subst b.
    + congruence.
  - rewrite Hdom2. unfold h1. apply dom_insert_L.
  - rewrite Hcell. destruct (q_running (c_outgoing (w_smq w))); [|reflexivity].
    by rewrite set_next_null.
  - intros b Hb Hne. rewrite Hframe by done. unfold h1.
    by rewrite lookup_insert_ne.
Qed.

(** A new Request is created at [a] and pushed on the incoming queue. *)
Lemma enqueue_incoming w lo li a req :
  world_inv w lo li → fresh (w_heap w) a → r_next req = NULL →
  ∃ h2 q,
    queue_push (<[a := req]> (w_heap w)) (c_incoming (w_smq w)) a
      = Some (h2, q) ∧
    world_inv (mkWorld h2 (set_incoming (w_smq w) q) (w_joins w))
      lo (if smq_running w then li ++ [a] else li) ∧
    dom h2 = {[a]} ∪ dom (w_heap w) ∧
    h2 !! a = Some req ∧
    (∀ b, b ∉ li → b ≠ a → h2 !! b = w_heap w !! b).
Proof.
  intros [Hok Hout Hin Hsep Hro Hri] [Hnone Hrange] Hnext.
  pose proof (fresh_not_queued _ _ _ _ Hout Hnone) as Ha_lo.
  pose proof (fresh_not_queued _ _ _ _ Hin Hnone) as Ha_li.
  set (h1 := <[a := req]> (w_heap w)).
  assert (Hok1 : heap_ok h1) by (by apply heap_ok_insert).
  assert (Hin1 : queue_inv h1 (c_incoming (w_smq w)) li).
  { eapply queue_inv_frame; [|exact Hin]. intros b Hb. unfold h1.
    rewrite lookup_insert_ne; [reflexivity|]. by intros ->. }
  destruct (queue_push_frame h1 (c_incoming (w_smq w)) li a req Hok1 Hin1)
    as (h2 & q & Hpush & Hinv2 & Hrun2 & Hok2 & Hdom2 & Hcell & Hframe);
    [apply lookup_insert_eq | exact Ha_li |].
  exists h2, q. split; [exact Hpush|].
  unfold smq_running. rewrite <- Hri.
  split; [|split; [|split]].
  - split; simpl; try done.
    + eapply queue_inv_frame; [|exact Hout]. intros b Hb.
      rewrite Hframe; [| |by intros ->].
      * unfold h1. rewrite lookup_insert_ne; [reflexivity|]. by intros ->.
      * by apply Hsep.
    + intros b Hb. destruct (q_running (c_incoming (w_smq w))); [|by apply Hsep].
      intros Hb'. apply elem_of_app in Hb' as [Hb'|Hb']; [by apply (Hsep b)|].
      apply list_elem_of_singleton in Hb'. by subst b.
    + congruence.
  - rewrite Hdom2. unfold h1. apply dom_insert_L.
  - rewrite Hcell. destruct (q_running (c_incoming (w_smq w))); [|reflexivity].
    by rewrite set_next_null.
  - intros b Hb Hne. rewrite Hframe by done. unfold h1.
    by rewrite lookup_insert_ne.
Qed.

(** ** The functions of the client, one call at a time *)

Lemma sprintf_url_fits text : fits text → sprintf_url text = Some text.
Proof.
  unfold fits, sprintf_url. intros H.
  destruct (Z.ltb_spec (Z.of_nat (String.length text)) BUFSIZ); [reflexivity|lia].
Qed.

Lemma request_create_fresh (h : heap) a method url body :
  0 < a → request_create h a method url body =
          (<[a := mkRequest method url body NULL]> h, a).
Proof.
  intros Ha. unfold request_create.
  destruct (Z.eqb_spec a NULL) as [E|_]; [unfold NULL in E; lia | reflexivity].
Qed.

Lemma world_eta_outgoing w :
  mkWorld (w_heap w) (set_outgoing (w_smq w) (c_outgoing (w_smq w))) (w_joins w)
  = w.
Proof. by destruct w as [h [] j]. Qed.

Lemma world_eta_incoming w :
  mkWorld (w_heap w) (set_incoming (w_smq w) (c_incoming (w_smq w))) (w_joins w)
  = w.
Proof. by destruct w as [h [] j]. Qed.


Lemma same_client_refl c : same_client c c.
Proof. by repeat split. Qed.

Lemma same_client_trans c1 c2 c3 :
  same_client c1 c2 → same_client c2 c3 → same_client c1 c3.
Proof. intros (? & ? & ?) (? & ? & ?). repeat split; congruence. Qed.

Lemma same_client_urls c c' topic :
  same_client c c' →
  topic_url c' topic = topic_url c topic ∧
  subscription_url c' topic = subscription_url c topic.
Proof.
  intros (Hn & Hu & _). unfold topic_url, subscription_url.
  by rewrite Hn, Hu.
Qed.

(** What a function that creates a Request at [a] and pushes it on the
    outgoing queue returns. *)
Lemma push_new_outgoing w lo li a req :
  world_inv w lo li → fresh (w_heap w) a → r_next req = NULL →
  ∃ w',
    ('(h2, q) ← queue_push (<[a := req]> (w_heap w)) (c_outgoing (w_smq w)) a;
     Some (mkWorld h2 (set_outgoing (w_smq w) q) (w_joins w))) = Some w' ∧
    world_inv w' (if smq_running w then lo ++ [a] else lo) li ∧
    dom (w_heap w') = {[a]} ∪ dom (w_heap w) ∧
    w_heap w' !! a = Some req ∧
    (∀ b, b ∉ lo → b ≠ a → w_heap w' !! b = w_heap w !! b) ∧
    same_client (w_smq w) (w_smq w') ∧
    smq_running w' = smq_running w ∧
    c_incoming (w_smq w') = c_incoming (w_smq w) ∧
    w_joins w' = w_joins w.
Proof.
  intros Hinv Hfresh Hnext.
  destruct (enqueue_outgoing w lo li a req Hinv Hfresh Hnext)
    as (h2 & q & Hpush & Hinv' & Hdom & Hcell & Hframe).
  eexists. rewrite Hpush. simpl. split; [reflexivity|].
  split; [exact Hinv'|]. simpl. repeat split; done.
Qed.

Lemma push_new_incoming w lo li a req :
  world_inv w lo li → fresh (w_heap w) a → r_next req = NULL →
  ∃ w',
    ('(h2, q) ← queue_push (<[a := req]> (w_heap w)) (c_incoming (w_smq w)) a;
     Some (mkWorld h2 (set_incoming (w_smq w) q) (w_joins w))) = Some w' ∧
    world_inv w' lo (if smq_running w then li ++ [a] else li) ∧
    dom (w_heap w') = {[a]} ∪ dom (w_heap w) ∧
    w_heap w' !! a = Some req ∧
    (∀ b, b ∉ li → b ≠ a → w_heap w' !! b = w_heap w !! b) ∧
    same_client (w_smq w) (w_smq w') ∧
    smq_running w' = smq_running w ∧
    c_outgoing (w_smq w') = c_outgoing (w_smq w) ∧
    w_joins w' = w_joins w.
Proof.
  intros Hinv Hfresh Hnext.
  destruct (enqueue_incoming w lo li a req Hinv Hfresh Hnext)
    as (h2 & q & Hpush & Hinv' & Hdom & Hcell & Hframe).
  eexists. rewrite Hpush. simpl. split; [reflexivity|].
  split; [exact Hinv'|]. simpl. repeat split; done.
Qed.

Lemma smq_publish_stopped w a topic body :
  smq_running w = false → smq_publish w a topic body = Some w.
Proof. unfold smq_publish, smq_running. by intros ->. Qed.

Lemma smq_publish_running w lo li a topic body :
  world_inv w lo li → smq_running w = true →
  fresh (w_heap w) a → fits (topic_url (w_smq w) topic) →
  ∃ w',
    smq_publish w a topic body = Some w' ∧
    world_inv w' (lo ++ [a]) li ∧
    dom (w_heap w') = {[a]} ∪ dom (w_heap w) ∧
    w_heap w' !! a =
      Some (mkRequest (Some "PUT") (Some (topic_url (w_smq w) topic)) body NULL) ∧
    (∀ b, b ∉ lo → b ≠ a → w_heap w' !! b = w_heap w !! b) ∧
    same_client (w_smq w) (w_smq w') ∧
    smq_running w' = smq_running w ∧
    c_incoming (w_smq w') = c_incoming (w_smq w) ∧
    w_joins w' = w_joins w.
Proof.
  intros Hinv Hrun Hfresh Hfits.
  destruct (push_new_outgoing w lo li a
              (mkRequest (Some "PUT") (Some (topic_url (w_smq w) topic)) body NULL)
              Hinv Hfresh eq_refl) as (w' & Hpush & H).
  exists w'. split; [|rewrite Hrun in H |- *; exact H].
  unfold smq_publish. unfold smq_running in Hrun. rewrite Hrun. simpl.
  fold (topic_url (w_smq w) topic). rewrite (sprintf_url_fits _ Hfits). simpl.
  rewrite request_create_fresh by apply Hfresh. exact Hpush.
Qed.

Lemma smq_subscribe_spec w lo li a topic :
  world_inv w lo li →
  fresh (w_heap w) a → fits (subscription_url (w_smq w) topic) →
  ∃ w',
    smq_subscribe w a topic = Some w' ∧
    world_inv w' (if smq_running w then lo ++ [a] else lo) li ∧
    dom (w_heap w') = {[a]} ∪ dom (w_heap w) ∧
    w_heap w' !! a =
      Some (mkRequest (Some "PUT") (Some (subscription_url (w_smq w) topic))
              None NULL) ∧
    (∀ b, b ∉ lo → b ≠ a → w_heap w' !! b = w_heap w !! b) ∧
    same_client (w_smq w) (w_smq w') ∧
    smq_running w' = smq_running w ∧
    c_incoming (w_smq w') = c_incoming (w_smq w) ∧
    w_joins w' = w_joins w.
Proof.
  intros Hinv Hfresh Hfits.
  destruct (push_new_outgoing w lo li a
              (mkRequest (Some "PUT") (Some (subscription_url (w_smq w) topic))
                 None NULL)
              Hinv Hfresh eq_refl) as (w' & Hpush & H).
  exists w'. split; [|exact H].
  unfold smq_subscribe. simpl.
  fold (subscription_url (w_smq w) topic).
  rewrite (sprintf_url_fits _ Hfits). simpl.
  rewrite request_create_fresh by apply Hfresh. exact Hpush.
Qed.

Lemma smq_unsubscribe_spec w lo li a topic :
  world_inv w lo li →
  fresh (w_heap w) a → fits (subscription_url (w_smq w) topic) →
  ∃ w',
    smq_unsubscribe w a topic = Some w' ∧
    world_inv w' (if smq_running w then lo ++ [a] else lo) li ∧
    dom (w_heap w') = {[a]} ∪ dom (w_heap w) ∧
    w_heap w' !! a =
      Some (mkRequest (Some "DELETE") (Some (subscription_url (w_smq w) topic))
              None NULL) ∧
    (∀ b, b ∉ lo → b ≠ a → w_heap w' !! b = w_heap w !! b) ∧
    same_client (w_smq w) (w_smq w') ∧
    smq_running w' = smq_running w ∧
    c_incoming (w_smq w') = c_incoming (w_smq w) ∧
    w_joins w' = w_joins w.
Proof.
  intros Hinv Hfresh Hfits.
  destruct (push_new_outgoing w lo li a
              (mkRequest (Some "DELETE") (Some (subscription_url (w_smq w) topic))
                 None NULL)
              Hinv Hfresh eq_refl) as (w' & Hpush & H).
  exists w'. split; [|exact H].
  unfold smq_unsubscribe. simpl.
  fold (subscription_url (w_smq w) topic).
  rewrite (sprintf_url_fits _ Hfits). simpl.
  rewrite request_create_fresh by apply Hfresh. exact Hpush.
Qed.

Lemma smq_puller_deliver_spec w lo li a response :
  world_inv w lo li → fresh (w_heap w) a →
  ∃ w',
    smq_puller_deliver w a response = Some w' ∧
    world_inv w' lo (if smq_running w then li ++ [a] else li) ∧
    dom (w_heap w') = {[a]} ∪ dom (w_heap w) ∧
    w_heap w' !! a =
      Some (mkRequest None None (Some (c_string response)) NULL) ∧
    (∀ b, b ∉ li → b ≠ a → w_heap w' !! b = w_heap w !! b) ∧
    same_client (w_smq w) (w_smq w') ∧
    smq_running w' = smq_running w ∧
    c_outgoing (w_smq w') = c_outgoing (w_smq w) ∧
    w_joins w' = w_joins w.
Proof.
  intros Hinv Hfresh.
  destruct (push_new_incoming w lo li a
              (mkRequest None None (Some (c_string response)) NULL)
              Hinv Hfresh eq_refl) as (w' & Hpush & H).
  exists w'. split; [|exact H].
  unfold smq_puller_deliver.
  rewrite request_create_fresh by apply Hfresh. exact Hpush.
Qed.

Lemma smq_retrieve_stopped w now waits :
  smq_running w = false → smq_retrieve w now waits = Some (w, HandNull).
Proof. unfold smq_retrieve. by intros ->. Qed.

Lemma smq_retrieve_timeout w lo now ts :
  world_inv w lo [] → smq_running w = true →
  smq_retrieve w now (idle ts) = Some (w, HandNull).
Proof.
  intros Hinv Hrun. unfold smq_retrieve, queue_pop_among. rewrite Hrun.
  cbn [negb]. rewrite wait_among_idle_only.
  - simpl. unfold smq_unwrap. simpl. by rewrite world_eta_incoming.
  - destruct Hinv as [_ _ [_ _ Hsize _] _ _ _]. by rewrite Hsize.
Qed.

(** What [smq_retrieve] hands out for the body field [body]. *)
Lemma smq_unwrap_request w (h : heap) q b rb :
  b ≠ NULL → h !! b = Some rb →
  smq_unwrap w (<[b := set_next rb NULL]> h) q b =
    Some (mkWorld (delete b h) (set_incoming (w_smq w) q) (w_joins w),
          hand_over (r_body rb)).
Proof.
  intros Hbnz Hrb. unfold smq_unwrap, hand_over.
  destruct (Z.eqb_spec b NULL) as [|_]; [contradiction|].
  unfold store_body, load.
  destruct (Z.eqb_spec b NULL) as [|_]; [contradiction|].
  rewrite lookup_insert_eq. simpl.
  unfold request_delete, deletes_body.
  destruct (Z.eqb_spec b NULL) as [|_]; [contradiction|].
  rewrite !lookup_insert_eq. simpl. rewrite !delete_insert_eq.
  by destruct (r_body rb).
Qed.

Lemma smq_retrieve_request w lo b li now waits :
  world_inv w lo (b :: li) → smq_running w = true →
  ∃ rb q',
    w_heap w !! b = Some rb ∧
    queue_pop_among (w_heap w) (c_incoming (w_smq w)) (c_timeout (w_smq w))
      now waits =
      Some (<[b := set_next rb NULL]> (w_heap w), q', b, []) ∧
    smq_retrieve w now waits =
      Some (mkWorld (delete b (w_heap w)) (set_incoming (w_smq w) q') (w_joins w),
            hand_over (r_body rb)) ∧
    world_inv
      (mkWorld (delete b (w_heap w)) (set_incoming (w_smq w) q') (w_joins w))
      lo li.
Proof.
  intros [Hok Hout Hin Hsep Hro Hri] Hrun.
  destruct (queue_pop_nonempty _ _ b li (c_timeout (w_smq w)) 0 Hok Hin)
    as (rb & q' & Hrb & Hpop0 & Hinv' & Hrun').
  assert (Hpop : queue_pop_among (w_heap w) (c_incoming (w_smq w))
                   (c_timeout (w_smq w)) now waits =
                 Some (<[b := set_next rb NULL]> (w_heap w), q', b, [])).
  { unfold queue_pop_among.
    rewrite (wait_among_nonempty _ _ _ _ (c_timeout (w_smq w))), Hpop0;
      [reflexivity|].
    destruct Hin as [_ _ Hsize _]. rewrite Hsize. reflexivity. }
  exists rb, q'. split; [exact Hrb|]. split; [exact Hpop|].
  assert (Hbnz : b ≠ NULL).
  { apply Hok in Hrb. unfold NULL. lia. }
  assert (Hb_lo : b ∉ lo).
  { intros Hb. apply (Hsep b Hb). left. }
  assert (Hb_li : b ∉ li).
  { destruct Hin as [_ Hnd _ _]. by apply NoDup_cons in Hnd as [? _]. }
  split.
  - unfold smq_retrieve. rewrite Hrun. simpl. rewrite Hpop. simpl.
    by apply smq_unwrap_request.
  - split; simpl.
    + by apply heap_ok_delete.
    + eapply queue_inv_frame; [|exact Hout]. intros a Ha.
      rewrite lookup_delete_ne; [reflexivity|]. by intros ->.
    + eapply queue_inv_frame; [|exact Hinv']. intros a Ha.
      rewrite lookup_delete_ne by (by intros ->).
      rewrite lookup_insert_ne; [reflexivity|]. by intros ->.
    + intros a Ha Ha'. apply (Hsep a Ha). by right.
    + exact Hro.
    + congruence.
Qed.

(** ** [smq_retrieve] among the other threads *)

Lemma push_allocated_incoming w lo li a pa :
  world_inv w lo li → smq_running w = true →
  w_heap w !! a = Some pa → a ∉ lo → a ∉ li →
  ∃ h1 q1,
    queue_push (w_heap w) (c_incoming (w_smq w)) a = Some (h1, q1) ∧
    world_inv (mkWorld h1 (set_incoming (w_smq w) q1) (w_joins w))
      lo (li ++ [a]) ∧
    h1 !! a = Some (set_next pa NULL).
Proof.
  intros [Hok Hout Hin Hsep Hro Hri] Hrun Hpa Ha_lo Ha_li.
  unfold smq_running in Hrun.
  destruct (queue_push_frame _ _ li a pa Hok Hin Hpa Ha_li)
    as (h1 & q1 & Hpush & Hinv1 & Hrun1 & Hok1 & _ & Hcell & Hframe).
  rewrite Hri, Hrun in Hinv1, Hcell, Hrun1.
  exists h1, q1. split; [exact Hpush|]. split; [|exact Hcell].
  split; simpl; try done.
  - eapply queue_inv_frame; [|exact Hout]. intros b Hb.
    apply Hframe; [|by intros ->]. intros Hb'. by apply (Hsep b).
  - intros b Hb Hb'. apply elem_of_app in Hb' as [Hb'|Hb'];
      [by apply (Hsep b)|].
    apply list_elem_of_singleton in Hb'. by subst b.
  - congruence.
Qed.

Lemma smq_retrieve_push w lo a ra now ts t rest :
  world_inv w lo [] → smq_running w = true →
  w_heap w !! a = Some ra → a ∉ lo →
  Forall (λ t', t' < compute_stoptime now (c_timeout (w_smq w))) ts →
  ∃ w',
    smq_retrieve w now (idle ts ++ ([Push a], t) :: rest) =
      Some (w', if t <? compute_stoptime now (c_timeout (w_smq w))
                then hand_over (r_body ra) else HandNull) ∧
    world_inv w' lo
      (if t <? compute_stoptime now (c_timeout (w_smq w)) then [] else [a]) ∧
    w_heap w' !! a =
      (if t <? compute_stoptime now (c_timeout (w_smq w))
       then None else Some (set_next ra NULL)).
Proof.
  intros Hinv Hrun Hra Ha_lo Hts.
  set (stop := compute_stoptime now (c_timeout (w_smq w))) in *.
  assert (Hz : (q_size (c_incoming (w_smq w)) =? 0) = true).
  { destruct Hinv as [_ _ [_ _ Hsize _] _ _ _]. rewrite Hsize. reflexivity. }
  destruct (push_allocated_incoming w lo [] a ra Hinv Hrun Hra Ha_lo
              (not_elem_of_nil _)) as (h1 & q1 & Hpush & Hinv1 & Hcell).
  set (w1 := mkWorld h1 (set_incoming (w_smq w) q1) (w_joins w)) in *.
  simpl in Hinv1.
  assert (Hz1 : (q_size q1 =? 0) = false).
  { destruct Hinv1 as [_ _ [_ _ Hsize _] _ _ _]. simpl in Hsize.
    rewrite Hsize. reflexivity. }
  assert (Hpop : queue_pop_among (w_heap w) (c_incoming (w_smq w))
                   (c_timeout (w_smq w)) now (idle ts ++ ([Push a], t) :: rest) =
                 if t <? stop
                 then (λ hqr, (hqr, [])) <$>
                        queue_pop h1 q1 (c_timeout (w_smq w)) 0
                 else Some (h1, q1, NULL, [])).
  { unfold queue_pop_among. fold stop. rewrite wait_among_idle by done.
    cbn [wait_among]. rewrite Hz.
    cbn [run_ops exec_op mbind option_bind]. rewrite Hpush.
    cbn [mbind option_bind app]. unfold timedwait.
    destruct (t <? stop); [|reflexivity].
    rewrite (wait_among_nonempty _ _ _ rest (c_timeout (w_smq w)) Hz1).
    by destruct (queue_pop h1 q1 _ 0) as [[[h2 q2] r]|]. }
  unfold smq_retrieve. rewrite Hrun, Hpop. cbn [negb].
  destruct (t <? stop).
  - destruct (smq_retrieve_request w1 lo a [] now [] Hinv1 Hrun)
      as (rb & q' & Hrb & Hpop1 & _ & Hinv2).
    simpl in Hrb, Hpop1. rewrite Hcell in Hrb. injection Hrb as <-.
    unfold queue_pop_among in Hpop1.
    rewrite (wait_among_nonempty _ _ _ [] (c_timeout (w_smq w)) Hz1) in Hpop1.
    rewrite Hpop1. simpl.
    assert (Hanz : a ≠ NULL).
    { apply (wi_heap _ _ _ Hinv) in Hra. unfold NULL. lia. }
    rewrite (smq_unwrap_request w h1 q' a _ Hanz Hcell).
    eexists. split; [reflexivity|]. split; [exact Hinv2|].
    simpl. apply lookup_delete_eq.
  - exists w1. split; [reflexivity|]. split; [exact Hinv1 | exact Hcell].
Qed.

(** ** Calls of the other threads *)

Lemma calls_ok_same_client c c' ks : ∀ v,
  same_client c c' → calls_ok c v ks → calls_ok c' v ks.
Proof.
  induction ks as [|k ks IH]; intros v Hsame; simpl; [done|].
  intros [Hk Hks]. split; [|by apply IH].
  destruct k as [a topic body|a topic|a topic|s|a response|]; simpl in *;
    try done;
    destruct (same_client_urls c c' topic Hsame) as [Ht Hs];
    rewrite ?Ht, ?Hs; exact Hk.
Qed.

Lemma world_inv_shutdown_flags w lo li :
  world_inv w lo li → world_inv (smq_shutdown_flags w) lo li.
Proof.
  intros [Hok Hout Hin Hsep Hro Hri]. split; simpl; try done.
  - by apply queue_inv_shutdown.
  - by apply queue_inv_shutdown.
Qed.

Lemma allocated_not_fresh (h : heap) a p pr :
  h !! p = Some pr → a ∉ dom h → p ≠ a.
Proof. intros Hp Ha ->. apply Ha. apply elem_of_dom. by eexists. Qed.

Lemma run_call_view w lo li k p pr :
  world_inv w lo li → call_ok (w_smq w) (view_of w lo li) k →
  w_heap w !! p = Some pr → p ∉ lo → p ∉ li →
  ∃ w1,
    run_call w k = Some w1 ∧
    world_inv w1 (v_out (view_call (view_of w lo li) k))
                 (v_in (view_call (view_of w lo li) k)) ∧
    dom (w_heap w1) = v_dom (view_call (view_of w lo li) k) ∧
    smq_running w1 = v_run (view_call (view_of w lo li) k) ∧
    same_client (w_smq w) (w_smq w1) ∧
    w_joins w1 = w_joins w ∧
    w_heap w1 !! p = Some pr ∧
    (p ∉ v_out (view_call (view_of w lo li) k)) ∧
    (p ∉ v_in (view_call (view_of w lo li) k)).
Proof.
  intros Hinv Hk Hp Hplo Hpli.
  assert (Hsnoc : ∀ a (l : list Z), p ≠ a → p ∉ l → p ∉ l ++ [a]).
  { intros a l Hne Hl Hin. apply elem_of_app in Hin as [Hin|Hin]; [done|].
    apply list_elem_of_singleton in Hin. done. }
  destruct k as [a topic body|a topic|a topic|s wakes|a response|]; simpl in *.
  - (* publish *)
    destruct (smq_running w) eqn:Hrun.
    + destruct (Hk eq_refl) as (Ha & Hrange & Hfits).
      pose proof (allocated_not_fresh _ _ _ _ Hp Ha) as Hne.
      apply not_elem_of_dom in Ha.
      destruct (smq_publish_running w lo li a topic body Hinv Hrun
                  (conj Ha Hrange) Hfits)
        as (w1 & Hcall & Hinv1 & Hdom & _ & Hframe & Hsame & Hrun1 & _ & Hj).
      exists w1. simpl. rewrite Hframe by done.
      split_conj; try done; try apply Hsame; try congruence.
      by apply Hsnoc.
    + exists w. rewrite smq_publish_stopped by done. simpl.
      split_conj; done.
  - (* subscribe *)
    destruct Hk as (Ha & Hrange & Hfits).
    pose proof (allocated_not_fresh _ _ _ _ Hp Ha) as Hne.
    apply not_elem_of_dom in Ha.
    destruct (smq_subscribe_spec w lo li a topic Hinv (conj Ha Hrange) Hfits)
      as (w1 & Hcall & Hinv1 & Hdom & _ & Hframe & Hsame & Hrun1 & _ & Hj).
    exists w1. rewrite Hframe by done.
    split_conj; try done; try apply Hsame.
    destruct (smq_running w); [by apply Hsnoc | done].
  - (* unsubscribe *)
    destruct Hk as (Ha & Hrange & Hfits).
    pose proof (allocated_not_fresh _ _ _ _ Hp Ha) as Hne.
    apply not_elem_of_dom in Ha.
    destruct (smq_unsubscribe_spec w lo li a topic Hinv (conj Ha Hrange) Hfits)
      as (w1 & Hcall & Hinv1 & Hdom & _ & Hframe & Hsame & Hrun1 & _ & Hj).
    exists w1. rewrite Hframe by done.
    split_conj; try done; try apply Hsame.
    destruct (smq_running w); [by apply Hsnoc | done].
  - (* retrieve *)
    destruct (smq_running w) eqn:Hrun.
    + destruct li as [|b li].
      * exists w. rewrite (smq_retrieve_timeout w lo s wakes Hinv Hrun). simpl.
        split_conj; done.
      * destruct (smq_retrieve_request w lo b li s (idle wakes) Hinv Hrun)
          as (rb & q' & Hrb & _ & Hcall & Hinv1).
        eexists. rewrite Hcall. simpl. split; [reflexivity|].
        split; [exact Hinv1|]. simpl.
        assert (Hne : b ≠ p) by (intros ->; apply Hpli; left).
        rewrite lookup_delete_ne by done.
        split_conj; try done.
        -- apply dom_delete_L.
        -- intros Hin. apply Hpli. by right.
    + exists w. rewrite smq_retrieve_stopped by done. simpl.
      split_conj; done.
  - (* the puller delivers *)
    destruct Hk as (Ha & Hrange).
    pose proof (allocated_not_fresh _ _ _ _ Hp Ha) as Hne.
    apply not_elem_of_dom in Ha.
    destruct (smq_puller_deliver_spec w lo li a response Hinv (conj Ha Hrange))
      as (w1 & Hcall & Hinv1 & Hdom & _ & Hframe & Hsame & Hrun1 & _ & Hj).
    exists w1. rewrite Hframe by done.
    split_conj; try done; try apply Hsame.
    destruct (smq_running w); [by apply Hsnoc | done].
  - (* shutdown *)
    exists (smq_shutdown_flags w). split; [reflexivity|].
    split; [by apply world_inv_shutdown_flags|].
    split_conj; done.
Qed.

Lemma view_calls_out ks : ∀ v,
  v_out (view_calls v ks) = v_out v ++ enqueued (v_run v) ks.
Proof.
  induction ks as [|k ks IH]; intros v; simpl; [by rewrite app_nil_r|].
  rewrite IH.
  destruct k as [a topic body|a topic|a topic|s|a response|]; simpl;
    try reflexivity.
  - destruct (v_run v) eqn:Hrun; simpl; [|by rewrite Hrun].
    by rewrite <- app_assoc.
  - destruct (v_run v); simpl; [|reflexivity]. by rewrite <- app_assoc.
  - destruct (v_run v); simpl; [|reflexivity]. by rewrite <- app_assoc.
  - destruct (v_run v) eqn:Hrun; simpl; [|by rewrite Hrun].
    destruct (v_in v); simpl; by rewrite ?Hrun.
Qed.

Lemma view_calls_run ks : ∀ v,
  v_run (view_calls v ks) = v_run v && negb (shuts_down ks).
Proof.
  induction ks as [|k ks IH]; intros v; simpl; [by rewrite andb_true_r|].
  rewrite IH.
  destruct k as [a topic body|a topic|a topic|s|a response|]; simpl;
    try reflexivity.
  - destruct (v_run v) eqn:Hrun; simpl; [reflexivity|by rewrite Hrun].
  - destruct (v_run v) eqn:Hrun; simpl; [|by rewrite Hrun].
    destruct (v_in v); simpl; by rewrite ?Hrun.
  - by rewrite andb_false_r.
Qed.

Lemma run_calls_view ks : ∀ w lo li p pr,
  world_inv w lo li → calls_ok (w_smq w) (view_of w lo li) ks →
  w_heap w !! p = Some pr → p ∉ lo → p ∉ li →
  ∃ w2 li2,
    run_calls w ks = Some w2 ∧
    world_inv w2 (lo ++ enqueued (smq_running w) ks) li2 ∧
    smq_running w2 = smq_running w && negb (shuts_down ks) ∧
    same_client (w_smq w) (w_smq w2) ∧
    w_joins w2 = w_joins w ∧
    w_heap w2 !! p = Some pr ∧
    (p ∉ lo ++ enqueued (smq_running w) ks) ∧
    (p ∉ li2).
Proof.
  induction ks as [|k ks IH]; intros w lo li p pr Hinv Hks Hp Hplo Hpli.
  - exists w, li. simpl. rewrite app_nil_r, andb_true_r.
    split_conj; done.
  - destruct Hks as [Hk Hks].
    destruct (run_call_view w lo li k p pr Hinv Hk Hp Hplo Hpli)
      as (w1 & Hcall & Hinv1 & Hdom1 & Hrun1 & Hsame1 & Hj1 & Hp1 & Hplo1 & Hpli1).
    set (v1 := view_call (view_of w lo li) k) in *.
    assert (Hv1 : view_of w1 (v_out v1) (v_in v1) = v1).
    { unfold view_of. rewrite Hdom1, Hrun1. by destruct v1. }
    destruct (IH w1 (v_out v1) (v_in v1) p pr Hinv1) as
      (w2 & li2 & Hcalls & Hinv2 & Hrun2 & Hsame2 & Hj2 & Hp2 & Hplo2 & Hpli2);
      try done.
    { rewrite Hv1. by eapply calls_ok_same_client. }
    exists w2, li2.
    split; [simpl run_calls; rewrite Hcall; exact Hcalls|].
    assert (Hout : lo ++ enqueued (smq_running w) (k :: ks) =
                   v_out v1 ++ enqueued (smq_running w1) ks).
    { rewrite Hrun1.
      change (v_out v1 ++ enqueued (v_run v1) ks)
        with (v_out v1 ++ enqueued (v_run v1) ks).
      rewrite <- view_calls_out.
      change (view_calls v1 ks) with (view_calls (view_of w lo li) (k :: ks)).
      by rewrite view_calls_out. }
    assert (Hrun : smq_running w && negb (shuts_down (k :: ks)) =
                   smq_running w1 && negb (shuts_down ks)).
    { rewrite Hrun1. rewrite <- view_calls_run.
      change (view_calls v1 ks) with (view_calls (view_of w lo li) (k :: ks)).
      by rewrite view_calls_run. }
    rewrite Hout, Hrun.
    split_conj; try done; try congruence.
    by eapply same_client_trans.
Qed.

(** ** One turn of the pusher *)

Lemma request_perform_set_next ra n t net :
  request_perform (set_next ra n) t net = request_perform ra t net.
Proof. reflexivity. Qed.

Lemma pusher_pop w a l li s :
  world_inv w (a :: l) li →
  ∃ ra q1,
    w_heap w !! a = Some ra ∧
    queue_pop (w_heap w) (c_outgoing (w_smq w)) (c_timeout (w_smq w)) s =
      Some (<[a := set_next ra NULL]> (w_heap w), q1, a) ∧
    world_inv (mkWorld (<[a := set_next ra NULL]> (w_heap w))
                 (set_outgoing (w_smq w) q1) (w_joins w)) l li ∧
    (a ∉ l) ∧ (a ∉ li).
Proof.
  intros [Hok Hout Hin Hsep Hro Hri].
  destruct (queue_pop_nonempty _ _ a l (c_timeout (w_smq w)) s Hok Hout)
    as (ra & q1 & Hra & Hpop & Hinv1 & Hrun1).
  assert (Ha_l : a ∉ l).
  { destruct Hout as [_ Hnd _ _]. by apply NoDup_cons in Hnd as [? _]. }
  assert (Ha_li : a ∉ li) by (apply Hsep; left).
  exists ra, q1. split; [exact Hra|]. split; [exact Hpop|].
  split; [|by split]. split; simpl; try done.
  - apply heap_ok_insert; [exact Hok | by eapply Hok].
  - eapply queue_inv_frame; [|exact Hin]. intros b Hb.
    rewrite lookup_insert_ne; [reflexivity|]. by intros ->.
  - intros b Hb. apply Hsep. by right.
  - congruence.
Qed.

Lemma pusher_requeue w lo li a pa :
  world_inv w lo li → w_heap w !! a = Some pa → a ∉ lo → a ∉ li →
  ∃ w',
    ('(h3, q3) ← queue_push (w_heap w) (c_outgoing (w_smq w)) a;
     Some (mkWorld h3 (set_outgoing (w_smq w) q3) (w_joins w))) = Some w' ∧
    world_inv w' (if smq_running w then lo ++ [a] else lo) li ∧
    w_heap w' !! a = Some (if smq_running w then set_next pa NULL else pa) ∧
    smq_running w' = smq_running w ∧
    same_client (w_smq w) (w_smq w') ∧ w_joins w' = w_joins w.
Proof.
  intros [Hok Hout Hin Hsep Hro Hri] Hpa Ha_lo Ha_li.
  destruct (queue_push_frame _ _ lo a pa Hok Hout Hpa Ha_lo)
    as (h3 & q3 & Hpush & Hinv3 & Hrun3 & Hok3 & _ & Hcell & Hframe).
  eexists. rewrite Hpush. simpl. split; [reflexivity|].
  split; [|split; [|split; [reflexivity|split; [by split_conj|reflexivity]]]].
  - unfold smq_running. rewrite <- Hro. split; simpl; try done.
    + eapply queue_inv_frame; [|exact Hin]. intros b Hb.
      apply Hframe; [|by intros ->]. intros Hb'. by apply (Hsep b).
    + intros b Hb. destruct (q_running (c_outgoing (w_smq w))); [|by apply Hsep].
      apply elem_of_app in Hb as [Hb|Hb]; [by apply Hsep|].
      apply list_elem_of_singleton in Hb. by subst b.
    + congruence.
  - unfold smq_running. rewrite <- Hro. exact Hcell.
Qed.

Lemma pusher_destroy w lo li a pa :
  world_inv w lo li → w_heap w !! a = Some pa → a ∉ lo → a ∉ li →
  request_delete (w_heap w) a = Some (delete a (w_heap w)) ∧
  world_inv (mkWorld (delete a (w_heap w)) (w_smq w) (w_joins w)) lo li.
Proof.
  intros [Hok Hout Hin Hsep Hro Hri] Hpa Ha_lo Ha_li. split.
  - unfold request_delete. rewrite Hpa.
    destruct (Z.eqb_spec a NULL) as [E|_]; [|reflexivity].
    apply Hok in Hpa. unfold NULL in E. lia.
  - split; simpl; try done.
    + by apply heap_ok_delete.
    + eapply queue_inv_frame; [|exact Hout]. intros b Hb.
      rewrite lookup_delete_ne; [reflexivity|]. by intros ->.
    + eapply queue_inv_frame; [|exact Hin]. intros b Hb.
      rewrite lookup_delete_ne; [reflexivity|]. by intros ->.
Qed.

Lemma pusher_iter_cases w a l li ra s env net response :
  world_inv w (a :: l) li → smq_running w = true →
  w_heap w !! a = Some ra →
  calls_ok (w_smq w) (mkView (dom (w_heap w)) true l li) env →
  request_perform ra (c_timeout (w_smq w)) net = Some response →
  ∃ w' li',
    smq_pusher_iter w s env net = Some w' ∧
    smq_running w' = negb (shuts_down env) ∧
    same_client (w_smq w) (w_smq w') ∧
    w_joins w' = w_joins w ∧
    match response with
    | None =>
        world_inv w'
          (l ++ enqueued true env ++ (if shuts_down env then [] else [a])) li' ∧
        w_heap w' !! a = Some (set_next ra NULL)
    | Some _ =>
        world_inv w' (l ++ enqueued true env) li' ∧
        w_heap w' !! a = None
    end.
Proof.
  intros Hinv Hrun Hra Henv Hperf.
  destruct (pusher_pop w a l li s Hinv)
    as (ra' & q1 & Hra' & Hpop & Hinv1 & Ha_l & Ha_li).
  rewrite Hra in Hra'. injection Hra' as <-.
  set (h1 := <[a := set_next ra NULL]> (w_heap w)) in *.
  set (w1 := mkWorld h1 (set_outgoing (w_smq w) q1) (w_joins w)) in *.
  assert (Hanz : a ≠ NULL).
  { apply (wi_heap _ _ _ Hinv) in Hra. unfold NULL. lia. }
  assert (Hcell1 : w_heap w1 !! a = Some (set_next ra NULL)).
  { apply lookup_insert_eq. }
  assert (Hview : view_of w1 l li = mkView (dom (w_heap w)) true l li).
  { unfold view_of, smq_running. simpl. unfold smq_running in Hrun.
    rewrite Hrun. f_equal. unfold h1. rewrite dom_insert_L.
    apply subseteq_union_1_L, singleton_subseteq_l, elem_of_dom.
    by eexists. }
  destruct (run_calls_view env w1 l li a (set_next ra NULL) Hinv1)
    as (w2 & li2 & Hcalls & Hinv2 & Hrun2 & Hsame2 & Hj2 & Hcell2 & Ha_lo2 & Ha_li2);
    try done.
  { rewrite Hview. eapply calls_ok_same_client; [|exact Henv].
    by split_conj. }
  assert (Hrun1 : smq_running w1 = true) by exact Hrun.
  rewrite Hrun1 in *. simpl in Hrun2.
  assert (Hiter : smq_pusher_iter w s env net =
    match response with
    | None =>
        '(h3, q3) ← queue_push (w_heap w2) (c_outgoing (w_smq w2)) a;
        Some (mkWorld h3 (set_outgoing (w_smq w2) q3) (w_joins w2))
    | Some _ =>
        h3 ← request_delete (w_heap w2) a;
        Some (mkWorld h3 (w_smq w2) (w_joins w2))
    end).
  { assert (Hload : load h1 a = Some (set_next ra NULL)).
    { apply load_Some. split; [exact Hanz | exact Hcell1]. }
    unfold smq_pusher_iter. rewrite Hpop. simpl.
    destruct (Z.eqb_spec a NULL) as [|_]; [contradiction|].
    rewrite Hload. simpl.
    rewrite request_perform_set_next, Hperf. simpl.
    fold w1. rewrite Hcalls. reflexivity. }
  rewrite Hiter. destruct response as [body|].
  - (* the transport succeeded *)
    destruct (pusher_destroy w2 _ li2 a _ Hinv2 Hcell2 Ha_lo2 Ha_li2)
      as [Hdel Hinv3].
    rewrite Hdel. simpl. eexists _, li2. split; [reflexivity|]. simpl.
    split; [exact Hrun2|]. split; [exact Hsame2|]. split; [exact Hj2|].
    split; [exact Hinv3 | apply lookup_delete_eq].
  - (* the transport failed *)
    destruct (pusher_requeue w2 _ li2 a _ Hinv2 Hcell2 Ha_lo2 Ha_li2)
      as (w3 & Hpush & Hinv3 & Hcell3 & Hrun3 & Hsame3 & Hj3).
    rewrite Hpush. exists w3, li2. split; [reflexivity|].
    rewrite Hrun2 in *.
    split; [exact Hrun3|]. split; [by eapply same_client_trans|].
    split; [by rewrite Hj3, Hj2|].
    destruct (shuts_down env); simpl in *.
    + rewrite app_nil_r. split; [exact Hinv3 | exact Hcell3].
    + rewrite <- app_assoc in Hinv3. split; [exact Hinv3 | exact Hcell3].
Qed.

Lemma pusher_keeps_retrying sched : ∀ w a li ra t,
  world_inv w [a] li → smq_running w = true → w_heap w !! a = Some ra →
  c_timeout (w_smq w) = t →
  Forall (λ it, it.1.2 = [] ∧ transport_fails ra t it.2) sched →
  ∃ w' li',
    smq_pusher w sched = Some w' ∧
    world_inv w' [a] li' ∧
    smq_running w' = true ∧
    payload <$> (w_heap w' !! a) = Some (payload ra).
Proof.
  induction sched as [|[[s env] net] sched IH];
    intros w a li ra t Hinv Hrun Hra Ht Hall.
  - exists w, li. simpl. by rewrite Hra.
  - apply Forall_cons in Hall as [[Henv Hfail] Hall]. simpl in Henv, Hfail.
    subst env t.
    destruct (pusher_iter_cases w a [] li ra s [] net None Hinv Hrun Hra I Hfail)
      as (w1 & li1 & Hiter & Hrun1 & Hsame1 & _ & Hinv1 & Hcell1).
    simpl in Hrun1, Hinv1.
    destruct (IH w1 a li1 (set_next ra NULL) (c_timeout (w_smq w))
                Hinv1 Hrun1 Hcell1)
      as (w2 & li2 & Hloop & Hinv2 & Hrun2 & Hcell2);
      [apply Hsame1 | exact Hall |].
    exists w2, li2. simpl. rewrite Hrun, Hiter. simpl.
    by split_conj.
Qed.

Lemma ex_sender_inv : world_inv ex_sender [1] [].
Proof.
  split; simpl; try reflexivity.
  - apply heap_ok_insert; [apply heap_ok_empty | unfold SIZE_MOD; lia].
  - split; simpl; try reflexivity; [|apply NoDup_singleton].
    split_conj; [reflexivity|discriminate|]. by exists ex_put.
  - apply queue_inv_create.
  - intros a _. apply not_elem_of_nil.
Qed.

Lemma ex_mailbox_inv : world_inv ex_mailbox [] [1].
Proof.
  split; simpl; try reflexivity.
  - apply ex_heap_ok.
  - apply queue_inv_create.
  - apply ex_queue_one_inv.
  - intros a Ha. by apply elem_of_nil in Ha.
Qed.

Lemma ex_waiting_inv : world_inv ex_waiting [] [].
Proof.
  split; simpl; try reflexivity.
  - apply ex_heap_ok.
  - apply queue_inv_create.
  - apply queue_inv_create.
  - intros a Ha. by apply elem_of_nil in Ha.
Qed.

(** [smq_create] establishes the invariant, [smq_shutdown] keeps it. *)
Lemma smq_create_inv name_size url_size name host port w :
  smq_create name_size url_size name host port = Some w → world_inv w [] [].
Proof.
  unfold smq_create.
  destruct (negb _); [discriminate|]. destruct (negb _); [discriminate|].
  intros [= <-]. split; simpl; try reflexivity.
  - apply heap_ok_empty.
  - apply queue_inv_create.
  - apply queue_inv_create.
  - intros a Ha. by apply elem_of_nil in Ha.
Qed.

Lemma ex_client_created name_size name :
  Z.of_nat (String.length name) < name_size →
  smq_create name_size 256 name "localhost" "8080" = Some (ex_client name).
Proof.
  intros Hname. unfold smq_create.
  destruct (Z.ltb_spec (Z.of_nat (String.length name)) name_size); [|lia].
  reflexivity.
Qed.

Lemma ex_client_inv name : world_inv (ex_client name) [] [].
Proof.
  apply (smq_create_inv (Z.of_nat (String.length name) + 1) 256 name
           "localhost" "8080").
  apply ex_client_created. lia.
Qed.

Lemma world_inv_shutdown w lo li :
  world_inv w lo li → world_inv (smq_shutdown w) lo li.
Proof.
  intros Hinv. apply world_inv_shutdown_flags in Hinv.
  destruct Hinv as [H1 H2 H3 H4 H5 H6]. by split.
Qed.

(** C1. [smq_shutdown] called again on a client that is already shut down
    leaves the memory and the client structure as they are, and joins both
    workers once more: the second call is not a no-op. *)
Theorem shutdown_twice_joins_again w :
  w_heap (smq_shutdown (smq_shutdown w)) = w_heap (smq_shutdown w) ∧
  w_smq (smq_shutdown (smq_shutdown w)) = w_smq (smq_shutdown w) ∧
  w_joins (smq_shutdown (smq_shutdown w)) =
    w_joins (smq_shutdown w) ++ [Pusher; Puller] ∧
  smq_shutdown (smq_shutdown w) ≠ smq_shutdown w.
Proof.
  assert (Hj : w_joins (smq_shutdown (smq_shutdown w)) =
               w_joins (smq_shutdown w) ++ [Pusher; Puller]).
  { simpl. by rewrite <- !app_assoc. }
  split; [reflexivity|]. split; [reflexivity|]. split; [exact Hj|].
  intros Heq. rewrite Heq in Hj. apply (f_equal length) in Hj.
  rewrite length_app in Hj. simpl in Hj. lia.
Qed.

(** C6. [smq_retrieve] returns [NULL] and changes nothing when the client is
    not running.  On a running client it pops the incoming queue with the
    client's timeout.  When the queue holds the Request [b] first, the pop
    returns [b] without waiting, the structure at [b] is released, and the
    string of its body field, which [request_delete] did not release, is the
    caller's.  When the queue is empty the pop waits until [timeout]
    milliseconds after the call: if nothing arrives it gives up and
    [smq_retrieve] returns [NULL], the client unchanged; a Request that the
    puller pushes before the deadline is handed out in the same way; when
    the deadline comes first [smq_retrieve] returns [NULL], and a Request
    pushed during that last wait stays queued. *)
Theorem smq_retrieve_spec w lo li now waits :
  (smq_running w = false → smq_retrieve w now waits = Some (w, HandNull)) ∧
  (world_inv w lo li → smq_running w = true →
   match li with
   | b :: l =>
       ∃ rb q',
         w_heap w !! b = Some rb ∧
         queue_pop_among (w_heap w) (c_incoming (w_smq w))
           (c_timeout (w_smq w)) now waits =
           Some (<[b := set_next rb NULL]> (w_heap w), q', b, []) ∧
         smq_retrieve w now waits =
           Some (mkWorld (delete b (w_heap w)) (set_incoming (w_smq w) q')
                   (w_joins w),
                 hand_over (r_body rb)) ∧
         world_inv
           (mkWorld (delete b (w_heap w)) (set_incoming (w_smq w) q')
              (w_joins w))
           lo l
   | [] =>
       ∀ ts,
         smq_retrieve w now (idle ts) = Some (w, HandNull) ∧
         ∀ a ra t rest,
           w_heap w !! a = Some ra → a ∉ lo →
           Forall (λ t', t' < compute_stoptime now (c_timeout (w_smq w))) ts →
           ∃ w',
             smq_retrieve w now (idle ts ++ ([Push a], t) :: rest) =
               Some (w', if t <? compute_stoptime now (c_timeout (w_smq w))
                         then hand_over (r_body ra) else HandNull) ∧
             world_inv w' lo
               (if t <? compute_stoptime now (c_timeout (w_smq w))
                then [] else [a]) ∧
             w_heap w' !! a =
               (if t <? compute_stoptime now (c_timeout (w_smq w))
                then None else Some (set_next ra NULL))
   end).
Proof.
  split; [apply smq_retrieve_stopped|]. intros Hinv Hrun.
  destruct li as [|b l].
  - intros ts. split; [by eapply smq_retrieve_timeout|].
    intros a ra t rest Hra Ha Hts. by eapply smq_retrieve_push.
  - by apply smq_retrieve_request.
Qed.

Lemma smq_retrieve_spec_witness :
  smq_retrieve (smq_shutdown ex_mailbox) 100 (idle [150]) =
    Some (smq_shutdown ex_mailbox, HandNull) ∧
  (∃ rb q',
     w_heap ex_mailbox !! 1 = Some rb ∧
     queue_pop_among (w_heap ex_mailbox) (c_incoming (w_smq ex_mailbox))
       (c_timeout (w_smq ex_mailbox)) 100 (idle [150]) =
       Some (<[1 := set_next rb NULL]> (w_heap ex_mailbox), q', 1, []) ∧
     smq_retrieve ex_mailbox 100 (idle [150]) =
       Some (mkWorld (delete 1 (w_heap ex_mailbox))
               (set_incoming (w_smq ex_mailbox) q') (w_joins ex_mailbox),
             HandOwned "hi") ∧
     world_inv
       (mkWorld (delete 1 (w_heap ex_mailbox))
          (set_incoming (w_smq ex_mailbox) q') (w_joins ex_mailbox))
       [] []) ∧
  smq_retrieve ex_waiting 100 (idle [150; 2099; 2100; 7000]) =
    Some (ex_waiting, HandNull) ∧
  (∃ w',
     smq_retrieve ex_waiting 100 (idle [150] ++ [([Push 2], 2099)]) =
       Some (w', HandOwned "there") ∧
     world_inv w' [] [] ∧ w_heap w' !! 2 = None) ∧
  (∃ w',
     smq_retrieve ex_waiting 100 (idle [150] ++ [([Push 2], 2100)]) =
       Some (w', HandNull) ∧
     world_inv w' [] [2] ∧
     w_heap w' !! 2 = Some (ex_request "there")).
Proof.
  assert (Hearly : Forall (λ t, t < compute_stoptime 100 2000) [150]).
  { repeat constructor. }
  split; [|split; [|split; [|split]]].
  - exact (proj1 (smq_retrieve_spec (smq_shutdown ex_mailbox) [] [] 100
                    (idle [150])) eq_refl).
  - destruct (proj2 (smq_retrieve_spec ex_mailbox [] [1] 100 (idle [150]))
                ex_mailbox_inv eq_refl) as (rb & q' & Hrb & Hpop & Hcall & Hinv).
    exists rb, q'. split; [exact Hrb|]. split; [exact Hpop|].
    split; [|exact Hinv]. rewrite Hcall. by injection Hrb as <-.
  - exact (proj1 (proj2 (smq_retrieve_spec ex_waiting [] [] 100 [])
                    ex_waiting_inv eq_refl [150; 2099; 2100; 7000])).
  - exact (proj2 (proj2 (smq_retrieve_spec ex_waiting [] [] 100 [])
                    ex_waiting_inv eq_refl [150])
             2 (ex_request "there") 2099 [] eq_refl (not_elem_of_nil _) Hearly).
  - exact (proj2 (proj2 (smq_retrieve_spec ex_waiting [] [] 100 [])
                    ex_waiting_inv eq_refl [150])
             2 (ex_request "there") 2100 [] eq_refl (not_elem_of_nil _) Hearly).
Defined.

(** C7. [smq_publish] changes nothing when the client is not running.  On a
    running client, with [a] the block obtained for the Request, it leaves at
    [a] a Request with method PUT, URL [{server_url}/topic/{topic}] and the
    given body, appended to the outgoing queue; the other Requests, the
    incoming queue and the rest of the client are as before. *)
Theorem smq_publish_spec w lo li a topic body :
  (smq_running w = false → smq_publish w a topic body = Some w) ∧
  (world_inv w lo li → smq_running w = true →
   fresh (w_heap w) a →
   fits (c_server_url (w_smq w) +:+ "/topic/" +:+ topic) →
   ∃ w',
     smq_publish w a topic body = Some w' ∧
     w_heap w' !! a =
       Some (mkRequest (Some "PUT")
               (Some (c_server_url (w_smq w) +:+ "/topic/" +:+ topic))
               body NULL) ∧
     world_inv w' (lo ++ [a]) li ∧
     (∀ b, b ∉ lo → b ≠ a → w_heap w' !! b = w_heap w !! b) ∧
     c_incoming (w_smq w') = c_incoming (w_smq w) ∧
     smq_running w' = true ∧
     same_client (w_smq w) (w_smq w') ∧
     w_joins w' = w_joins w).
Proof.
  split; [apply smq_publish_stopped|]. intros Hinv Hrun Hfresh Hfits.
  destruct (smq_publish_running w lo li a topic body Hinv Hrun Hfresh Hfits)
    as (w' & Hcall & Hinv' & _ & Hcell & Hframe & Hsame & Hrun' & Hin & Hj).
  exists w'. split_conj; try done. congruence.
Qed.

Lemma smq_publish_spec_witness :
  smq_publish (smq_shutdown ex_sender) 2 "t" (Some "again") =
    Some (smq_shutdown ex_sender) ∧
  ∃ w',
    smq_publish ex_sender 2 "t" (Some "again") = Some w' ∧
    w_heap w' !! 2 =
      Some (mkRequest (Some "PUT") (Some "localhost:8080/topic/t")
              (Some "again") NULL) ∧
    world_inv w' [1; 2] [].
Proof.
  split.
  - exact (proj1 (smq_publish_spec (smq_shutdown ex_sender) [] [] 2 "t"
                    (Some "again")) eq_refl).
  - destruct (proj2 (smq_publish_spec ex_sender [1] [] 2 "t" (Some "again"))
                ex_sender_inv eq_refl)
      as (w' & Hcall & Hcell & Hinv & _).
    + split; [reflexivity | unfold SIZE_MOD; lia].
    + unfold fits, BUFSIZ. simpl. lia.
    + exists w'. by split_conj.
Defined.

(** C10. On a client that has been shut down, [smq_subscribe] and
    [smq_unsubscribe] still create their Request (a PUT, a DELETE, with the
    subscription URL and no body) and call [queue_push], which rejects it:
    the client structure, its outgoing queue included, is unchanged and the
    new Request is linked nowhere; [smq_publish] returns before it creates
    anything. *)
Theorem subscribe_after_shutdown w a topic :
  fits (subscription_url (w_smq w) topic) →
  ∃ ws wu,
    smq_subscribe (smq_shutdown w) a topic = Some ws ∧
    smq_unsubscribe (smq_shutdown w) a topic = Some wu ∧
    w_smq ws = w_smq (smq_shutdown w) ∧
    w_smq wu = w_smq (smq_shutdown w) ∧
    (a ≠ NULL →
     w_heap ws =
       <[a := mkRequest (Some "PUT") (Some (subscription_url (w_smq w) topic))
                None NULL]> (w_heap w) ∧
     w_heap wu =
       <[a := mkRequest (Some "DELETE")
                (Some (subscription_url (w_smq w) topic)) None NULL]>
         (w_heap w)) ∧
    (∀ body, smq_publish (smq_shutdown w) a topic body = Some (smq_shutdown w)).
Proof.
  intros Hfits.
  assert (Hurl : sprintf_url
            (c_server_url (w_smq (smq_shutdown w)) +:+ "/subscription/" +:+
             c_name (w_smq (smq_shutdown w)) +:+ "/" +:+ topic) =
          Some (subscription_url (w_smq w) topic)).
  { apply (sprintf_url_fits _ Hfits). }
  unfold smq_subscribe, smq_unsubscribe. rewrite Hurl. simpl.
  unfold request_create. destruct (Z.eqb_spec a NULL) as [->|Hne]; simpl.
  - eexists _, _. split; [reflexivity|]. split; [reflexivity|].
    split; [by destruct w as [h [] j]|]. split; [by destruct w as [h [] j]|].
    split; [by intros []|].
    intros body. by apply smq_publish_stopped.
  - eexists _, _. split; [reflexivity|]. split; [reflexivity|].
    split; [by destruct w as [h [] j]|]. split; [by destruct w as [h [] j]|].
    split; [intros _; by split|].
    intros body. by apply smq_publish_stopped.
Qed.

Lemma subscribe_after_shutdown_witness :
  ∃ ws wu,
    smq_subscribe (smq_shutdown ex_sender) 2 "chat" = Some ws ∧
    smq_unsubscribe (smq_shutdown ex_sender) 2 "chat" = Some wu ∧
    w_smq ws = w_smq (smq_shutdown ex_sender) ∧
    w_smq wu = w_smq (smq_shutdown ex_sender) ∧
    (2 ≠ NULL →
     w_heap ws =
       <[2 := mkRequest (Some "PUT")
                (Some (subscription_url (w_smq ex_sender) "chat")) None NULL]>
         (w_heap ex_sender) ∧
     w_heap wu =
       <[2 := mkRequest (Some "DELETE")
                (Some (subscription_url (w_smq ex_sender) "chat")) None NULL]>
         (w_heap ex_sender)) ∧
    (∀ body, smq_publish (smq_shutdown ex_sender) 2 "chat" body =
             Some (smq_shutdown ex_sender)).
Proof.
  apply (subscribe_after_shutdown ex_sender 2 "chat").
  unfold fits, BUFSIZ. simpl. lia.
Defined.

(** The retry on every failure does not hold as stated: the transport fails
    for the Request popped from the outgoing queue of [ex_sender] while another
    thread shuts the client down; [queue_push] then rejects the Request, the
    outgoing queue stays empty and the Request stays allocated, linked into no
    queue. *)
Lemma pusher_requeue_counterexample :
  transport_fails ex_put (c_timeout (w_smq ex_sender)) net_down ∧
  ∃ w',
    smq_pusher_iter ex_sender 0 [CallShutdown] net_down = Some w' ∧
    q_size (c_outgoing (w_smq w')) = 0 ∧
    q_head (c_outgoing (w_smq w')) = NULL ∧
    q_tail (c_outgoing (w_smq w')) = NULL ∧
    w_heap w' !! 1 = Some ex_put.
Proof.
  split; [reflexivity|]. eexists. split; [vm_compute; reflexivity|].
  by vm_compute.
Qed.

(** C8, amended.  One turn of the pusher on a running client whose outgoing
    queue holds [a] first, the other threads making the calls [env] during the
    transport call.  When the transport fails, the very Request [a], with its
    contents, is pushed back: it is linked behind the Requests that were
    queued and those enqueued meanwhile if the client is still running, and
    the push is rejected, queue unchanged and Request still allocated, if the
    client was shut down meanwhile.  When the transport succeeds the
    Request is released and not queued again.  There is no retry cap: however
    many turns fail in a row, the Request is still queued. *)
Theorem pusher_retry :
  (∀ w a l li ra s env net,
     world_inv w (a :: l) li → smq_running w = true →
     w_heap w !! a = Some ra →
     calls_ok (w_smq w) (mkView (dom (w_heap w)) true l li) env →
     (transport_fails ra (c_timeout (w_smq w)) net →
      ∃ w' li',
        smq_pusher_iter w s env net = Some w' ∧
        world_inv w'
          (l ++ enqueued true env ++ (if shuts_down env then [] else [a])) li' ∧
        w_heap w' !! a = Some (set_next ra NULL)) ∧
     (transport_succeeds ra (c_timeout (w_smq w)) net →
      ∃ w' li',
        smq_pusher_iter w s env net = Some w' ∧
        world_inv w' (l ++ enqueued true env) li' ∧
        w_heap w' !! a = None)) ∧
  (∀ w a li ra sched,
     world_inv w [a] li → smq_running w = true →
     w_heap w !! a = Some ra →
     Forall (λ it, it.1.2 = [] ∧
                   transport_fails ra (c_timeout (w_smq w)) it.2) sched →
     ∃ w' li',
       smq_pusher w sched = Some w' ∧
       world_inv w' [a] li' ∧
       smq_running w' = true ∧
       payload <$> (w_heap w' !! a) = Some (payload ra)).
Proof.
  split.
  - intros w a l li ra s env net Hinv Hrun Hra Henv. split.
    + intros Hfail.
      destruct (pusher_iter_cases w a l li ra s env net None
                  Hinv Hrun Hra Henv Hfail)
        as (w' & li' & Hiter & _ & _ & _ & Hinv' & Hcell).
      by exists w', li'.
    + intros [response Hok].
      destruct (pusher_iter_cases w a l li ra s env net (Some response)
                  Hinv Hrun Hra Henv Hok)
        as (w' & li' & Hiter & _ & _ & _ & Hinv' & Hcell).
      by exists w', li'.
  - intros w a li ra sched Hinv Hrun Hra Hall.
    by eapply pusher_keeps_retrying.
Qed.

Lemma pusher_retry_witness :
  (∃ w' li',
     smq_pusher_iter ex_sender 0 [CallPublish 2 "t" (Some "newer")] net_down
       = Some w' ∧
     world_inv w' [2; 1] li' ∧
     w_heap w' !! 1 = Some ex_put) ∧
  (∃ w' li',
     smq_pusher_iter ex_sender 0 [CallPublish 2 "t" (Some "newer")] net_up
       = Some w' ∧
     world_inv w' [2] li' ∧
     w_heap w' !! 1 = None) ∧
  (∃ w' li',
     smq_pusher_iter ex_sender 0 [CallShutdown] net_down = Some w' ∧
     world_inv w' [] li' ∧
     w_heap w' !! 1 = Some ex_put) ∧
  (∃ w' li',
     smq_pusher ex_sender [(0%nat, [], net_down); (3%nat, [], net_down)]
       = Some w' ∧
     world_inv w' [1] li' ∧
     smq_running w' = true ∧
     payload <$> (w_heap w' !! 1) = Some (payload ex_put)).
Proof.
  assert (Henv : calls_ok (w_smq ex_sender)
                   (mkView (dom (w_heap ex_sender)) true [] [])
                   [CallPublish 2 "t" (Some "newer")]).
  { simpl. split; [|exact I]. intros _. split_conj.
    - apply not_elem_of_dom. reflexivity.
    - lia.
    - unfold SIZE_MOD. lia.
    - unfold fits, BUFSIZ. simpl. lia. }
  split; [|split; [|split]].
  - exact (proj1 (proj1 pusher_retry ex_sender 1 [] [] ex_put 0%nat
                    [CallPublish 2 "t" (Some "newer")] net_down
                    ex_sender_inv eq_refl eq_refl Henv) eq_refl).
  - apply (proj2 (proj1 pusher_retry ex_sender 1 [] [] ex_put 0%nat
                    [CallPublish 2 "t" (Some "newer")] net_up
                    ex_sender_inv eq_refl eq_refl Henv)).
    by exists "ok".
  - exact (proj1 (proj1 pusher_retry ex_sender 1 [] [] ex_put 0%nat
                    [CallShutdown] net_down
                    ex_sender_inv eq_refl eq_refl (conj I I)) eq_refl).
  - apply (proj2 pusher_retry ex_sender 1 [] ex_put
             [(0%nat, [], net_down); (3%nat, [], net_down)]
             ex_sender_inv eq_refl eq_refl).
    repeat (apply Forall_cons; split; [by split|]). apply Forall_nil_2.
Defined.

(** * Further properties *)

(** ** [queue_delete] and [smq_delete] *)

Lemma released_lookup (h : heap) l a :
  released h l !! a = if decide (a ∈ l) then None else h !! a.
Proof.
  unfold released. destruct (decide (a ∈ l)) as [Hin|Hout].
  - apply map_lookup_filter_None. right. intros r _. simpl. by intros H.
  - destruct (h !! a) as [r|] eqn:Ha.
    + apply map_lookup_filter_Some. by split.
    + apply map_lookup_filter_None. by left.
Qed.

Lemma released_nil (h : heap) : released h [] = h.
Proof.
  apply map_eq. intros a. rewrite released_lookup.
  destruct (decide (a ∈ [])) as [Hin|_]; [by apply elem_of_nil in Hin | done].
Qed.

Lemma released_cons (h : heap) a l :
  released (delete a h) l = released h (a :: l).
Proof.
  apply map_eq. intros b. rewrite !released_lookup.
  destruct (decide (b ∈ l)) as [Hin|Hout].
  - rewrite decide_True; [done | by right].
  - destruct (decide (b = a)) as [->|Hne].
    + rewrite decide_True by left. apply lookup_delete_eq.
    + rewrite decide_False.
      * by apply lookup_delete_ne.
      * intros Hb. apply elem_of_cons in Hb as [?|?]; done.
Qed.

Lemma queue_delete_loop_chain l : ∀ fuel h p,
  heap_ok h → lseg h p l NULL → NoDup l → (length l ≤ fuel)%nat →
  queue_delete_loop fuel h p = Some (released h l).
Proof.
  induction l as [|a l IH]; intros fuel h p Hok Hseg Hnd Hfuel.
  - simpl in Hseg. subst p. destruct fuel; simpl; by rewrite released_nil.
  - destruct Hseg as (-> & Hnz & r & Hr & Hrest).
    apply NoDup_cons in Hnd as [Ha Hnd].
    destruct fuel as [|k]; [simpl in Hfuel; lia|]. simpl.
    destruct (Z.eqb_spec a NULL) as [|_]; [contradiction|].
    rewrite (load_allocated _ _ _ Hok Hr). simpl.
    unfold request_delete. destruct (Z.eqb_spec a NULL) as [|_]; [contradiction|].
    rewrite Hr. simpl.
    rewrite (IH k (delete a h) (r_next r)).
    + by rewrite released_cons.
    + by apply heap_ok_delete.
    + eapply lseg_frame; [|exact Hrest]. intros b Hb.
      apply lookup_delete_ne. by intros ->.
    + exact Hnd.
    + simpl in Hfuel. lia.
Qed.

Lemma queued_at_most_size h q l :
  queue_inv h q l → (length l ≤ size h)%nat.
Proof.
  intros Hinv.
  assert (Hsub : l ⊆+ (map_to_list h).*1).
  { apply NoDup_submseteq; [apply Hinv|]. intros a Ha.
    destruct (queue_inv_allocated h q l a Hinv Ha) as [r Hr].
    apply list_elem_of_fmap. exists (a, r). split; [done|].
    by apply elem_of_map_to_list. }
  apply submseteq_length in Hsub.
  by rewrite length_fmap, length_map_to_list in Hsub.
Qed.

(** The turns of the loop never outnumber the blocks: with more fuel the
    result is the same. *)
Lemma queue_delete_loop_fuel k : ∀ fuel (h : heap) p,
  (size h ≤ fuel)%nat →
  queue_delete_loop (fuel + k) h p = queue_delete_loop fuel h p.
Proof.
  intros fuel. induction fuel as [|fuel IH]; intros h p Hsize.
  - assert (h = ∅) as -> by (apply map_size_empty_inv; lia).
    destruct k; simpl; [done|].
    destruct (p =? NULL) eqn:Hp; [done|]. unfold load. rewrite Hp.
    by rewrite lookup_empty.
  - simpl. destruct (p =? NULL); [done|].
    destruct (load h p) as [r|] eqn:Hload; simpl; [|done].
    unfold request_delete. apply load_Some in Hload as [Hnz Hr].
    destruct (Z.eqb_spec p NULL) as [|_]; [contradiction|]. rewrite Hr. simpl.
    apply IH. rewrite map_size_delete, Hr. lia.
Qed.

(** ** Strings as lists of characters *)

Lemma chars_append s1 s2 :
  String.list_ascii_of_string (s1 +:+ s2) =
  String.list_ascii_of_string s1 ++ String.list_ascii_of_string s2.
Proof. induction s1 as [|c s1 IH]; simpl; [done | by rewrite IH]. Qed.

Lemma chars_length s : length (String.list_ascii_of_string s) = String.length s.
Proof. induction s as [|c s IH]; simpl; [done | by rewrite IH]. Qed.

Lemma chars_substring s : ∀ n m,
  String.list_ascii_of_string (String.substring n m s) =
  take m (drop n (String.list_ascii_of_string s)).
Proof.
  induction s as [|c s IH]; intros [|n] [|m]; simpl; try done;
    by rewrite IH.
Qed.

Lemma chars_inj s1 s2 :
  String.list_ascii_of_string s1 = String.list_ascii_of_string s2 → s1 = s2.
Proof.
  intros H. rewrite <- (String.string_of_list_ascii_of_string s1),
    <- (String.string_of_list_ascii_of_string s2). by rewrite H.
Qed.

Lemma strlen_append s1 s2 : strlen (s1 +:+ s2) = strlen s1 + strlen s2.
Proof.
  unfold strlen. rewrite <- !chars_length, chars_append, length_app. lia.
Qed.

Lemma strlen_nonneg s : 0 ≤ strlen s.
Proof. unfold strlen. lia. Qed.

Lemma append_empty_r s : s +:+ "" = s.
Proof. apply chars_inj. by rewrite chars_append, app_nil_r. Qed.

Lemma append_assoc s1 s2 s3 : (s1 +:+ s2) +:+ s3 = s1 +:+ s2 +:+ s3.
Proof. apply chars_inj. by rewrite !chars_append, app_assoc. Qed.

Lemma substring_all s : String.substring 0 (String.length s) s = s.
Proof.
  apply chars_inj. rewrite chars_substring. simpl.
  apply take_ge. by rewrite chars_length.
Qed.

Lemma substring_split s n a b :
  String.substring n (a + b) s =
  String.substring n a s +:+ String.substring (n + a) b s.
Proof.
  apply chars_inj. rewrite chars_append, !chars_substring.
  by rewrite <- take_take_drop, drop_drop.
Qed.

Lemma substring_none s n : String.substring n 0 s = "".
Proof. apply chars_inj. by rewrite chars_substring. Qed.

Lemma strlen_substring s n m :
  strlen (String.substring n m s) =
  Z.of_nat (Nat.min m (String.length s - n)).
Proof.
  unfold strlen. rewrite <- chars_length, chars_substring.
  by rewrite length_take, length_drop, chars_length.
Qed.

Lemma concat_cons c chunks :
  String.concat "" (c :: chunks) = c +:+ String.concat "" chunks.
Proof.
  destruct chunks as [|d chunks]; simpl; [by rewrite append_empty_r | done].
Qed.

(** ** [request_writer] *)

Lemma request_writer_stores text c b sz :
  match b with Buf t => t = text | BufNull => text = "" | BufFreed => False end →
  sz = strlen text →
  sz + strlen c + 1 < SIZE_MOD →
  request_writer c 1 (strlen c) true (mkResponse b sz) =
  Some (mkResponse (Buf (text +:+ c)) (sz + strlen c), strlen c).
Proof.
  intros Hb -> Hsmall.
  pose proof (strlen_nonneg text) as Ht. pose proof (strlen_nonneg c) as Hc.
  assert (Hreal : wrap (1 * strlen c) = strlen c).
  { rewrite Z.mul_1_l. apply wrap_small. lia. }
  assert (Htext : match b with Buf t => t | _ => "" end = text).
  { destruct b; [by subst | done | done]. }
  assert (Hsub : String.substring 0 (Z.to_nat (strlen c)) c = c).
  { unfold strlen. rewrite Nat2Z.id. apply substring_all. }
  unfold request_writer. rewrite Hreal.
  destruct b as [|t|]; [|subst t|done]; simpl in *;
    (destruct (Z.leb_spec SIZE_MOD (strlen text + strlen c + 1)); [lia|]);
    rewrite Z.ltb_irrefl, ?Htext, Z.eqb_refl, Hsub; simpl;
    rewrite wrap_small by lia; reflexivity.
Qed.

Lemma receive_stored chunks : ∀ text b sz,
  match b with Buf t => t = text | BufNull => text = "" | BufFreed => False end →
  sz = strlen text →
  sz + strlen (String.concat "" chunks) + 1 < SIZE_MOD →
  receive (stored chunks) (mkResponse b sz) =
  Some (mkResponse
          (match chunks with
           | [] => b
           | _ => Buf (text +:+ String.concat "" chunks)
           end)
          (sz + strlen (String.concat "" chunks)),
        true).
Proof.
  induction chunks as [|c chunks IH]; intros text b sz Hb Hsz Hsmall.
  - simpl. by rewrite Z.add_0_r.
  - rewrite concat_cons, strlen_append in Hsmall |- *.
    pose proof (strlen_nonneg (String.concat "" chunks)) as Hrest.
    change (stored (c :: chunks)) with ((c, true) :: stored chunks).
    cbn [receive].
    rewrite (request_writer_stores text c b sz Hb Hsz) by lia. simpl.
    rewrite Z.eqb_refl.
    rewrite (IH (text +:+ c) (Buf (text +:+ c)) (sz + strlen c));
      [|done|by rewrite strlen_append, Hsz|lia].
    rewrite Z.add_assoc. do 3 f_equal.
    destruct chunks as [|d chunks]; [by rewrite append_empty_r|].
    by rewrite append_assoc.
Qed.

Lemma receive_app pieces1 : ∀ pieces2 r,
  receive (pieces1 ++ pieces2) r =
  match receive pieces1 r with
  | Some (r1, true) => receive pieces2 r1
  | other => other
  end.
Proof.
  induction pieces1 as [|[bytes ok] pieces1 IH]; intros pieces2 r; simpl.
  - done.
  - destruct (request_writer bytes 1 (strlen bytes) ok r) as [[r1 n]|]; simpl;
      [|done].
    destruct (n =? strlen bytes); [apply IH | done].
Qed.

(** X9.  The response that [request_perform] returns is the pieces put together
    by [request_writer], or [NULL] when no piece came; when the transfer fails
    the pieces are released and [NULL] is returned. *)
Theorem request_receive_stored chunks :
  strlen (String.concat "" chunks) + 1 < SIZE_MOD →
  request_receive (stored chunks) true =
    Some (match chunks with
          | [] => None
          | _ => Some (String.concat "" chunks)
          end) ∧
  request_receive (stored chunks) false = Some None.
Proof.
  intros Hsmall. unfold request_receive.
  rewrite (receive_stored chunks "" BufNull 0); [|done|done|lia]. simpl.
  split; by destruct chunks.
Qed.

Lemma request_receive_stored_witness :
  request_receive (stored ["he"; ""; "llo"]) true = Some (Some "hello") ∧
  request_receive (stored ["he"; ""; "llo"]) false = Some None.
Proof.
  apply (request_receive_stored ["he"; ""; "llo"]). reflexivity.
Defined.

Lemma receive_realloc_failure c rest b b' sz :
  c ≠ "" → free_buffer b = Some b' →
  receive ((c, false) :: rest) (mkResponse b sz) =
  Some (mkResponse b' sz, false).
Proof.
  intros Hc Hfree.
  assert (Hpos : (0 =? strlen c) = false).
  { apply Z.eqb_neq. unfold strlen. destruct c; [done | simpl; lia]. }
  cbn [receive]. unfold request_writer. cbn [resp_data resp_size negb].
  destruct b; [| |done]; rewrite Hfree; cbn [mbind option_bind];
    by rewrite Hpos.
Qed.

(** X10.  When [realloc] fails on a piece that is not empty, after other pieces
    were stored, [request_writer] releases the response and
    [request_perform] releases it a second time; when it fails on the first
    piece nothing was stored and [NULL] is returned. *)
Theorem request_receive_realloc_failure chunks c rest finished :
  c ≠ "" → strlen (String.concat "" chunks) + 1 < SIZE_MOD →
  request_receive (stored chunks ++ (c, false) :: rest) finished =
  match chunks with
  | [] => Some None
  | _ => None
  end.
Proof.
  intros Hc Hsmall.
  unfold request_receive. rewrite receive_app.
  rewrite (receive_stored chunks "" BufNull 0); [|done|done|lia].
  destruct chunks as [|d chunks].
  - by rewrite (receive_realloc_failure c rest BufNull BufNull).
  - by rewrite (receive_realloc_failure c rest (Buf _) BufFreed).
Qed.

Lemma request_receive_realloc_failure_witness :
  request_receive (stored ["he"] ++ ("llo", false) :: []) true = None ∧
  request_receive (stored [] ++ ("llo", false) :: []) true = Some None.
Proof.
  split.
  - apply (request_receive_realloc_failure ["he"] "llo" [] true); done.
  - apply (request_receive_realloc_failure [] "llo" [] true); done.
Defined.

(** ** [request_reader] *)

Lemma request_reader_step data o n :
  0 ≤ o ≤ strlen data → strlen data < SIZE_MOD → 0 < n < SIZE_MOD →
  request_reader 1 n (mkPayload (Some data) o) =
  Some (String.substring (Z.to_nat o) (Z.to_nat (Z.min n (strlen data - o))) data,
        mkPayload (Some data) (o + Z.min n (strlen data - o)),
        Z.min n (strlen data - o)).
Proof.
  intros Ho Hlen Hn. unfold request_reader. simpl.
  rewrite Z.mul_1_l, (wrap_small n) by lia.
  rewrite (wrap_small (strlen data - o)) by lia.
  assert (Hres : (if strlen data - o >? n then n else strlen data - o) =
                 Z.min n (strlen data - o)).
  { destruct (Z.gtb_spec (strlen data - o) n); lia. }
  rewrite Hres.
  destruct (Z.ltb_spec (strlen data) (o + Z.min n (strlen data - o))); [lia|].
  rewrite andb_false_r. by rewrite wrap_small by lia.
Qed.

Lemma upload_from bufs : ∀ data o,
  0 ≤ o ≤ strlen data → strlen data < SIZE_MOD →
  Forall (λ n, 0 < n < SIZE_MOD) bufs →
  ∃ pieces,
    upload bufs (mkPayload (Some data) o) =
      Some (pieces,
            mkPayload (Some data) (Z.min (strlen data) (o + sum_sizes bufs))) ∧
    String.concat "" pieces =
      String.substring (Z.to_nat o)
        (Z.to_nat (Z.min (strlen data) (o + sum_sizes bufs) - o)) data ∧
    Forall2 (λ piece n, 0 < strlen piece ≤ n) pieces (take (length pieces) bufs).
Proof.
  induction bufs as [|n bufs IH]; intros data o Ho Hlen Hall.
  - exists []. simpl. rewrite Z.add_0_r, Z.min_r by lia.
    rewrite Z.sub_diag. simpl. by rewrite substring_none.
  - apply Forall_cons in Hall as [Hn Hall].
    assert (Hsum : 0 ≤ sum_sizes bufs).
    { clear -Hall. induction Hall as [|m bufs Hm _ IH]; simpl; lia. }
    change (sum_sizes (n :: bufs)) with (n + sum_sizes bufs).
    cbn [upload]. rewrite (request_reader_step data o n Ho Hlen Hn).
    cbn [mbind option_bind].
    destruct (Z.eqb_spec (Z.min n (strlen data - o)) 0) as [Hz|Hnz].
    + assert (o = strlen data) as -> by lia.
      exists []. rewrite (Z.min_l (strlen data)) by lia.
      rewrite Hz, Z.add_0_r, Z.sub_diag.
      simpl. by rewrite substring_none.
    + set (res := Z.min n (strlen data - o)) in *.
      destruct (IH data (o + res)) as (pieces & Hup & Hcat & Hsizes);
        [lia|done|done|].
      rewrite Hup. simpl.
      assert (Hend : Z.min (strlen data) (o + res + sum_sizes bufs) =
                     Z.min (strlen data) (o + (n + sum_sizes bufs))) by lia.
      rewrite Hend in *.
      eexists. split; [reflexivity|]. split.
      * rewrite concat_cons, Hcat.
        set (e := Z.min (strlen data) (o + (n + sum_sizes bufs))) in *.
        replace (Z.to_nat (e - o)) with (Z.to_nat res + Z.to_nat (e - (o + res)))%nat
          by lia.
        rewrite substring_split. f_equal. f_equal. lia.
      * simpl. constructor; [|exact Hsizes].
        rewrite strlen_substring. unfold strlen in *. lia.
Qed.

(** X11.  libcurl gets the body through [request_reader] in pieces that fit its
    buffers and, put together, are the body up to the total size of the
    buffers: all of it when the buffers are large enough, after which the
    reader returns 0.  The reader never reads past the body. *)
Theorem request_reader_streams_body data bufs :
  strlen data < SIZE_MOD → Forall (λ n, 0 < n < SIZE_MOD) bufs →
  ∃ pieces,
    upload bufs (mkPayload (Some data) 0) =
      Some (pieces,
            mkPayload (Some data) (Z.min (strlen data) (sum_sizes bufs))) ∧
    String.concat "" pieces =
      String.substring 0 (Z.to_nat (Z.min (strlen data) (sum_sizes bufs))) data ∧
    Forall2 (λ piece n, 0 < strlen piece ≤ n) pieces (take (length pieces) bufs) ∧
    (strlen data ≤ sum_sizes bufs →
     String.concat "" pieces = data ∧
     ∀ n, 0 < n < SIZE_MOD →
       request_reader 1 n (mkPayload (Some data) (strlen data)) =
       Some ("", mkPayload (Some data) (strlen data), 0)).
Proof.
  intros Hlen Hall. pose proof (strlen_nonneg data) as Hpos.
  destruct (upload_from bufs data 0) as (pieces & Hup & Hcat & Hsizes);
    [lia|done|done|].
  rewrite Z.add_0_l, Z.sub_0_r in *.
  exists pieces. split; [exact Hup|]. split; [exact Hcat|].
  split; [exact Hsizes|]. intros Hall_sent. split.
  - rewrite Hcat, Z.min_l by lia. unfold strlen. rewrite Nat2Z.id.
    apply substring_all.
  - intros n Hn. rewrite request_reader_step by lia.
    rewrite Z.sub_diag, Z.min_r by lia. rewrite Z.add_0_r. simpl.
    by rewrite substring_none.
Qed.

Lemma request_reader_streams_body_witness :
  ∃ pieces,
    upload [2; 2; 4] (mkPayload (Some "hello") 0) =
      Some (pieces, mkPayload (Some "hello") (Z.min (strlen "hello") 8)) ∧
    String.concat "" pieces = "hello".
Proof.
  destruct (request_reader_streams_body "hello" [2; 2; 4])
    as (pieces & Hup & _ & _ & Hall).
  - reflexivity.
  - repeat (apply Forall_cons; split; [unfold SIZE_MOD; lia|]). apply Forall_nil_2.
  - exists pieces. split; [exact Hup|]. apply Hall. simpl. unfold strlen. simpl. lia.
Defined.

(** ** What [queue_delete] and [smq_delete] release *)

Lemma queue_delete_released h q l :
  heap_ok h → queue_inv h q l → queue_delete h q = Some (released h l).
Proof.
  intros Hok Hinv.
  apply queue_delete_loop_chain; [done|apply Hinv|apply Hinv|].
  by eapply queued_at_most_size.
Qed.

Lemma heap_ok_released h l : heap_ok h → heap_ok (released h l).
Proof.
  intros Hok a r Ha. rewrite released_lookup in Ha.
  destruct (decide (a ∈ l)); [done | by eapply Hok].
Qed.

Lemma released_app (h : heap) l1 l2 :
  released (released h l1) l2 = released h (l1 ++ l2).
Proof.
  apply map_eq. intros a. rewrite !released_lookup.
  destruct (decide (a ∈ l2)) as [H2|H2].
  - rewrite decide_True; [done | apply elem_of_app; by right].
  - destruct (decide (a ∈ l1)) as [H1|H1].
    + rewrite decide_True; [done | apply elem_of_app; by left].
    + rewrite decide_False; [done|]. intros Ha.
      apply elem_of_app in Ha as [?|?]; done.
Qed.

Lemma smq_delete_released w lo li :
  world_inv w lo li → smq_delete w = Some (released (w_heap w) (lo ++ li)).
Proof.
  intros [Hok Hout Hin Hsep _ _]. unfold smq_delete.
  rewrite (queue_delete_released _ _ lo Hok Hout). simpl.
  rewrite (queue_delete_released _ _ li); [by rewrite released_app| |].
  - by apply heap_ok_released.
  - eapply queue_inv_frame; [|exact Hin]. intros a Ha. rewrite released_lookup.
    destruct (decide (a ∈ lo)) as [Hlo|]; [|done]. by destruct (Hsep a Hlo).
Qed.

(** X3.  [queue_delete] releases the Requests that are linked into the queue, each
    once, and no other block; the loop ends within the fuel it is given. *)
Theorem queue_delete_releases h q l :
  heap_ok h → queue_inv h q l →
  ∃ h',
    queue_delete h q = Some h' ∧
    (∀ a, h' !! a = if decide (a ∈ l) then None else h !! a) ∧
    heap_ok h' ∧
    ∀ k, queue_delete_loop (size h + k) h (q_head q) = Some h'.
Proof.
  intros Hok Hinv. exists (released h l).
  pose proof (queue_delete_released h q l Hok Hinv) as Hrun.
  split; [exact Hrun|]. split; [apply released_lookup|].
  split; [by apply heap_ok_released|].
  intros k. by rewrite queue_delete_loop_fuel.
Qed.

Lemma queue_delete_releases_witness :
  ∃ h',
    queue_delete ex_heap ex_queue_one = Some h' ∧
    (∀ a, h' !! a = if decide (a ∈ [1]) then None else ex_heap !! a) ∧
    heap_ok h' ∧
    ∀ k, queue_delete_loop (size ex_heap + k) ex_heap (q_head ex_queue_one)
         = Some h'.
Proof.
  exact (queue_delete_releases ex_heap ex_queue_one [1]
           ex_heap_ok ex_queue_one_inv).
Defined.

(** X4.  [smq_delete] releases the Requests of the outgoing and of the incoming
    queue; a Request that is linked into neither stays allocated. *)
Theorem smq_delete_releases w lo li :
  world_inv w lo li →
  ∃ h',
    smq_delete w = Some h' ∧
    ∀ a, h' !! a = if decide (a ∈ lo ++ li) then None else w_heap w !! a.
Proof.
  intros Hinv. exists (released (w_heap w) (lo ++ li)).
  split; [by apply smq_delete_released | apply released_lookup].
Qed.

Lemma smq_delete_releases_witness :
  ∃ h',
    smq_delete ex_mailbox = Some h' ∧
    ∀ a, h' !! a = if decide (a ∈ [] ++ [1]) then None
                   else w_heap ex_mailbox !! a.
Proof. exact (smq_delete_releases ex_mailbox [] [1] ex_mailbox_inv). Defined.

(** X5.  A Request that [smq_publish] queued and that was never sent is released
    by [smq_delete] after [smq_shutdown]: the memory is what [smq_delete]
    leaves without the call of [smq_publish]. *)
Theorem unsent_request_released w lo li a topic body :
  world_inv w lo li → smq_running w = true →
  fresh (w_heap w) a → fits (topic_url (w_smq w) topic) →
  ∃ w1 h',
    smq_publish w a topic body = Some w1 ∧
    smq_delete (smq_shutdown w1) = Some h' ∧
    smq_delete w = Some h' ∧
    h' !! a = None.
Proof.
  intros Hinv Hrun Hfresh Hfits.
  destruct (smq_publish_running w lo li a topic body Hinv Hrun Hfresh Hfits)
    as (w1 & Hcall & Hinv1 & _ & _ & Hframe & _).
  pose proof (smq_delete_released _ _ _ (world_inv_shutdown _ _ _ Hinv1))
    as Hdel1.
  pose proof (smq_delete_released _ _ _ Hinv) as Hdel0.
  set (h1 := released (w_heap (smq_shutdown w1)) ((lo ++ [a]) ++ li)) in *.
  set (h0 := released (w_heap w) (lo ++ li)) in *.
  assert (Hl1 : ∀ b, h1 !! b = if decide (b ∈ (lo ++ [a]) ++ li) then None
                               else w_heap (smq_shutdown w1) !! b)
    by (intros b; apply released_lookup).
  assert (Hl0 : ∀ b, h0 !! b = if decide (b ∈ lo ++ li) then None
                               else w_heap w !! b)
    by (intros b; apply released_lookup).
  clearbody h1 h0.
  assert (Heq : h1 = h0).
  { apply map_eq. intros b. rewrite Hl1, Hl0. simpl.
    destruct (decide (b ∈ lo ++ li)) as [Hb|Hb].
    - rewrite decide_True; [done|].
      apply elem_of_app in Hb as [Hb|Hb]; apply elem_of_app; [left|by right].
      apply elem_of_app. by left.
    - destruct (decide (b = a)) as [->|Hne].
      + rewrite decide_True; [by destruct Hfresh as [-> _]|].
        apply elem_of_app. left. apply elem_of_app. right. left.
      + rewrite decide_False.
        * apply Hframe; [|done]. intros Hin. apply Hb. apply elem_of_app.
          by left.
        * intros Hin. apply Hb.
          apply elem_of_app in Hin as [Hin|Hin]; apply elem_of_app; [|by right].
          apply elem_of_app in Hin as [Hin|Hin]; [by left|].
          apply list_elem_of_singleton in Hin. done. }
  exists w1, h1. split; [exact Hcall|]. split; [exact Hdel1|].
  split; [by rewrite Heq|].
  rewrite Hl1. rewrite decide_True; [done|].
  apply elem_of_app. left. apply elem_of_app. right. left.
Qed.

Lemma unsent_request_released_witness :
  ∃ w1 h',
    smq_publish ex_sender 2 "t" (Some "again") = Some w1 ∧
    smq_delete (smq_shutdown w1) = Some h' ∧
    smq_delete ex_sender = Some h' ∧
    h' !! 2 = None.
Proof.
  apply (unsent_request_released ex_sender [1] [] 2 "t" (Some "again")
           ex_sender_inv eq_refl).
  - split; [reflexivity | unfold SIZE_MOD; lia].
  - unfold fits, BUFSIZ. simpl. lia.
Defined.

(** X6.  A Request that [smq_subscribe] or [smq_unsubscribe] creates on a client
    that is shut down is linked into no queue, and [smq_delete] leaves it
    allocated. *)
Theorem rejected_request_leaks w lo li a topic :
  world_inv w lo li → fresh (w_heap w) a →
  fits (subscription_url (w_smq w) topic) →
  ∃ ws wu hs hu,
    smq_subscribe (smq_shutdown w) a topic = Some ws ∧
    smq_unsubscribe (smq_shutdown w) a topic = Some wu ∧
    smq_delete ws = Some hs ∧
    smq_delete wu = Some hu ∧
    hs !! a =
      Some (mkRequest (Some "PUT") (Some (subscription_url (w_smq w) topic))
              None NULL) ∧
    hu !! a =
      Some (mkRequest (Some "DELETE") (Some (subscription_url (w_smq w) topic))
              None NULL).
Proof.
  intros Hinv Hfresh Hfits.
  pose proof (world_inv_shutdown _ _ _ Hinv) as Hdown.
  pose proof (fresh_not_queued _ _ _ _ (wi_out _ _ _ Hinv) (proj1 Hfresh)) as Hlo.
  pose proof (fresh_not_queued _ _ _ _ (wi_in _ _ _ Hinv) (proj1 Hfresh)) as Hli.
  assert (Hout : a ∉ lo ++ li).
  { intros Hin. apply elem_of_app in Hin as [?|?]; done. }
  destruct (smq_subscribe_spec (smq_shutdown w) lo li a topic Hdown Hfresh Hfits)
    as (ws & Hs & Hinvs & _ & Hcells & _).
  destruct (smq_unsubscribe_spec (smq_shutdown w) lo li a topic Hdown Hfresh Hfits)
    as (wu & Hu & Hinvu & _ & Hcellu & _).
  simpl in Hinvs, Hinvu.
  pose proof (smq_delete_released _ _ _ Hinvs) as Hds.
  pose proof (smq_delete_released _ _ _ Hinvu) as Hdu.
  eexists ws, wu, _, _. split_conj; try done.
  - rewrite released_lookup, decide_False by done. exact Hcells.
  - rewrite released_lookup, decide_False by done. exact Hcellu.
Qed.

Lemma rejected_request_leaks_witness :
  ∃ ws wu hs hu,
    smq_subscribe (smq_shutdown ex_sender) 2 "chat" = Some ws ∧
    smq_unsubscribe (smq_shutdown ex_sender) 2 "chat" = Some wu ∧
    smq_delete ws = Some hs ∧
    smq_delete wu = Some hu ∧
    hs !! 2 =
      Some (mkRequest (Some "PUT")
              (Some (subscription_url (w_smq ex_sender) "chat")) None NULL) ∧
    hu !! 2 =
      Some (mkRequest (Some "DELETE")
              (Some (subscription_url (w_smq ex_sender) "chat")) None NULL).
Proof.
  apply (rejected_request_leaks ex_sender [1] [] 2 "chat" ex_sender_inv).
  - split; [reflexivity | unfold SIZE_MOD; lia].
  - unfold fits, BUFSIZ. simpl. lia.
Defined.

(** ** From a call of the client to the network *)

Lemma pusher_turn_alone w a li ra s net response :
  world_inv w [a] li → smq_running w = true →
  w_heap w !! a = Some ra → r_next ra = NULL →
  request_perform ra (c_timeout (w_smq w)) net = Some response →
  ∃ w2,
    smq_pusher_iter w s [] net = Some w2 ∧
    smq_running w2 = true ∧
    same_client (w_smq w) (w_smq w2) ∧
    match response with
    | Some _ => w_heap w2 = delete a (w_heap w) ∧ world_inv w2 [] li
    | None => world_inv w2 [a] li ∧ w_heap w2 !! a = Some ra
    end.
Proof.
  intros Hinv Hrun Hra Hnext Hperf.
  destruct (pusher_pop w a [] li s Hinv)
    as (ra' & q1 & Hra' & Hpop & Hinv1 & Ha_l & Ha_li).
  rewrite Hra in Hra'. injection Hra' as <-.
  rewrite (set_next_null ra Hnext) in *.
  rewrite (insert_id _ _ _ Hra) in *.
  set (w1 := mkWorld (w_heap w) (set_outgoing (w_smq w) q1) (w_joins w)) in *.
  assert (Hanz : a ≠ NULL).
  { apply (wi_heap _ _ _ Hinv) in Hra. unfold NULL. lia. }
  assert (Hload : load (w_heap w) a = Some ra) by (by apply load_Some).
  assert (Hiter : smq_pusher_iter w s [] net =
    match response with
    | None =>
        '(h3, q3) ← queue_push (w_heap w1) (c_outgoing (w_smq w1)) a;
        Some (mkWorld h3 (set_outgoing (w_smq w1) q3) (w_joins w1))
    | Some _ =>
        h3 ← request_delete (w_heap w1) a;
        Some (mkWorld h3 (w_smq w1) (w_joins w1))
    end).
  { unfold smq_pusher_iter. rewrite Hpop. simpl.
    destruct (Z.eqb_spec a NULL) as [|_]; [contradiction|].
    rewrite Hload. simpl. by rewrite Hperf. }
  rewrite Hiter. destruct response as [text|].
  - destruct (pusher_destroy w1 [] li a ra Hinv1 Hra Ha_l Ha_li) as [Hdel Hinv2].
    rewrite Hdel. simpl. eexists. split; [reflexivity|]. simpl.
    split; [exact Hrun|]. split; [by split_conj|]. by split.
  - destruct (pusher_requeue w1 [] li a ra Hinv1 Hra Ha_l Ha_li)
      as (w2 & Hpush & Hinv2 & Hcell2 & Hrun2 & Hsame2 & _).
    assert (Hrun1 : smq_running w1 = true) by exact Hrun.
    rewrite Hrun1 in *. rewrite (set_next_null ra Hnext) in Hcell2.
    rewrite Hpush. exists w2. split; [reflexivity|].
    split; [exact Hrun2|]. split; [|by split].
    eapply same_client_trans; [|exact Hsame2]. by split_conj.
Qed.

Lemma delete_created (h h1 : heap) a :
  h !! a = None → (∀ b, b ≠ a → h1 !! b = h !! b) → delete a h1 = h.
Proof.
  intros Hnone Hframe. apply map_eq. intros b.
  destruct (decide (b = a)) as [->|Hne].
  - by rewrite lookup_delete_eq.
  - rewrite lookup_delete_ne by done. by apply Hframe.
Qed.

(** X12.  [smq_publish] on a client with nothing to send, then one turn of the
    pusher: the network is asked for a PUT of the body to
    [{server_url}/topic/{topic}] within the client's timeout.  When that
    exchange delivers a response the Request is released and the memory is as
    before the call; otherwise the Request is queued again, unchanged. *)
Theorem publish_is_sent w li a topic body s reply :
  world_inv w [] li → smq_running w = true →
  fresh (w_heap w) a → fits (topic_url (w_smq w) topic) →
  ∃ w1 w2,
    smq_publish w a topic body = Some w1 ∧
    smq_pusher_iter w1 s [] (Session reply) = Some w2 ∧
    match reply (mkExchange PUT (Some (topic_url (w_smq w) topic))
                   (Some (default "" body)) (c_timeout (w_smq w))) with
    | CurlOK (_ :: _) => w_heap w2 = w_heap w ∧ world_inv w2 [] li
    | _ =>
        world_inv w2 [a] li ∧
        w_heap w2 !! a =
          Some (mkRequest (Some "PUT") (Some (topic_url (w_smq w) topic))
                  body NULL)
    end.
Proof.
  intros Hinv Hrun Hfresh Hfits.
  destruct (smq_publish_running w [] li a topic body Hinv Hrun Hfresh Hfits)
    as (w1 & Hcall & Hinv1 & _ & Hcell & Hframe & Hsame & Hrun1 & _).
  rewrite Hrun in Hrun1.
  set (x := mkExchange PUT (Some (topic_url (w_smq w) topic))
              (Some (default "" body)) (c_timeout (w_smq w))).
  set (req := mkRequest (Some "PUT") (Some (topic_url (w_smq w) topic)) body NULL)
    in *.
  assert (Hperf : request_perform req (c_timeout (w_smq w1)) (Session reply) =
    Some (match reply x with
          | CurlOK (c :: chunks) => Some (String.concat "" (c :: chunks))
          | _ => None
          end)).
  { destruct Hsame as (_ & _ & ->). unfold request_perform. simpl.
    fold x. by destruct (reply x) as [|[|c chunks]]. }
  destruct (pusher_turn_alone w1 a li req s (Session reply) _
              Hinv1 Hrun1 Hcell eq_refl Hperf)
    as (w2 & Hiter & _ & _ & Hres).
  exists w1, w2. split; [exact Hcall|]. split; [exact Hiter|].
  destruct (reply x) as [|[|c chunks]]; try exact Hres.
  destruct Hres as [Hheap Hinv2]. split; [|exact Hinv2].
  rewrite Hheap. apply delete_created; [apply Hfresh|].
  intros b Hb. apply Hframe; [apply not_elem_of_nil | done].
Qed.

Lemma publish_is_sent_witness :
  ∃ w1 w2,
    smq_publish (ex_client "alice") 1 "t" (Some "hello")
      = Some w1 ∧
    smq_pusher_iter w1 0 [] (Session ex_broker) = Some w2 ∧
    w_heap w2 = ∅.
Proof.
  destruct (publish_is_sent (ex_client "alice") [] 1 "t"
              (Some "hello") 0%nat ex_broker (ex_client_inv _) eq_refl)
    as (w1 & w2 & Hcall & Hiter & Hres).
  - split; [reflexivity | unfold SIZE_MOD; lia].
  - unfold fits, BUFSIZ. simpl. lia.
  - exists w1, w2. split; [exact Hcall|]. split; [exact Hiter|].
    exact (proj1 Hres).
Defined.

(** X13.  [smq_subscribe] and [smq_unsubscribe] on a client with nothing to send,
    then one turn of the pusher: the network is asked for a PUT with an empty
    upload, for a DELETE without upload, to
    [{server_url}/subscription/{name}/{topic}].  When the exchange delivers a
    response the memory is as before the call; otherwise the Request stays
    queued. *)
Theorem subscription_is_sent w li a topic s reply :
  world_inv w [] li → smq_running w = true →
  fresh (w_heap w) a → fits (subscription_url (w_smq w) topic) →
  (∃ w1 w2,
     smq_subscribe w a topic = Some w1 ∧
     smq_pusher_iter w1 s [] (Session reply) = Some w2 ∧
     match reply (mkExchange PUT (Some (subscription_url (w_smq w) topic))
                    (Some "") (c_timeout (w_smq w))) with
     | CurlOK (_ :: _) => w_heap w2 = w_heap w ∧ world_inv w2 [] li
     | _ => world_inv w2 [a] li
     end) ∧
  (∃ w1 w2,
     smq_unsubscribe w a topic = Some w1 ∧
     smq_pusher_iter w1 s [] (Session reply) = Some w2 ∧
     match reply (mkExchange DELETE (Some (subscription_url (w_smq w) topic))
                    None (c_timeout (w_smq w))) with
     | CurlOK (_ :: _) => w_heap w2 = w_heap w ∧ world_inv w2 [] li
     | _ => world_inv w2 [a] li
     end).
Proof.
  intros Hinv Hrun Hfresh Hfits. split.
  - destruct (smq_subscribe_spec w [] li a topic Hinv Hfresh Hfits)
      as (w1 & Hcall & Hinv1 & _ & Hcell & Hframe & Hsame & Hrun1 & _).
    rewrite Hrun in Hrun1, Hinv1. simpl in Hinv1.
    set (x := mkExchange PUT (Some (subscription_url (w_smq w) topic))
                (Some "") (c_timeout (w_smq w))).
    set (req := mkRequest (Some "PUT")
                  (Some (subscription_url (w_smq w) topic)) None NULL) in *.
    assert (Hperf : request_perform req (c_timeout (w_smq w1)) (Session reply) =
      Some (match reply x with
            | CurlOK (c :: chunks) => Some (String.concat "" (c :: chunks))
            | _ => None
            end)).
    { destruct Hsame as (_ & _ & ->). unfold request_perform. simpl.
      fold x. by destruct (reply x) as [|[|c chunks]]. }
    destruct (pusher_turn_alone w1 a li req s (Session reply) _
                Hinv1 Hrun1 Hcell eq_refl Hperf)
      as (w2 & Hiter & _ & _ & Hres).
    exists w1, w2. split; [exact Hcall|]. split; [exact Hiter|].
    destruct (reply x) as [|[|c chunks]]; try exact (proj1 Hres).
    destruct Hres as [Hheap Hinv2]. split; [|exact Hinv2].
    rewrite Hheap. apply delete_created; [apply Hfresh|].
    intros b Hb. apply Hframe; [apply not_elem_of_nil | done].
  - destruct (smq_unsubscribe_spec w [] li a topic Hinv Hfresh Hfits)
      as (w1 & Hcall & Hinv1 & _ & Hcell & Hframe & Hsame & Hrun1 & _).
    rewrite Hrun in Hrun1, Hinv1. simpl in Hinv1.
    set (x := mkExchange DELETE (Some (subscription_url (w_smq w) topic))
                None (c_timeout (w_smq w))).
    set (req := mkRequest (Some "DELETE")
                  (Some (subscription_url (w_smq w) topic)) None NULL) in *.
    assert (Hperf : request_perform req (c_timeout (w_smq w1)) (Session reply) =
      Some (match reply x with
            | CurlOK (c :: chunks) => Some (String.concat "" (c :: chunks))
            | _ => None
            end)).
    { destruct Hsame as (_ & _ & ->). unfold request_perform. simpl.
      fold x. by destruct (reply x) as [|[|c chunks]]. }
    destruct (pusher_turn_alone w1 a li req s (Session reply) _
                Hinv1 Hrun1 Hcell eq_refl Hperf)
      as (w2 & Hiter & _ & _ & Hres).
    exists w1, w2. split; [exact Hcall|]. split; [exact Hiter|].
    destruct (reply x) as [|[|c chunks]]; try exact (proj1 Hres).
    destruct Hres as [Hheap Hinv2]. split; [|exact Hinv2].
    rewrite Hheap. apply delete_created; [apply Hfresh|].
    intros b Hb. apply Hframe; [apply not_elem_of_nil | done].
Qed.

Lemma subscription_is_sent_witness :
  (∃ w1 w2,
     smq_subscribe (ex_client "bob") 1 "chat" = Some w1 ∧
     smq_pusher_iter w1 0 [] net_up = Some w2 ∧
     w_heap w2 = ∅) ∧
  (∃ w1 w2,
     smq_unsubscribe (ex_client "bob") 1 "chat" = Some w1 ∧
     smq_pusher_iter w1 0 [] net_up = Some w2 ∧
     w_heap w2 = ∅).
Proof.
  destruct (subscription_is_sent (ex_client "bob") [] 1
              "chat" 0%nat (λ _, CurlOK ["ok"]) (ex_client_inv _) eq_refl)
    as [(w1 & w2 & Hc1 & Hi1 & Hr1) (w3 & w4 & Hc2 & Hi2 & Hr2)].
  - split; [reflexivity | unfold SIZE_MOD; lia].
  - unfold fits, BUFSIZ. simpl. lia.
  - split; [exists w1, w2 | exists w3, w4]; split_conj; try done.
    + exact (proj1 Hr1).
    + exact (proj1 Hr2).
Defined.

(** ** The pusher on a queue of several Requests *)

Lemma pusher_turn_sends w a l li ra s net text :
  world_inv w (a :: l) li → smq_running w = true →
  w_heap w !! a = Some ra →
  request_perform ra (c_timeout (w_smq w)) net = Some (Some text) →
  ∃ w2,
    smq_pusher_iter w s [] net = Some w2 ∧
    smq_running w2 = true ∧
    same_client (w_smq w) (w_smq w2) ∧
    w_heap w2 = delete a (w_heap w) ∧
    world_inv w2 l li.
Proof.
  intros Hinv Hrun Hra Hperf.
  destruct (pusher_pop w a l li s Hinv)
    as (ra' & q1 & Hra' & Hpop & Hinv1 & Ha_l & Ha_li).
  rewrite Hra in Hra'. injection Hra' as <-.
  set (h1 := <[a := set_next ra NULL]> (w_heap w)) in *.
  set (w1 := mkWorld h1 (set_outgoing (w_smq w) q1) (w_joins w)) in *.
  assert (Hcell : w_heap w1 !! a = Some (set_next ra NULL))
    by apply lookup_insert_eq.
  assert (Hload : load h1 a = Some (set_next ra NULL))
    by (apply (load_allocated _ _ _ (wi_heap _ _ _ Hinv1)); exact Hcell).
  assert (Hanz : a ≠ NULL) by (apply load_Some in Hload; tauto).
  destruct (pusher_destroy w1 l li a _ Hinv1 Hcell Ha_l Ha_li) as [Hdel Hinv2].
  eexists. split.
  { unfold smq_pusher_iter. rewrite Hpop. simpl.
    destruct (Z.eqb_spec a NULL) as [|_]; [contradiction|].
    rewrite Hload. simpl.
    change (request_perform (set_next ra NULL) (c_timeout (w_smq w)) net)
      with (request_perform ra (c_timeout (w_smq w)) net).
    rewrite Hperf. simpl. simpl in Hdel. rewrite Hdel. reflexivity. }
  simpl. split; [exact Hrun|]. split; [by split_conj|].
  split; [apply delete_insert_eq | exact Hinv2].
Qed.

Lemma pusher_drains l : ∀ w li sched,
  world_inv w l li → smq_running w = true →
  length l = length sched →
  (∀ i a it, l !! i = Some a → sched !! i = Some it →
     it.1.2 = [] ∧
     ∃ ra, w_heap w !! a = Some ra ∧
           transport_succeeds ra (c_timeout (w_smq w)) it.2) →
  ∃ w',
    smq_pusher w sched = Some w' ∧
    w_heap w' = released (w_heap w) l ∧
    world_inv w' [] li ∧
    smq_running w' = true.
Proof.
  induction l as [|a l IH]; intros w li sched Hinv Hrun Hlen Hall.
  - destruct sched; [|discriminate]. exists w. simpl.
    rewrite released_nil. by split_conj.
  - destruct sched as [|[[s env] net] sched]; [discriminate|].
    injection Hlen as Hlen.
    destruct (Hall 0%nat a (s, env, net) eq_refl eq_refl)
      as (Henv & ra & Hra & text & Hperf).
    simpl in Henv, Hperf. subst env.
    destruct (pusher_turn_sends w a l li ra s net text Hinv Hrun Hra Hperf)
      as (w2 & Hiter & Hrun2 & Hsame & Hheap & Hinv2).
    assert (Ha_l : a ∉ l).
    { destruct Hinv as [_ [_ Hnd _ _] _ _ _ _]. by apply NoDup_cons in Hnd as [? _]. }
    destruct (IH w2 li sched Hinv2 Hrun2 Hlen) as (w3 & Hloop & Hheap3 & Hinv3 & Hrun3).
    { intros i b it Hb Hit.
      destruct (Hall (S i) b it Hb Hit) as (Henv & rb & Hrb & Hok).
      split; [exact Henv|]. exists rb. split.
      - rewrite Hheap, lookup_delete_ne; [exact Hrb|].
        intros ->. apply Ha_l. by eapply list_elem_of_lookup_2.
      - destruct Hsame as (_ & _ & ->). exact Hok. }
    exists w3. simpl. rewrite Hrun, Hiter. simpl.
    split; [exact Hloop|]. split; [|by split].
    rewrite Hheap3, Hheap. apply released_cons.
Qed.

(** X14.  The pusher sends the Requests of the outgoing queue in the order in
    which they were queued: when the exchange of each turn succeeds on the
    Request that is then first, the turns empty the queue and release exactly
    the Requests that were in it. *)
Theorem pusher_sends_in_order w l li sched :
  world_inv w l li → smq_running w = true →
  Forall2 (λ a it, it.1.2 = [] ∧
             ∃ ra, w_heap w !! a = Some ra ∧
                   transport_succeeds ra (c_timeout (w_smq w)) it.2) l sched →
  ∃ w',
    smq_pusher w sched = Some w' ∧
    w_heap w' = released (w_heap w) l ∧
    world_inv w' [] li ∧
    smq_running w' = true.
Proof.
  intros Hinv Hrun Hall.
  apply Forall2_same_length_lookup in Hall as [Hlen Hall].
  by apply pusher_drains.
Qed.

Lemma pusher_sends_in_order_witness :
  ∃ w1 w',
    smq_publish ex_sender 2 "t" (Some "again") = Some w1 ∧
    smq_pusher w1 [(0%nat, [], ex_accepts "hello"); (2%nat, [], ex_accepts "again")]
      = Some w' ∧
    w_heap w' = released (w_heap w1) [1; 2] ∧
    world_inv w' [] [].
Proof.
  destruct (smq_publish_running ex_sender [1] [] 2 "t" (Some "again")
              ex_sender_inv eq_refl) as (w1 & Hcall & Hinv1 & _).
  - split; [reflexivity | unfold SIZE_MOD; lia].
  - unfold fits, BUFSIZ. simpl. lia.
  - assert (Hw1 : ∃ w, smq_publish ex_sender 2 "t" (Some "again") = Some w ∧
      (∃ r1, w_heap w !! 1 = Some r1 ∧
             transport_succeeds r1 (c_timeout (w_smq w)) (ex_accepts "hello")) ∧
      (∃ r2, w_heap w !! 2 = Some r2 ∧
             transport_succeeds r2 (c_timeout (w_smq w)) (ex_accepts "again")) ∧
      smq_running w = true).
    { eexists. split; [reflexivity|]. split_conj.
      - eexists. split; [reflexivity | by exists "ok"].
      - eexists. split; [reflexivity | by exists "ok"].
      - reflexivity. }
    destruct Hw1 as (w & Hw & H1 & H2 & Hrun).
    rewrite Hcall in Hw. injection Hw as <-.
    destruct (pusher_sends_in_order w1 [1; 2] []
                [(0%nat, [], ex_accepts "hello"); (2%nat, [], ex_accepts "again")]
                Hinv1 Hrun) as (w' & Hloop & Hheap & Hinv' & _).
    + repeat constructor; simpl; done.
    + by exists w1, w'.
Defined.

(** ** The puller and [smq_retrieve] *)

Lemma store_next_payloads h p n h' :
  store_next h p n = Some h' → same_payloads h h'.
Proof.
  unfold store_next. destruct (load h p) as [r|] eqn:Hl; [|discriminate].
  simpl. intros [= <-]. apply same_payloads_set_next.
  by apply load_Some in Hl as [_ ?].
Qed.

Lemma queue_push_payloads h q r h' q' :
  queue_push h q r = Some (h', q') → same_payloads h h'.
Proof.
  unfold queue_push.
  destruct (q_running q); simpl; [|intros [= <- _]; apply same_payloads_refl].
  destruct (store_next h r NULL) as [h1|] eqn:H1; [|discriminate]. simpl.
  destruct (q_size q =? 0).
  - simpl. intros [= <- _]. by eapply store_next_payloads.
  - destruct (store_next h1 (q_tail q) r) as [h2|] eqn:H2; [|discriminate].
    simpl. intros [= <- _].
    eapply same_payloads_trans; by eapply store_next_payloads.
Qed.

Lemma payload_body (x y : option Request) :
  payload <$> x = payload <$> y → r_body <$> x = r_body <$> y.
Proof.
  destruct x as [[m u b n]|], y as [[m' u' b' n']|]; simpl; try done.
  unfold payload. simpl. by intros [= _ _ ->].
Qed.

Lemma smq_puller_deliver_payloads w a response w' :
  smq_puller_deliver w a response = Some w' → 0 < a →
  ∀ b, b ≠ a → payload <$> (w_heap w' !! b) = payload <$> (w_heap w !! b).
Proof.
  unfold smq_puller_deliver. intros H Ha b Hb.
  rewrite request_create_fresh in H by done.
  destruct (queue_push _ _ a) as [[h2 q]|] eqn:Hpush; [|discriminate].
  simpl in H. injection H as <-. simpl.
  rewrite (queue_push_payloads _ _ _ _ _ Hpush b). by rewrite lookup_insert_ne.
Qed.

Lemma perform_mailbox c m :
  request_perform (mkRequest (Some "GET") (Some (queue_url c)) None NULL)
    (c_timeout c) (Session (mailbox_reply c m)) = Some (Some m).
Proof.
  unfold request_perform, mailbox_reply. simpl.
  by rewrite String.eqb_refl, Z.eqb_refl.
Qed.

Lemma puller_loop_delivers msgs : ∀ w c lo li,
  world_inv w lo li → smq_running w = true → same_client c (w_smq w) →
  NoDup msgs.*1 → Forall (λ am, fresh (w_heap w) am.1) msgs →
  ∃ w1,
    smq_puller_loop w (mkRequest (Some "GET") (Some (queue_url c)) None NULL)
      (answers c msgs) = Some w1 ∧
    world_inv w1 lo (li ++ msgs.*1) ∧
    smq_running w1 = true ∧
    Forall (λ am, r_body <$> (w_heap w1 !! am.1) = Some (Some (c_string am.2)))
      msgs ∧
    (∀ b, b ∉ msgs.*1 →
          payload <$> (w_heap w1 !! b) = payload <$> (w_heap w !! b)) ∧
    (∀ b, b ∉ li → b ∉ msgs.*1 → w_heap w1 !! b = w_heap w !! b).
Proof.
  induction msgs as [|[a m] msgs IH]; intros w c lo li Hinv Hrun Hsame Hnd Hfresh.
  - exists w. simpl. rewrite app_nil_r. by split_conj.
  - apply NoDup_cons in Hnd as [Ha Hnd].
    apply Forall_cons in Hfresh as [Hfa Hfresh]. simpl in Hfa.
    destruct (smq_puller_deliver_spec w lo li a m Hinv Hfa)
      as (w1 & Hcall & Hinv1 & Hdom & Hcell & Hframe & Hsame1 & Hrun1 & _).
    rewrite Hrun in Hinv1, Hrun1.
    assert (Hfresh1 : Forall (λ am, fresh (w_heap w1) am.1) msgs).
    { apply Forall_forall. intros [b mb] Hb.
      pose proof (proj1 (Forall_forall _ _) Hfresh _ Hb) as [Hnone Hrange].
      simpl in *. split; [|exact Hrange].
      apply not_elem_of_dom. rewrite Hdom. apply not_elem_of_dom in Hnone.
      intros Hin. apply elem_of_union in Hin as [Hin|Hin]; [|done].
      apply elem_of_singleton in Hin. subst b. apply Ha.
      apply list_elem_of_fmap. by exists (a, mb). }
    destruct (IH w1 c lo (li ++ [a]) Hinv1 Hrun1
                (same_client_trans _ _ _ Hsame Hsame1) Hnd Hfresh1)
      as (w2 & Hloop & Hinv2 & Hrun2 & Hbodies & Hpay2 & Hframe2).
    exists w2. split.
    { simpl. rewrite Hrun. unfold smq_puller_iter.
      destruct Hsame as (_ & _ & Ht). rewrite Ht, perform_mailbox. simpl.
      rewrite Hcall. simpl. exact Hloop. }
    split; [by rewrite <- app_assoc in Hinv2|]. split; [exact Hrun2|].
    split_conj.
    + apply Forall_cons. split; [|exact Hbodies]. simpl.
      rewrite (payload_body _ _ (Hpay2 a Ha)). by rewrite Hcell.
    + intros b Hb. rewrite Hpay2 by (intros Hin; apply Hb; by right).
      apply (smq_puller_deliver_payloads _ _ _ _ Hcall); [apply Hfa|].
      intros ->. apply Hb. left.
    + intros b Hb1 Hb2. rewrite Hframe2.
      * apply Hframe; [done|]. intros ->. apply Hb2. left.
      * intros Hin. apply elem_of_app in Hin as [Hin|Hin]; [done|].
        apply list_elem_of_singleton in Hin. subst b. apply Hb2. left.
      * intros Hin. apply Hb2. by right.
Qed.

Lemma retrieve_each_queued msgs : ∀ w lo ss,
  world_inv w lo msgs.*1 → smq_running w = true →
  Forall (λ am, r_body <$> (w_heap w !! am.1) = Some (Some (c_string am.2)))
    msgs →
  length ss = length msgs →
  ∃ w2,
    smq_retrieve_each w ss =
      Some (w2, map (λ am, HandOwned (c_string am.2)) msgs) ∧
    world_inv w2 lo [] ∧
    smq_running w2 = true ∧
    w_heap w2 = released (w_heap w) msgs.*1.
Proof.
  induction msgs as [|[b m] msgs IH]; intros w lo ss Hinv Hrun Hbodies Hlen.
  - destruct ss; [|discriminate]. exists w. simpl.
    rewrite released_nil. by split_conj.
  - destruct ss as [|s ss]; [discriminate|]. injection Hlen as Hlen.
    apply Forall_cons in Hbodies as [Hb Hbodies]. simpl in Hb.
    change (((b, m) :: msgs).*1) with (b :: msgs.*1) in *.
    assert (Hnd : b ∉ msgs.*1).
    { destruct Hinv as [_ _ [_ Hnd _ _] _ _ _]. by apply NoDup_cons in Hnd as [? _]. }
    destruct (smq_retrieve_request w lo b (msgs.*1) s.1 s.2 Hinv Hrun)
      as (rb & q' & Hrb & _ & Hcall & Hinv1).
    rewrite Hrb in Hb. simpl in Hb. injection Hb as Hb.
    set (w1 := mkWorld (delete b (w_heap w)) (set_incoming (w_smq w) q')
                 (w_joins w)) in *.
    destruct (IH w1 lo ss Hinv1) as (w2 & Heach & Hinv2 & Hrun2 & Hheap);
      [exact Hrun| |exact Hlen|].
    { apply Forall_forall. intros [d md] Hd.
      pose proof (proj1 (Forall_forall _ _) Hbodies _ Hd) as Hbd. simpl in *.
      rewrite lookup_delete_ne; [exact Hbd|].
      intros ->. apply Hnd. apply list_elem_of_fmap. by exists (d, md). }
    exists w2. split.
    { simpl. rewrite Hcall. simpl. rewrite Heach. simpl. by rewrite Hb. }
    split; [exact Hinv2|]. split; [exact Hrun2|].
    rewrite Hheap. apply released_cons.
Qed.

(** X16.  The puller stores what the broker answers to the GET of
    [{server_url}/queue/{name}] in the incoming queue and [smq_retrieve] hands
    it out: the messages come out in the order in which the broker delivered
    them, each exactly once and each as the C string that its bytes hold, and
    after the last one the memory is what it was before the first. *)
Theorem messages_retrieved_in_order w lo msgs ss :
  world_inv w lo [] → smq_running w = true → fits (queue_url (w_smq w)) →
  NoDup msgs.*1 → Forall (λ am, fresh (w_heap w) am.1) msgs →
  length ss = length msgs →
  ∃ w1 w2,
    smq_puller w (answers (w_smq w) msgs) = Some w1 ∧
    smq_retrieve_each w1 ss =
      Some (w2, map (λ am, HandOwned (c_string am.2)) msgs) ∧
    w_heap w2 = w_heap w ∧
    world_inv w2 lo [].
Proof.
  intros Hinv Hrun Hfits Hnd Hfresh Hlen.
  destruct (puller_loop_delivers msgs w (w_smq w) lo [] Hinv Hrun
              (same_client_refl _) Hnd Hfresh)
    as (w1 & Hloop & Hinv1 & Hrun1 & Hbodies & _ & Hframe).
  destruct (retrieve_each_queued msgs w1 lo ss Hinv1 Hrun1 Hbodies Hlen)
    as (w2 & Heach & Hinv2 & _ & Hheap).
  exists w1, w2. split.
  { unfold smq_puller. fold (queue_url (w_smq w)).
    rewrite (sprintf_url_fits _ Hfits). exact Hloop. }
  split; [exact Heach|]. split; [|exact Hinv2].
  rewrite Hheap. apply map_eq. intros b. rewrite released_lookup.
  destruct (decide (b ∈ msgs.*1)) as [Hin|Hout].
  - apply list_elem_of_fmap in Hin as ([a m] & -> & Hin).
    symmetry. exact (proj1 (proj1 (Forall_forall _ _) Hfresh _ Hin)).
  - apply Hframe; [apply not_elem_of_nil | exact Hout].
Qed.

Lemma messages_retrieved_in_order_witness :
  ∃ w1 w2,
    smq_puller (ex_client "bob")
      (answers (w_smq (ex_client "bob"))
         [(2, "first"); (1, "sec" +:+ String Ascii.zero "ond")]) = Some w1 ∧
    smq_retrieve_each w1 [(100, []); (900, idle [950; 1200])] =
      Some (w2, [HandOwned "first"; HandOwned "sec"]) ∧
    w_heap w2 = ∅ ∧
    world_inv w2 [] [].
Proof.
  apply (messages_retrieved_in_order (ex_client "bob") []
           [(2, "first"); (1, "sec" +:+ String Ascii.zero "ond")]
           [(100, []); (900, idle [950; 1200])] (ex_client_inv _) eq_refl).
  - unfold fits, BUFSIZ. simpl. lia.
  - simpl. apply NoDup_cons. split; [|apply NoDup_singleton].
    intros H. apply list_elem_of_singleton in H. discriminate.
  - repeat constructor; simpl; unfold SIZE_MOD; lia.
  - reflexivity.
Defined.

(** X15.  One turn of the puller, whatever the network does, then
    [smq_retrieve]: when the exchange delivers a response in pieces the
    message is the C string that their concatenation holds, which is the
    caller's, and the memory is afterwards as before; when the exchange fails
    or delivers nothing, nothing is queued and [smq_retrieve] returns
    [NULL]. *)
Theorem puller_then_retrieve w lo a now ts net :
  world_inv w lo [] → smq_running w = true → fits (queue_url (w_smq w)) →
  fresh (w_heap w) a →
  ∃ w1 w2 message,
    smq_puller w [(a, net)] = Some w1 ∧
    smq_retrieve w1 now (idle ts) = Some (w2, message) ∧
    w_heap w2 = w_heap w ∧
    world_inv w2 lo [] ∧
    message =
      match net with
      | NoSession => HandNull
      | Session reply =>
          match reply (mkExchange GET (Some (queue_url (w_smq w))) None
                         (c_timeout (w_smq w))) with
          | CurlOK (c :: chunks) =>
              HandOwned (c_string (String.concat "" (c :: chunks)))
          | _ => HandNull
          end
      end.
Proof.
  intros Hinv Hrun Hfits Hfresh.
  set (response := match net with
      | NoSession => None
      | Session reply =>
          match reply (mkExchange GET (Some (queue_url (w_smq w))) None
                         (c_timeout (w_smq w))) with
          | CurlOK (c :: chunks) => Some (String.concat "" (c :: chunks))
          | _ => None
          end
      end).
  assert (Hperf : request_perform
            (mkRequest (Some "GET") (Some (queue_url (w_smq w))) None NULL)
            (c_timeout (w_smq w)) net = Some response).
  { unfold response, request_perform. destruct net as [|reply]; [done|]. simpl.
    by destruct (reply _) as [|[|c chunks]]. }
  assert (Hmsg : match net with
      | NoSession => HandNull
      | Session reply =>
          match reply (mkExchange GET (Some (queue_url (w_smq w))) None
                         (c_timeout (w_smq w))) with
          | CurlOK (c :: chunks) =>
              HandOwned (c_string (String.concat "" (c :: chunks)))
          | _ => HandNull
          end
      end = hand_over (c_string <$> response)).
  { unfold response. destruct net as [|reply]; [done|].
    by destruct (reply _) as [|[|c chunks]]. }
  rewrite Hmsg. clear Hmsg.
  unfold smq_puller. fold (queue_url (w_smq w)).
  rewrite (sprintf_url_fits _ Hfits). simpl. rewrite Hrun.
  unfold smq_puller_iter. rewrite Hperf. simpl.
  destruct response as [bytes|].
  - destruct (smq_puller_deliver_spec w lo [] a bytes Hinv Hfresh)
      as (w1 & Hcall & Hinv1 & _ & Hcell & Hframe & _ & Hrun1 & _).
    rewrite Hrun in Hinv1, Hrun1. simpl in Hinv1.
    destruct (smq_retrieve_request w1 lo a [] now (idle ts) Hinv1 Hrun1)
      as (rb & q' & Hrb & _ & Hret & Hinv2).
    rewrite Hcell in Hrb. injection Hrb as <-.
    rewrite Hcall. simpl.
    eexists _, _, _. split; [reflexivity|]. split; [exact Hret|].
    split; [|split; [exact Hinv2 | reflexivity]].
    simpl. apply delete_created; [apply Hfresh|].
    intros b Hb. apply Hframe; [apply not_elem_of_nil | done].
  - exists w, w, HandNull. split; [reflexivity|].
    split; [by apply (smq_retrieve_timeout w lo)|]. by split_conj.
Qed.

Lemma puller_then_retrieve_witness :
  ∃ w1 w2,
    smq_puller (ex_client "bob")
      [(1, Session (λ _, CurlOK ["he"; "llo" +:+ String Ascii.zero "!"; "?"]))]
      = Some w1 ∧
    smq_retrieve w1 100 (idle [150]) = Some (w2, HandOwned "hello") ∧
    w_heap w2 = ∅.
Proof.
  destruct (puller_then_retrieve (ex_client "bob") [] 1 100 [150]
              (Session (λ _, CurlOK ["he"; "llo" +:+ String Ascii.zero "!"; "?"]))
              (ex_client_inv _) eq_refl)
    as (w1 & w2 & message & Hpull & Hret & Hheap & _ & ->).
  - unfold fits, BUFSIZ. simpl. lia.
  - split; [reflexivity | unfold SIZE_MOD; lia].
  - by exists w1, w2.
Defined.

(** ** The calls of the client as steps on its view *)




(** ** The queue among several threads *)

Lemma queue_fifo_interleaved_witness :
  ∃ h' q' out rest,
    run_ops ex_heap queue_create [Push 2; Pop 2000 0; Pop 10 1; Push 1] =
      Some (h', q', out) ∧
    queue_inv h' q' rest ∧
    returned out ++ rest = accepted true [Push 2; Pop 2000 0; Pop 10 1; Push 1].
Proof.
  apply (queue_fifo_interleaved ex_heap _ ex_heap_ok). simpl.
  repeat split; try (by eexists); try apply not_elem_of_nil.
Defined.

Lemma queue_pop_among_linear_witness :
  (∃ h' q' pre post out1 out2,
     queue_pop_among ex_heap queue_create 2000 100
       [([], 150); ([Push 2; Push 1; Pop 5 0], 300); ([Shutdown], 9999)] =
       Some (h', q', 1, [2]) ∧
     [([], 150); ([Push 2; Push 1; Pop 5 0], 300); ([Shutdown], 9999)] =
       pre ++ post ∧
     [2] = out1 ++ out2 ∧
     run_ops ex_heap queue_create (concat (map fst pre) ++ [Pop 2000 0]) =
       Some (h', q', out1 ++ 1 :: out2)) ∧
  (∃ h' q' pre post out1 out2,
     queue_pop_among ex_heap queue_create 2000 100
       [([Push 2; Pop 5 0], 150); ([Push 1], 2100)] = Some (h', q', NULL, [2]) ∧
     [([Push 2; Pop 5 0], 150); ([Push 1], 2100)] = pre ++ post ∧
     [2] = out1 ++ out2 ∧
     run_ops ex_heap queue_create
       (concat (map fst pre) ++ Pop 2000 0 :: default [] (fst <$> head post)) =
       Some (h', q', out1 ++ NULL :: out2)).
Proof.
  split.
  - assert (H : ∃ h' q',
      queue_pop_among ex_heap queue_create 2000 100
        [([], 150); ([Push 2; Push 1; Pop 5 0], 300); ([Shutdown], 9999)] =
        Some (h', q', 1, [2])) by (by eexists _, _).
    destruct H as (h' & q' & H).
    destruct (queue_pop_among_linear _ _ _ _ _ _ _ _ _ H)
      as (pre & post & out1 & out2 & Hw & Ho & _ & _ & Hrun).
    by exists h', q', pre, post, out1, out2.
  - assert (H : ∃ h' q',
      queue_pop_among ex_heap queue_create 2000 100
        [([Push 2; Pop 5 0], 150); ([Push 1], 2100)] =
        Some (h', q', NULL, [2])) by (by eexists _, _).
    destruct H as (h' & q' & H).
    destruct (queue_pop_among_linear _ _ _ _ _ _ _ _ _ H)
      as (pre & post & out1 & out2 & Hw & Ho & _ & _ & Hrun).
    by exists h', q', pre, post, out1, out2.
Defined.

(** ** The URLs of a created client *)

Lemma strlen_snprintf_256 text : strlen (snprintf_256 text) ≤ 255.
Proof. unfold snprintf_256. rewrite strlen_substring. lia. Qed.

(** X18.  [smq_create] is defined when the name and the server URL, each
    with its NUL, fit the arrays of the structure, and overruns an array
    otherwise.  It cuts the server URL to the 255 characters that its buffer
    of 256 bytes takes, and keeps it whole when it is not longer.  So on the
    client it returns, the URL that [smq_publish] prints into its buffer of
    [BUFSIZ] bytes fits whenever the topic has at most 7929 characters: the
    call is defined and queues its Request. *)
Theorem created_client_publishes name_size url_size name host port topic a body :
  strlen topic ≤ 7929 → 0 < a < SIZE_MOD →
  match smq_create name_size url_size name host port with
  | None =>
      name_size ≤ strlen name ∨
      url_size ≤ strlen (snprintf_256 (host +:+ ":" +:+ port))
  | Some w =>
      strlen name < name_size ∧
      c_name (w_smq w) = name ∧
      strlen (c_server_url (w_smq w)) < Z.min url_size 256 ∧
      (strlen (host +:+ ":" +:+ port) ≤ 255 →
       c_server_url (w_smq w) = host +:+ ":" +:+ port) ∧
      ∃ w', smq_publish w a topic body = Some w' ∧ world_inv w' [a] []
  end.
Proof.
  intros Htopic Ha.
  pose proof (strlen_snprintf_256 (host +:+ ":" +:+ port)) as Hurl.
  destruct (smq_create name_size url_size name host port) as [w|] eqn:Hcreate.
  - pose proof (smq_create_inv _ _ _ _ _ _ Hcreate) as Hinv.
    unfold smq_create in Hcreate. fold (strlen name) in Hcreate.
    fold (strlen (snprintf_256 (host +:+ ":" +:+ port))) in Hcreate.
    destruct (Z.ltb_spec (strlen name) name_size) as [Hname|];
      [|discriminate].
    destruct (Z.ltb_spec (strlen (snprintf_256 (host +:+ ":" +:+ port)))
                url_size) as [Hfit|]; [|discriminate].
    simpl in Hcreate. injection Hcreate as <-.
    set (w := mkWorld ∅ _ []) in *.
    assert (Hfits : fits (topic_url (w_smq w) topic)).
    { unfold fits, topic_url, BUFSIZ.
      fold (strlen (c_server_url (w_smq w) +:+ "/topic/" +:+ topic)).
      rewrite !strlen_append. change (strlen "/topic/") with 7.
      change (c_server_url (w_smq w))
        with (snprintf_256 (host +:+ ":" +:+ port)). lia. }
    destruct (smq_publish_running w [] [] a topic body Hinv eq_refl
                (conj (lookup_empty _) Ha) Hfits)
      as (w' & Hcall & Hinv' & _).
    split; [exact Hname|]. split; [reflexivity|].
    split; [simpl; lia|]. split; [|by exists w'].
    intros Hshort. simpl. unfold snprintf_256.
    apply chars_inj. rewrite chars_substring. simpl.
    apply take_ge. rewrite chars_length. unfold strlen in Hshort. lia.
  - unfold smq_create in Hcreate. fold (strlen name) in Hcreate.
    fold (strlen (snprintf_256 (host +:+ ":" +:+ port))) in Hcreate.
    destruct (Z.ltb_spec (strlen name) name_size) as [|Hname];
      [|by left].
    destruct (Z.ltb_spec (strlen (snprintf_256 (host +:+ ":" +:+ port)))
                url_size) as [|Hfit]; [discriminate | by right].
Qed.

Lemma created_client_publishes_witness :
  (∃ w w',
     smq_create 64 256 "alice" "localhost" "8080" = Some w ∧
     c_server_url (w_smq w) = "localhost:8080" ∧
     smq_publish w 1 "shell" (Some "hi") = Some w' ∧
     world_inv w' [1] []) ∧
  smq_create 4 256 "alice" "localhost" "8080" = None.
Proof.
  assert (Htopic : strlen "shell" ≤ 7929) by (unfold strlen; simpl; lia).
  assert (Ha : 0 < 1 < SIZE_MOD) by (unfold SIZE_MOD; lia).
  pose proof (created_client_publishes 64 256 "alice" "localhost" "8080"
                "shell" 1 (Some "hi") Htopic Ha) as H.
  assert (Hc : smq_create 64 256 "alice" "localhost" "8080" =
               Some (ex_client "alice")) by reflexivity.
  rewrite Hc in H. destruct H as (_ & _ & _ & Hurl & w' & Hcall & Hinv).
  split; [|reflexivity].
  exists (ex_client "alice"), w'. split; [exact Hc|].
  split; [|by split]. apply Hurl. unfold strlen. simpl. lia.
Defined.

(** ** Allocation *)



(** X8.  No caller of [request_create] tests its result.  When [calloc] fails
    while the client runs, [queue_push] stores through the [NULL] pointer:
    the call is undefined.  On a client that is shut down the push returns
    before it touches the Request, and nothing happens. *)
Theorem allocation_failure w lo li topic body response :
  world_inv w lo li →
  fits (topic_url (w_smq w) topic) → fits (subscription_url (w_smq w) topic) →
  if smq_running w then
    smq_publish w NULL topic body = None ∧
    smq_subscribe w NULL topic = None ∧
    smq_unsubscribe w NULL topic = None ∧
    smq_puller_deliver w NULL response = None
  else
    smq_publish w NULL topic body = Some w ∧
    smq_subscribe w NULL topic = Some w ∧
    smq_unsubscribe w NULL topic = Some w ∧
    smq_puller_deliver w NULL response = Some w.
Proof.
  intros [_ _ _ _ Hro Hri] Hft Hfs.
  unfold topic_url in Hft. unfold subscription_url in Hfs.
  unfold smq_publish, smq_subscribe, smq_unsubscribe, smq_puller_deliver.
  rewrite (sprintf_url_fits _ Hft), (sprintf_url_fits _ Hfs).
  unfold request_create, queue_push, smq_running in *. simpl.
  rewrite Hro, Hri.
  destruct (c_running (w_smq w)); simpl; [done|].
  by rewrite world_eta_outgoing, world_eta_incoming.
Qed.

Lemma allocation_failure_witness :
  smq_publish ex_sender NULL "t" (Some "hi") = None ∧
  smq_subscribe ex_sender NULL "t" = None ∧
  smq_unsubscribe ex_sender NULL "t" = None ∧
  smq_puller_deliver ex_sender NULL "news" = None.
Proof.
  apply (allocation_failure ex_sender [1] [] "t" (Some "hi") "news"
           ex_sender_inv); unfold fits, BUFSIZ; simpl; lia.
Defined.

(** ** shell.c: the line typed at the keyboard *)

Lemma substring_short s n :
  (String.length s ≤ n)%nat → String.substring 0 n s = s.
Proof.
  intros H. apply chars_inj. rewrite chars_substring. simpl.
  apply take_ge. by rewrite chars_length.
Qed.

Lemma substring_prefix s x n :
  String.length s = n → String.substring 0 n (s +:+ x) = s.
Proof.
  intros H. apply chars_inj. rewrite chars_substring, chars_append, drop_0.
  rewrite take_app_le by (rewrite chars_length; lia).
  apply take_ge. rewrite chars_length. lia.
Qed.

Lemma printable_key key :
  32 ≤ code key < 127 →
  (code key =? 10) = false ∧ (code key =? BACKSPACE) = false ∧
  (128 <=? code key) = false ∧ iscntrl (code key) = false.
Proof.
  intros H. unfold iscntrl, BACKSPACE. split_conj.
  - apply Z.eqb_neq. lia.
  - apply Z.eqb_neq. lia.
  - apply Z.leb_gt. lia.
  - apply orb_false_iff. split; [apply Z.ltb_ge | apply Z.eqb_neq]; lia.
Qed.

Lemma bufsiz_small : BUFSIZ < SIZE_MOD.
Proof. unfold BUFSIZ, SIZE_MOD. lia. Qed.

Lemma typing_fills_line text : ∀ w buf rest,
  smq_running w = true → printable text → strlen buf ≤ BUFSIZ - 1 →
  outgoing_thread w (mkLine buf (strlen buf)) (typed text ++ rest) =
  outgoing_thread w
    (mkLine (kept (buf +:+ text)) (strlen (kept (buf +:+ text)))) rest.
Proof.
  induction text as [|key text IH]; intros w buf rest Hrun Hpr Hlen.
  - cbn [typed app]. rewrite append_empty_r. unfold kept.
    rewrite substring_short; [done|]. unfold strlen in Hlen. lia.
  - destruct Hpr as [Hkey Hpr].
    destruct (printable_key key Hkey) as (H10 & Hbs & H128 & Hcn).
    cbn [typed app outgoing_thread]. rewrite Hrun.
    unfold outgoing_turn. cbn [input_buffer input_index].
    rewrite H10, Hbs, H128, Hcn. cbn [andb negb].
    pose proof bufsiz_small as Hbig. pose proof (strlen_nonneg buf) as Hnn.
    destruct (Z.ltb_spec (strlen buf) (BUFSIZ - 1)) as [Hroom|Hfull].
    + rewrite Z.leb_refl.
      replace (Z.to_nat (strlen buf)) with (String.length buf)
        by (unfold strlen; lia).
      rewrite substring_all.
      replace (wrap (strlen buf + 1)) with (strlen (buf +:+ String key ""))
        by (rewrite strlen_append, wrap_small; [reflexivity | lia]).
      rewrite IH; [|exact Hrun|exact Hpr|rewrite strlen_append; change (strlen (String key "")) with 1; lia].
      by rewrite append_assoc.
    + rewrite IH by done. unfold kept.
      rewrite !substring_prefix; [done| |]; unfold strlen in *; lia.
Qed.

Lemma strlen_pos s : s ≠ "" → 0 < strlen s.
Proof. destruct s; [done|]. unfold strlen. simpl. lia. Qed.

Lemma streq_false (a b : string) : a ≠ b → streq a b = false.
Proof. intros H. unfold streq. by apply bool_decide_eq_false_2. Qed.

(** X19.  A line of printable characters ended by Enter is published to the topic
    [shell]: the body is what was typed, cut to the [BUFSIZ - 1] characters
    the buffer takes, and the thread goes on with an empty line.  A line that
    is a command is not meant here. *)
Theorem shell_publishes_line w lo li text a rest :
  world_inv w lo li → smq_running w = true → printable text →
  kept text ≠ "" → kept text ≠ "/quit" → kept text ≠ "/exit" →
  fresh (w_heap w) a → fits (topic_url (w_smq w) "shell") →
  ∃ w1,
    smq_publish w a "shell" (Some (kept text)) = Some w1 ∧
    world_inv w1 (lo ++ [a]) li ∧
    outgoing_thread w (mkLine "" 0) (typed text ++ (key_enter, a) :: rest) =
    outgoing_thread w1 (mkLine "" 0) rest.
Proof.
  intros Hinv Hrun Hpr Hne Hquit Hexit Hfresh Hfits.
  destruct (smq_publish_running w lo li a "shell" (Some (kept text))
              Hinv Hrun Hfresh Hfits) as (w1 & Hcall & Hinv1 & _).
  exists w1. split; [exact Hcall|]. split; [exact Hinv1|].
  change (mkLine "" 0) with (mkLine "" (strlen "")) at 1.
  rewrite typing_fills_line; [|exact Hrun|exact Hpr|unfold strlen, BUFSIZ; simpl; lia].
  change ("" +:+ text) with text.
  cbn [outgoing_thread]. rewrite Hrun. unfold outgoing_turn.
  cbn [input_buffer input_index].
  change (code key_enter =? 10) with true. cbn match.
  rewrite (streq_false _ _ Hquit), (streq_false _ _ Hexit). cbn [orb].
  destruct (Z.ltb_spec 0 (strlen (kept text))) as [_|Hz];
    [|pose proof (strlen_pos _ Hne); lia].
  by rewrite Hcall.
Qed.

Lemma shell_publishes_line_witness :
  ∃ w1,
    smq_publish (ex_client "Tester") 1 "shell" (Some "hello")
      = Some w1 ∧
    outgoing_thread (ex_client "Tester") (mkLine "" 0)
      (typed "hello" ++ [(key_enter, 1)]) = Some (w1, mkLine "" 0).
Proof.
  destruct (shell_publishes_line (ex_client "Tester") [] []
              "hello" 1 [] (ex_client_inv _) eq_refl)
    as (w1 & Hcall & _ & Hloop).
  - cbn [printable]; repeat split; by vm_compute.
  - intros H. vm_compute in H. discriminate.
  - intros H. vm_compute in H. discriminate.
  - intros H. vm_compute in H. discriminate.
  - split; [reflexivity | unfold SIZE_MOD; lia].
  - unfold fits, BUFSIZ. simpl. lia.
  - exists w1. split; [exact Hcall | exact Hloop].
Defined.

(** X20.  Backspace takes back the last character typed, as long as the line had
    room for it. *)
Theorem shell_backspace w text key a rest :
  smq_running w = true → printable text → 32 ≤ code key < 127 →
  strlen text < BUFSIZ - 1 →
  outgoing_thread w (mkLine "" 0)
    (typed (text +:+ String key "") ++ (key_backspace, a) :: rest) =
  outgoing_thread w (mkLine "" 0) (typed text ++ rest).
Proof.
  intros Hrun Hpr Hkey Hlen.
  assert (Hpr1 : printable (text +:+ String key "")).
  { clear Hlen. induction text as [|c text IH]; simpl; [by split|].
    destruct Hpr as [Hc Hpr]. split; [exact Hc | by apply IH]. }
  assert (Hlen1 : strlen (text +:+ String key "") = strlen text + 1).
  { by rewrite strlen_append. }
  pose proof (strlen_nonneg text) as Hnn. pose proof bufsiz_small as Hbig.
  change (mkLine "" 0) with (mkLine "" (strlen "")).
  rewrite !typing_fills_line;
    [|exact Hrun|exact Hpr|unfold strlen, BUFSIZ; simpl; lia
     |exact Hrun|exact Hpr1|unfold strlen, BUFSIZ; simpl; lia].
  change ("" +:+ text) with text.
  change ("" +:+ (text +:+ String key "")) with (text +:+ String key "").
  unfold kept.
  rewrite !substring_short by (unfold strlen in *; lia).
  cbn [outgoing_thread]. rewrite Hrun. unfold outgoing_turn.
  cbn [input_buffer input_index].
  change (code key_backspace =? 10) with false.
  change (code key_backspace =? BACKSPACE) with true. cbn match.
  rewrite Hlen1.
  destruct (Z.ltb_spec 0 (strlen text + 1)) as [_|Hz]; [|lia]. cbn [andb].
  replace (strlen text + 1 - 1) with (strlen text) by lia.
  rewrite wrap_small by lia.
  replace (Z.to_nat (strlen text)) with (String.length text)
    by (unfold strlen; lia).
  by rewrite substring_prefix.
Qed.

Lemma shell_backspace_witness :
  outgoing_thread (ex_client "Tester") (mkLine "" 0)
    (typed "heloo" ++ (key_backspace, 0) :: typed "lo") =
  outgoing_thread (ex_client "Tester") (mkLine "" 0)
    (typed "helo" ++ typed "lo").
Proof.
  apply (shell_backspace (ex_client "Tester") "helo"
           (Ascii.ascii_of_nat 111) 0 (typed "lo") eq_refl).
  - cbn [printable]; repeat split; by vm_compute.
  - split; by vm_compute.
  - unfold strlen, BUFSIZ. simpl. lia.
Defined.

(** X21.  The commands [/quit] and [/exit] shut the client down, with both joins
    of [smq_shutdown], and end the thread: what is typed after them is not
    read. *)
Theorem shell_quit w cmd a rest :
  smq_running w = true → cmd = "/quit" ∨ cmd = "/exit" →
  outgoing_thread w (mkLine "" 0) (typed cmd ++ (key_enter, a) :: rest) =
    Some (smq_shutdown w, mkLine cmd 5) ∧
  smq_running (smq_shutdown w) = false ∧
  w_joins (smq_shutdown w) = w_joins w ++ [Pusher; Puller].
Proof.
  intros Hrun Hcmd. split; [|split; [reflexivity|]].
  - change (mkLine "" 0) with (mkLine "" (strlen "")).
    rewrite typing_fills_line;
      [|exact Hrun
       |destruct Hcmd as [->| ->]; cbn [printable]; repeat split; by vm_compute
       |unfold strlen, BUFSIZ; simpl; lia].
    change ("" +:+ cmd) with cmd.
    assert (Hkept : kept cmd = cmd).
    { unfold kept. apply substring_short.
      destruct Hcmd as [->| ->]; simpl; unfold BUFSIZ; lia. }
    rewrite Hkept.
    cbn [outgoing_thread]. rewrite Hrun. unfold outgoing_turn.
    cbn [input_buffer input_index].
    change (code key_enter =? 10) with true. cbn match.
    by destruct Hcmd as [->| ->].
  - unfold smq_shutdown, thread_join. simpl. by rewrite <- app_assoc.
Qed.

Lemma shell_quit_witness :
  outgoing_thread (ex_client "Tester") (mkLine "" 0)
    (typed "/quit" ++ (key_enter, 0) :: typed "late") =
  Some (smq_shutdown (ex_client "Tester"), mkLine "/quit" 5).
Proof.
  apply (shell_quit (ex_client "Tester") "/quit" 0
           (typed "late") eq_refl).
  by left.
Defined.
